(** * A token-bucket rate limiter (Go) and its HTTP and statistics layers

    Shallow embedding of
    - [main.go]: [RateLimiter], [NewRateLimiter], [Allow], [Wait], [min];
    - package [middleware]: [PerKeyHTTPRateLimiter] and its [Middleware] /
      [MiddlewareFunc] handlers over a [sync.Map];
    - package [stats]: [Stats], [StatsSnapshot], [RateLimiterWithStats];
    - package [middleware], further: [HTTPRateLimiter] and its handlers,
      [KeyFuncs.Combination];
    - package [config]: [Config], [Validate], [Clone], [ConfigSet],
      [Builder].

    Conventions.
    - Go's [int] and [int64] are 64-bit two's-complement integers (the
      targets the repository builds for are amd64 and arm64); they are
      integers of [Z] kept in range by [GoInt.wrap].
    - [float64] is IEEE-754 binary64, computed with the executable
      specification [SpecFloat] (precision 53, [emax] 1024, round to
      nearest even).
    - [time.Now()] is an input: every function that reads the clock takes
      the reading as an argument, in nanoseconds.
    - A method that holds its receiver's mutex for its whole body
      ([Allow], [RecordAllowed], ...) is one atomic step. *)

From Stdlib Require Import ZArith Lia Bool List.
From Stdlib Require Import Floats.SpecFloat.
From stdpp Require Import gmap strings list fin_maps.

#[local] Open Scope Z_scope.

(** ** Go integers *)

Module GoInt.

Definition minInt : Z := - 2 ^ 63.
Definition maxInt : Z := 2 ^ 63 - 1.

(** Two's-complement reduction into [[minInt, maxInt]]. *)
Definition wrap (z : Z) : Z := (z + 2 ^ 63) mod 2 ^ 64 - 2 ^ 63.

Definition inRange (z : Z) : bool := (minInt <=? z) && (z <=? maxInt).

Definition add (a b : Z) : Z := wrap (a + b).
Definition sub (a b : Z) : Z := wrap (a - b).
Definition mul (a b : Z) : Z := wrap (a * b).

(** [a / b]: truncated division; a run-time panic when [b] is zero. *)
Definition quo (a b : Z) : option Z :=
  if b =? 0 then None else Some (wrap (Z.quot a b)).

(** Saturation, as [time.Time.Sub] does on overflow. *)
Definition clamp (z : Z) : Z := Z.max minInt (Z.min maxInt z).

End GoInt.

(** ** float64 *)

(** What a conversion [int(f)] yields when the truncated value of [f] does
    not fit an [int] (or [f] is a NaN): the language leaves it to the
    implementation. *)
Class Arch := { int_of_float64_overflow : spec_float -> Z }.

(** amd64: CVTTSD2SQ answers the "integer indefinite" value. *)
Definition amd64 : Arch := {| int_of_float64_overflow := fun _ => GoInt.minInt |}.

(** arm64: FCVTZS saturates, and answers 0 on a NaN. *)
Definition arm64 : Arch :=
  {| int_of_float64_overflow := fun f =>
       match f with
       | S754_infinity false | S754_finite false _ _ => GoInt.maxInt
       | S754_infinity true | S754_finite true _ _ => GoInt.minInt
       | _ => 0
       end |}.

Module Float64.

Definition float64 : Type := spec_float.

Definition prec : Z := 53.
Definition emax : Z := 1024.

Definition add : float64 -> float64 -> float64 := SFadd prec emax.
Definition mul : float64 -> float64 -> float64 := SFmul prec emax.
Definition div : float64 -> float64 -> float64 := SFdiv prec emax.

Definition zero : float64 := S754_zero false.

(** [float64(n)] for an integer [n]. *)
Definition of_int (n : Z) : float64 := binary_normalize prec emax n 0 false.

(** [x > y]; false when either is a NaN. *)
Definition gtb (x y : float64) : bool :=
  match SFcompare x y with
  | Some Gt => true
  | _ => false
  end.

(** A float that is a number: neither an infinity nor a NaN. *)
Definition is_number (f : float64) : bool :=
  match f with
  | S754_zero _ | S754_finite _ _ _ => true
  | S754_infinity _ | S754_nan => false
  end.

(** A positive normal float: a 53-bit mantissa, with its exponent in
    [[lo, hi]].  Its value lies in [[2 ^ (52 + lo), 2 ^ (53 + hi))]. *)
Definition posNormal (lo hi : Z) (f : float64) : Prop :=
  exists m e, f = S754_finite false m e /\
              2 ^ 52 <= Z.pos m < 2 ^ 53 /\ lo <= e <= hi.

(** The value of [f] truncated toward zero, when [f] is a number. *)
Definition trunc (f : float64) : option Z :=
  match f with
  | S754_zero _ => Some 0
  | S754_finite s m e => Some (cond_Zopp s (Z.shiftl (Z.pos m) e))
  | S754_infinity _ | S754_nan => None
  end.

(** [int(f)]. *)
Definition to_int `{Arch} (f : float64) : Z :=
  match trunc f with
  | Some z => if GoInt.inRange z then z else int_of_float64_overflow f
  | None => int_of_float64_overflow f
  end.

End Float64.

(** ** Package time *)

Module GoTime.

(** [time.Duration]: an [int64] count of nanoseconds. *)
Definition Duration : Type := Z.

Definition Nanosecond : Duration := 1.
Definition Millisecond : Duration := 1000000.
Definition Second : Duration := 1000000000.

(** [d.Seconds()]:
    [sec := d / Second; nsec := d % Second;
     return float64(sec) + float64(nsec)/1e9]. *)
Definition Seconds (d : Duration) : Float64.float64 :=
  let sec := Z.quot d Second in
  let nsec := Z.rem d Second in
  Float64.add (Float64.of_int sec)
              (Float64.div (Float64.of_int nsec) (Float64.of_int 1000000000)).

(** [time.Time]: an instant, in nanoseconds after the zero [Time]. *)
Definition Time : Type := Z.

(** [time.Time{}]. *)
Definition zeroTime : Time := 0.

(** [t.Sub(u)]: the difference, saturated to the range of [Duration]. *)
Definition Sub (t u : Time) : Duration := GoInt.clamp (t - u).

(** [t.After(u)]. *)
Definition After (t u : Time) : bool := u <? t.

(** [time.Since(t)], with [now] the reading of the clock. *)
Definition Since (now t : Time) : Duration := Sub now t.

End GoTime.

(** ** main.go: the token bucket *)

Module Main.
Import GoTime.

Record RateLimiter := {
  rate : Z;            (* tokens per second *)
  burst : Z;           (* maximum number of tokens *)
  tokens : Z;          (* current number of tokens *)
  lastUpdate : Time    (* last time tokens were updated *)
}.

Definition NewRateLimiter (rate burst : Z) (now : Time) : RateLimiter :=
  {| rate := rate; burst := burst; tokens := burst; lastUpdate := now |}.

Definition min (a b : Z) : Z := if a <? b then a else b.

(** [int(elapsed.Seconds() * float64(rl.rate))]. *)
Definition tokensToAdd `{Arch} (elapsed : Duration) (rate : Z) : Z :=
  Float64.to_int (Float64.mul (Seconds elapsed) (Float64.of_int rate)).

(** The first half of [Allow]: the clock is read, [lastUpdate] moves to
    it and the tokens earned since are added, up to [burst]. *)
Definition refill `{Arch} (rl : RateLimiter) (now : Time) : RateLimiter :=
  let elapsed := Sub now (lastUpdate rl) in
  {| rate := rate rl;
     burst := burst rl;
     tokens := min (GoInt.add (tokens rl) (tokensToAdd elapsed (rate rl))) (burst rl);
     lastUpdate := now |}.

(** The second half of [Allow]: [if rl.tokens > 0 { rl.tokens--; return
    true }; return false]. *)
Definition consume (rl : RateLimiter) : bool * RateLimiter :=
  if 0 <? tokens rl
  then (true, {| rate := rate rl; burst := burst rl;
                 tokens := GoInt.sub (tokens rl) 1;
                 lastUpdate := lastUpdate rl |})
  else (false, rl).

Definition Allow `{Arch} (rl : RateLimiter) (now : Time) : bool * RateLimiter :=
  consume (refill rl now).

(** [time.Duration(1000/rl.rate) * time.Millisecond]; the division
    panics when [rate] is zero. *)
Definition retryDelay (rl : RateLimiter) : option Duration :=
  match GoInt.quo 1000 (rate rl) with
  | Some q => Some (GoInt.mul q Millisecond)
  | None => None
  end.

Inductive WaitResult :=
| Acquired (rl : RateLimiter)   (* [Allow] answered true: [Wait] returns *)
| Sleeping (rl : RateLimiter)   (* still looping when the readings ran out *)
| Panicked (rl : RateLimiter).  (* integer division by zero *)

(** [for !rl.Allow() { time.Sleep(...) }].  [clock] lists the readings
    of the clock that the successive calls of [Allow] get; the second
    component lists the arguments of [time.Sleep], first to last. *)
Fixpoint Wait `{Arch} (rl : RateLimiter) (clock : list Time)
  : WaitResult * list Duration :=
  match clock with
  | [] => (Sleeping rl, [])
  | now :: clock' =>
      let (ok, rl') := Allow rl now in
      if ok then (Acquired rl', [])
      else match retryDelay rl' with
           | None => (Panicked rl', [])
           | Some d => let (r, ds) := Wait rl' clock' in (r, d :: ds)
           end
  end.

(** The bucket after a run of [Allow] calls, and their answers. *)
Fixpoint AllowAll `{Arch} (rl : RateLimiter) (clock : list Time)
  : list bool * RateLimiter :=
  match clock with
  | [] => ([], rl)
  | now :: clock' =>
      let (ok, rl') := Allow rl now in
      let (oks, rl'') := AllowAll rl' clock' in
      (ok :: oks, rl'')
  end.

(** A run of calls in which no addition of earned tokens can overflow:
    at each call the tokens earned since the call before are
    non-negative and [burst] plus them is an [int]. *)
Fixpoint noOverflow `{Arch} (rate burst : Z) (last : Time) (clock : list Time)
  : Prop :=
  match clock with
  | [] => True
  | now :: clock' =>
      0 <= tokensToAdd (Sub now last) rate /\
      burst + tokensToAdd (Sub now last) rate <= GoInt.maxInt /\
      noOverflow rate burst now clock'
  end.

(** A run of calls on a clock that does not run backwards: each reading
    is at or after the one before, the first at or after [last]. *)
Fixpoint nondecreasing (last : Time) (clock : list Time) : Prop :=
  match clock with
  | [] => True
  | now :: clock' => last <= now /\ nondecreasing now clock'
  end.

(** C5 in the spec's words: the fractions of a token earned across
    refills are retained.  Then two refills, at [t1] and at [t2], leave
    the whole tokens that one refill at [t2] leaves. *)
Definition retainsFractions `{Arch} (rl : RateLimiter) (t1 t2 : Time) : Prop :=
  tokens (refill (refill rl t1) t2) = tokens (refill rl t2).

(** The readings of a clock polled [n] times, every [d] after [t]. *)
Fixpoint every (d : Duration) (t : Time) (n : nat) : list Time :=
  match n with
  | O => []
  | S n' => (t + d) :: every d (t + d) n'
  end.

End Main.

(** ** Package stats *)

Module Stats.
Import GoTime.

Record Stats := {
  TotalRequests : Z;
  AllowedRequests : Z;
  DeniedRequests : Z;
  StartTime : Time;
  LastRequestTime : Time
}.

Definition NewStats (now : Time) : Stats :=
  {| TotalRequests := 0; AllowedRequests := 0; DeniedRequests := 0;
     StartTime := now; LastRequestTime := zeroTime |}.

Definition RecordAllowed (s : Stats) (now : Time) : Stats :=
  {| TotalRequests := GoInt.add (TotalRequests s) 1;
     AllowedRequests := GoInt.add (AllowedRequests s) 1;
     DeniedRequests := DeniedRequests s;
     StartTime := StartTime s;
     LastRequestTime := now |}.

Definition RecordDenied (s : Stats) (now : Time) : Stats :=
  {| TotalRequests := GoInt.add (TotalRequests s) 1;
     AllowedRequests := AllowedRequests s;
     DeniedRequests := GoInt.add (DeniedRequests s) 1;
     StartTime := StartTime s;
     LastRequestTime := now |}.

Definition Reset (s : Stats) (now : Time) : Stats :=
  {| TotalRequests := 0; AllowedRequests := 0; DeniedRequests := 0;
     StartTime := now; LastRequestTime := zeroTime |}.

Definition calculateAcceptanceRatio (s : Stats) : Float64.float64 :=
  if TotalRequests s =? 0 then Float64.zero
  else Float64.div (Float64.of_int (AllowedRequests s))
                   (Float64.of_int (TotalRequests s)).

Module Snapshot.
Record StatsSnapshot := {
  TotalRequests : Z;
  AllowedRequests : Z;
  DeniedRequests : Z;
  StartTime : Time;
  LastRequestTime : Time;
  Duration : GoTime.Duration;
  Rate : Float64.float64;
  AcceptanceRatio : Float64.float64
}.
End Snapshot.
Export Snapshot (StatsSnapshot).

(** The [duration] local of [GetSnapshot]. *)
Definition snapshotDuration (s : Stats) (now : Time) : Duration :=
  let duration := Since now (StartTime s) in
  if After (LastRequestTime s) (StartTime s)
  then Sub (LastRequestTime s) (StartTime s)
  else duration.

(** The [rate] local of [GetSnapshot]; a [float64] variable starts at 0. *)
Definition snapshotRate (s : Stats) (duration : Duration) : Float64.float64 :=
  if Float64.gtb (Seconds duration) Float64.zero
  then Float64.div (Float64.of_int (AllowedRequests s)) (Seconds duration)
  else Float64.zero.

Definition GetSnapshot (s : Stats) (now : Time) : StatsSnapshot :=
  let duration := snapshotDuration s now in
  let rate := snapshotRate s duration in
  {| Snapshot.TotalRequests := TotalRequests s;
     Snapshot.AllowedRequests := AllowedRequests s;
     Snapshot.DeniedRequests := DeniedRequests s;
     Snapshot.StartTime := StartTime s;
     Snapshot.LastRequestTime := LastRequestTime s;
     Snapshot.Duration := duration;
     Snapshot.Rate := rate;
     Snapshot.AcceptanceRatio := calculateAcceptanceRatio s |}.

(** The duration of C8 in the spec's words: [max(0, lastActivity -
    startTime)] when at least one event has been recorded, the time
    elapsed since the start otherwise. *)
Definition specDuration (s : Stats) (now : Time) : Duration :=
  if negb (TotalRequests s =? 0)
  then Z.max 0 (LastRequestTime s - StartTime s)
  else Since now (StartTime s).

(** The calls a [Collector] takes, each with the clock reading it gets. *)
Inductive Call :=
| CallRecordAllowed (now : Time)
| CallRecordDenied (now : Time)
| CallReset (now : Time).

Definition call (s : Stats) (c : Call) : Stats :=
  match c with
  | CallRecordAllowed now => RecordAllowed s now
  | CallRecordDenied now => RecordDenied s now
  | CallReset now => Reset s now
  end.

Definition calls (s : Stats) (cs : list Call) : Stats := fold_left call cs s.

(** [total == allowed + denied], as Go evaluates it on [int64]. *)
Definition consistent (s : Stats) : Prop :=
  TotalRequests s = GoInt.add (AllowedRequests s) (DeniedRequests s).

(** The counters as integers of [Z], while they have room to grow. *)
Definition exact (room : Z) (s : Stats) : Prop :=
  0 <= AllowedRequests s /\ 0 <= DeniedRequests s /\
  TotalRequests s = AllowedRequests s + DeniedRequests s /\
  TotalRequests s + room <= GoInt.maxInt.

(** The interface [RateLimiter] of package stats.  [Allow] gets the
    reading of the clock at the call; [Wait] gets the readings of its
    whole run and answers [None] when it has not returned by their end. *)
Class RateLimiter (L : Type) := {
  Allow : L -> Time -> bool * L;
  Wait : L -> list Time -> option L
}.

Record RateLimiterWithStats (L : Type) := {
  limiter : L;
  stats : Stats
}.
Arguments limiter {L} _.
Arguments stats {L} _.

Definition NewRateLimiterWithStats {L : Type} (limiter : L) (now : Time)
  : RateLimiterWithStats L :=
  {| limiter := limiter; stats := NewStats now |}.

(** [allowed := r.limiter.Allow(); if allowed { r.stats.RecordAllowed() }
    else { r.stats.RecordDenied() }; return allowed].  The limiter reads
    the clock at [now], the collector after it at [now']. *)
Definition AllowWithStats {L : Type} `{RateLimiter L}
    (r : RateLimiterWithStats L) (now now' : Time)
  : bool * RateLimiterWithStats L :=
  let (allowed, l') := Allow (limiter r) now in
  if allowed
  then (allowed, {| limiter := l'; stats := RecordAllowed (stats r) now' |})
  else (allowed, {| limiter := l'; stats := RecordDenied (stats r) now' |}).

(** [r.limiter.Wait(); r.stats.RecordAllowed()]. *)
Definition WaitWithStats {L : Type} `{RateLimiter L}
    (r : RateLimiterWithStats L) (clock : list Time) (now' : Time)
  : option (RateLimiterWithStats L) :=
  match Wait (limiter r) clock with
  | Some l' => Some {| limiter := l'; stats := RecordAllowed (stats r) now' |}
  | None => None
  end.

Definition GetStats {L : Type} (r : RateLimiterWithStats L) : Stats := stats r.

(** The token bucket of [main.go] behind the interface. *)
#[export] Instance bucket_RateLimiter `{Arch} : RateLimiter Main.RateLimiter := {|
  Allow := Main.Allow;
  Wait rl clock :=
    match fst (Main.Wait rl clock) with
    | Main.Acquired rl' => Some rl'
    | _ => None
    end
|}.

(** [mockRateLimiter] of the package's tests. *)
Record mockRateLimiter := {
  allowReturn : bool;
  allowCount : Z;
  waitCount : Z
}.

#[export] Instance mock_RateLimiter : RateLimiter mockRateLimiter := {|
  Allow m _ :=
    (allowReturn m,
     {| allowReturn := allowReturn m;
        allowCount := GoInt.add (allowCount m) 1;
        waitCount := waitCount m |});
  Wait m _ :=
    Some {| allowReturn := allowReturn m;
            allowCount := allowCount m;
            waitCount := GoInt.add (waitCount m) 1 |}
|}.

End Stats.

(** ** Package middleware: one limiter per key *)

Module Middleware.
Import GoTime.

(** The interface [RateLimiter] of package middleware.  [Allow] gets the
    reading of the clock at the call. *)
Class RateLimiter (L : Type) := { Allow : L -> Time -> bool * L }.

#[export] Instance bucket_RateLimiter `{Arch} : RateLimiter Main.RateLimiter :=
  {| Allow := Main.Allow |}.

(** [mockRateLimiter] of the package's tests; [callCount] is an [int32]. *)
Record mockRateLimiter := {
  allowReturn : bool;
  callCount : Z
}.

Definition wrap32 (z : Z) : Z := (z + 2 ^ 31) mod 2 ^ 32 - 2 ^ 31.

#[export] Instance mock_RateLimiter : RateLimiter mockRateLimiter := {|
  Allow m _ :=
    (allowReturn m,
     {| allowReturn := allowReturn m; callCount := wrap32 (callCount m + 1) |})
|}.

(** What a handler needs of [*http.Request], and what it writes to the
    [http.ResponseWriter]. *)
Record Request := {
  Header : gmap string string;
  RemoteAddr : string;
  Path : string
}.

Record Response := {
  Code : Z;
  Body : string
}.

Definition Handler : Type := Request -> Response.
Definition KeyFunc : Type := Request -> string.
Definition ErrorHandler : Type := Request -> Response.

(** [h.Get(name)]: the empty string when the header is absent. *)
Definition Get (h : gmap string string) (name : string) : string :=
  default EmptyString (h !! name).

Definition DefaultKeyFunc : KeyFunc := fun r =>
  let ip := Get (Header r) "X-Forwarded-For" in
  if negb (String.eqb ip EmptyString) then ip
  else
    let ip := Get (Header r) "X-Real-IP" in
    if negb (String.eqb ip EmptyString) then ip
    else RemoteAddr r.

Definition StatusTooManyRequests : Z := 429.

Definition DefaultErrorHandler : ErrorHandler := fun _ =>
  {| Code := StatusTooManyRequests; Body := "Too Many Requests" |}.

Record Options := {
  optKeyFunc : option KeyFunc;
  optErrorHandler : option ErrorHandler
}.

(** A limiter lives in the heap; the registry and the goroutines hold
    its address. *)
Abbreviation loc := nat (only parsing).

(** [sync.Map.LoadOrStore(key, value)]: the stored value and [true] when
    the key is present, else [value] is stored and answered with
    [false].  One atomic step. *)
Definition LoadOrStore (m : gmap string loc) (key : string) (value : loc)
  : loc * bool * gmap string loc :=
  match m !! key with
  | Some actual => (actual, true, m)
  | None => (value, false, <[key := value]> m)
  end.

Section PerKey.
(** [L]: the limiters the factory builds; [F]: the state the factory
    closes over, which a call may change. *)
Context {L F : Type} `{RateLimiter L}.

Definition LimiterFactory : Type := F -> L * F.

Record PerKeyHTTPRateLimiter := {
  limiterFactory : LimiterFactory;
  keyFunc : KeyFunc;
  errorHandler : ErrorHandler;
  limiters : gmap string loc
}.

Definition NewPerKeyHTTPRateLimiter (factory : LimiterFactory)
    (opts : option Options) : PerKeyHTTPRateLimiter :=
  {| limiterFactory := factory;
     keyFunc := match opts with
                | Some {| optKeyFunc := Some f |} => f
                | _ => DefaultKeyFunc
                end;
     errorHandler := match opts with
                     | Some {| optErrorHandler := Some h |} => h
                     | _ => DefaultErrorHandler
                     end;
     limiters := ∅ |}.

(** The middleware, the limiters allocated so far and the state of the
    factory. *)
Record World := {
  self : PerKeyHTTPRateLimiter;
  heap : list L;
  env : F
}.

Definition NewWorld (factory : LimiterFactory) (opts : option Options)
    (env0 : F) : World :=
  {| self := NewPerKeyHTTPRateLimiter factory opts; heap := []; env := env0 |}.

(** [rl.limiterFactory()]: the factory runs and its limiter is
    allocated at a new address. *)
Definition callFactory (w : World) : loc * World :=
  let (l, env') := limiterFactory (self w) (env w) in
  (length (heap w),
   {| self := self w; heap := heap w ++ [l]; env := env' |}).

(** [rl.limiters.LoadOrStore(key, candidate)]. *)
Definition loadOrStore (w : World) (key : string) (candidate : loc)
  : loc * bool * World :=
  let '(actual, loaded, m) := LoadOrStore (limiters (self w)) key candidate in
  (actual, loaded,
   {| self := {| limiterFactory := limiterFactory (self w);
                 keyFunc := keyFunc (self w);
                 errorHandler := errorHandler (self w);
                 limiters := m |};
      heap := heap w; env := env w |}).

(** [limiter.Allow()] on the limiter at address [p]; [None] is the
    panic on an address that holds no limiter. *)
Definition allowAt (w : World) (p : loc) (now : Time) : option (bool * World) :=
  match heap w !! p with
  | Some l =>
      let (ok, l') := Allow l now in
      Some (ok, {| self := self w; heap := <[p := l']> (heap w); env := env w |})
  | None => None
  end.

(** The handler [Middleware(next)] serving one request from start to
    end. *)
Definition Middleware (next : Handler) (w : World) (r : Request) (now : Time)
  : option (Response * World) :=
  let key := keyFunc (self w) r in
  let (candidate, w1) := callFactory w in
  let '(limiter, _, w2) := loadOrStore w1 key candidate in
  match allowAt w2 limiter now with
  | Some (ok, w3) =>
      if negb ok then Some (errorHandler (self w) r, w3)
      else Some (next r, w3)
  | None => None
  end.

(** [MiddlewareFunc(next)] has the same body; only the Go type of
    [next] differs. *)
Definition MiddlewareFunc (next : Handler) : World -> Request -> Time
  -> option (Response * World) := Middleware next.

(** Requests served one after the other. *)
Fixpoint ServeAll (next : Handler) (w : World) (rs : list (Request * Time))
  : option (list Response * World) :=
  match rs with
  | [] => Some ([], w)
  | (r, now) :: rs' =>
      match Middleware next w r now with
      | Some (resp, w') =>
          match ServeAll next w' rs' with
          | Some (resps, w'') => Some (resp :: resps, w'')
          | None => None
          end
      | None => None
      end
  end.

(** *** Requests served concurrently

    Each request runs the handler in a goroutine of its own.  The
    steps that touch shared state are the call of the factory, the
    [LoadOrStore] and the [Allow]; a goroutine is at one of them, with
    its locals, or done. *)
Inductive Goroutine :=
| Arrived (r : Request)
| Built (r : Request) (key : string) (candidate : loc)
| Resolved (r : Request) (key : string) (limiter : loc)
| Finished (r : Request) (key : string) (limiter : loc) (allowed : bool)
           (resp : Response)
| Crashed.

Definition stepGoroutine (next : Handler) (w : World) (g : Goroutine)
    (now : Time) : Goroutine * World :=
  match g with
  | Arrived r =>
      let (candidate, w') := callFactory w in
      (Built r (keyFunc (self w) r) candidate, w')
  | Built r key candidate =>
      let '(limiter, _, w') := loadOrStore w key candidate in
      (Resolved r key limiter, w')
  | Resolved r key limiter =>
      match allowAt w limiter now with
      | Some (ok, w') =>
          (Finished r key limiter ok
             (if negb ok then errorHandler (self w) r else next r), w')
      | None => (Crashed, w)
      end
  | Finished _ _ _ _ _ | Crashed => (g, w)
  end.

Record System := {
  world : World;
  goroutines : list Goroutine
}.

Definition start (w : World) (rs : list Request) : System :=
  {| world := w; goroutines := Arrived <$> rs |}.

(** Goroutine [i] takes its next step; [now] is the clock should the
    step read it. *)
Definition step (next : Handler) (s : System) (i : nat) (now : Time) : System :=
  match goroutines s !! i with
  | Some g =>
      let (g', w') := stepGoroutine next (world s) g now in
      {| world := w'; goroutines := <[i := g']> (goroutines s) |}
  | None => s
  end.

(** A schedule names, step by step, the goroutine that moves. *)
Definition run (next : Handler) (s : System) (sched : list (nat * Time)) : System :=
  fold_left (fun s '(i, now) => step next s i now) sched s.

(** Every address the registry holds is the address of a limiter. *)
Definition wfWorld (w : World) : Prop :=
  forall k p, limiters (self w) !! k = Some p -> (p < length (heap w))%nat.

(** What holds of a goroutine serving request [r0] in world [w]: its
    key is the key of [r0], a candidate it holds is allocated, and a
    limiter it holds is the one the registry stores for its key. *)
Definition goroutineOk (w : World) (r0 : Request) (g : Goroutine) : Prop :=
  match g with
  | Arrived r => r = r0
  | Built r key candidate =>
      r = r0 /\ key = keyFunc (self w) r /\ (candidate < length (heap w))%nat
  | Resolved r key limiter =>
      r = r0 /\ key = keyFunc (self w) r /\
      limiters (self w) !! key = Some limiter
  | Finished r key limiter _ _ =>
      r = r0 /\ key = keyFunc (self w) r /\
      limiters (self w) !! key = Some limiter
  | Crashed => False
  end.

Definition systemOk (rs : list Request) (s : System) : Prop :=
  wfWorld (world s) /\
  Forall2 (goroutineOk (world s)) rs (goroutines s).

(** [w'] is [w] some steps later: the same functions, a heap at least
    as long, and every entry of the registry still there. *)
Definition extends (w w' : World) : Prop :=
  limiterFactory (self w') = limiterFactory (self w) /\
  keyFunc (self w') = keyFunc (self w) /\
  errorHandler (self w') = errorHandler (self w) /\
  (length (heap w) <= length (heap w'))%nat /\
  forall k p, limiters (self w) !! k = Some p -> limiters (self w') !! k = Some p.

(** The goroutines that have called the factory. *)
Definition started (g : Goroutine) : bool :=
  match g with
  | Arrived _ => false
  | _ => true
  end.

Fixpoint countStarted (gs : list Goroutine) : nat :=
  match gs with
  | [] => O
  | g :: gs' => (if started g then 1 else 0) + countStarted gs'
  end.

(** The state of the factory after [n] calls. *)
Definition factoryRuns (factory : LimiterFactory) (n : nat) (e : F) : F :=
  Nat.iter n (fun e => snd (factory e)) e.

End PerKey.

Arguments PerKeyHTTPRateLimiter : clear implicits.
Arguments World : clear implicits.
Arguments System : clear implicits.
Arguments Goroutine : clear implicits.
Arguments LimiterFactory : clear implicits.

End Middleware.

(** ** Package stats: runs of calls through the decorator *)

Module Decorated.
Import GoTime Stats.

Section Runs.
Context {L : Type} `{RateLimiter L}.

(** The limiter called at each reading of a clock, and its answers. *)
Fixpoint AllowEach (l : L) (clock : list Time) : list bool * L :=
  match clock with
  | [] => ([], l)
  | now :: clock' =>
      let (ok, l') := Allow l now in
      let (oks, l'') := AllowEach l' clock' in
      (ok :: oks, l'')
  end.

(** [RateLimiterWithStats.Allow] called again and again; each call
    comes with the reading the limiter gets and the later one the
    collector gets. *)
Fixpoint AllowEachWithStats (r : RateLimiterWithStats L)
    (clock : list (Time * Time)) : list bool * RateLimiterWithStats L :=
  match clock with
  | [] => ([], r)
  | (now, now') :: clock' =>
      let (ok, r') := AllowWithStats r now now' in
      let (oks, r'') := AllowEachWithStats r' clock' in
      (ok :: oks, r'')
  end.

End Runs.

(** The number of answers [b] among [oks]. *)
Fixpoint answers (b : bool) (oks : list bool) : Z :=
  match oks with
  | [] => 0
  | ok :: oks' => (if Bool.eqb ok b then 1 else 0) + answers b oks'
  end.

End Decorated.

(** ** Package middleware: one limiter for all requests *)

Module HTTPMiddleware.
Import GoTime Middleware.

Section Single.
Context {L : Type} `{RateLimiter L}.

(** [HTTPRateLimiter].  The field [limiters] is declared, left [nil]
    by the constructor and used by no method. *)
Record HTTPRateLimiter := {
  limiter : L;
  keyFunc : KeyFunc;
  errorHandler : ErrorHandler;
  limiters : option (gmap string L)
}.


(** The handler [Middleware(next)] serving one request:
    [if !rl.limiter.Allow() { rl.errorHandler(w, r); return };
    next.ServeHTTP(w, r)]. *)
Definition Middleware (next : Handler) (rl : HTTPRateLimiter) (r : Request)
    (now : Time) : Response * HTTPRateLimiter :=
  let (ok, l') := Allow (limiter rl) now in
  let rl' := {| limiter := l'; keyFunc := keyFunc rl;
                errorHandler := errorHandler rl; limiters := limiters rl |} in
  if negb ok then (errorHandler rl r, rl') else (next r, rl').

(** [MiddlewareFunc(next)] has the same body. *)
Definition MiddlewareFunc (next : Handler) : HTTPRateLimiter -> Request -> Time
  -> Response * HTTPRateLimiter := Middleware next.

(** Requests served one after the other. *)
Fixpoint ServeAll (next : Handler) (rl : HTTPRateLimiter)
    (rs : list (Request * Time)) : list Response * HTTPRateLimiter :=
  match rs with
  | [] => ([], rl)
  | (r, now) :: rs' =>
      let (resp, rl') := Middleware next rl r now in
      let (resps, rl'') := ServeAll next rl' rs' in
      (resp :: resps, rl'')
  end.

(** The limiter called at each reading of a clock, and its answers. *)
Fixpoint AllowEach (l : L) (clock : list Time) : list bool * L :=
  match clock with
  | [] => ([], l)
  | now :: clock' =>
      let (ok, l') := Allow l now in
      let (oks, l'') := AllowEach l' clock' in
      (ok :: oks, l'')
  end.

End Single.

Arguments HTTPRateLimiter : clear implicits.

End HTTPMiddleware.

(** ** Package middleware: [KeyFuncs.Combination] *)

Module KeyFuncs.
Import Middleware.

(** [fmt.Sprintf("%v", keys)] on a slice of strings: the elements, a
    space between two of them, in square brackets. *)
Definition Sprintf_v (keys : list string) : string :=
  String.append "[" (String.append (String.concat " " keys) "]").

(** [for _, fn := range funcs { keys = append(keys, fn(r)) }]. *)
Definition Combination (funcs : list KeyFunc) : KeyFunc := fun r =>
  Sprintf_v (map (fun fn => fn r) funcs).

End KeyFuncs.

(** ** Package middleware: the registry as a map from keys to limiters *)

Module PerKeyView.
Import GoTime Middleware.

Section View.
Context {L F : Type}.

(** The limiter the registry holds for [key], if it holds one. *)
Definition limiterOf (w : World L F) (key : string) : option L :=
  match limiters (self w) !! key with
  | Some p => heap w !! p
  | None => None
  end.

(** No two keys of the registry share a limiter. *)
Definition separate (w : World L F) : Prop :=
  forall k1 k2 p,
    limiters (self w) !! k1 = Some p -> limiters (self w) !! k2 = Some p -> k1 = k2.

End View.
End PerKeyView.

(** ** Package config *)

Module Config.
Import GoTime.

(** A slice of strings: [len] elements of the array at address [arr],
    from index [off] on.  No function of the package appends to a slice
    of a [Config], so the capacity is left out. *)
Record Slice := { arr : nat; off : nat; len : nat }.

(** The arrays behind the slices, and the maps, by address. *)
Record Heap := {
  arrays : list (list string);
  maps : list (gmap string string)
}.

Definition readSlice (h : Heap) (s : Slice) : list string :=
  take (len s) (drop (off s) (default [] (arrays h !! arr s))).

Definition readMap (h : Heap) (a : nat) : gmap string string :=
  default ∅ (maps h !! a).

(** [s[i] = v]; [None] is the panic on an index out of range. *)
Definition writeSlice (h : Heap) (s : Slice) (i : nat) (v : string) : option Heap :=
  if (i <? len s)%nat
  then Some {| arrays := alter (fun a => <[(off s + i)%nat := v]> a) (arr s) (arrays h);
               maps := maps h |}
  else None.

(** [m[k] = v] on the map at address [a]. *)
Definition writeMap (h : Heap) (a : nat) (k v : string) : Heap :=
  {| arrays := arrays h; maps := alter (fun m => <[k := v]> m) a (maps h) |}.

(** [make([]string, n)]. *)
Definition makeSlice (h : Heap) (n : nat) : Slice * Heap :=
  ({| arr := length (arrays h); off := 0; len := n |},
   {| arrays := arrays h ++ [replicate n EmptyString]; maps := maps h |}).

(** [copy(dst, src)]: the first [min(len(dst), len(src))] elements of
    [src] go to the start of [dst]. *)
Definition copySlice (h : Heap) (dst src : Slice) : Heap :=
  let elems := take (Nat.min (len dst) (len src)) (readSlice h src) in
  {| arrays :=
       alter (fun a => take (off dst) a ++ elems
                       ++ drop (off dst + length elems) a)
         (arr dst) (arrays h);
     maps := maps h |}.

(** [make(map[string]string, n)]. *)
Definition makeMap (h : Heap) : nat * Heap :=
  (length (maps h), {| arrays := arrays h; maps := maps h ++ [∅] |}).

(** [Config]; a [nil] slice or map is [None]. *)
Record Config := {
  Rate : Z;
  Burst : Z;
  Window : Duration;
  Name : string;
  Enabled : bool;
  PerKeyLimits : bool;
  ErrorMessage : string;
  ExcludedPaths : option Slice;
  ExcludedIPs : option Slice;
  CustomHeaders : option nat
}.

Definition DefaultConfig : Config :=
  {| Rate := 10; Burst := 20; Window := Second; Name := EmptyString;
     Enabled := true; PerKeyLimits := false;
     ErrorMessage := "Too Many Requests";
     ExcludedPaths := None; ExcludedIPs := None; CustomHeaders := None |}.

(** [Validate]; [None] is the [nil] error, [Some msg] the error of
    message [msg]. *)
Definition Validate (c : Config) : option string :=
  if Rate c <=? 0 then Some "rate must be positive"%string
  else if Burst c <=? 0 then Some "burst must be positive"%string
  else if Burst c <? Rate c
       then Some "burst must be greater than or equal to rate"%string
  else if Window c <? 0 then Some "window must be non-negative"%string
  else None.

(** [if s != nil { clone = make([]string, len(s)); copy(clone, s) }]. *)
Definition cloneSlice (h : Heap) (s : option Slice) : option Slice * Heap :=
  match s with
  | Some src =>
      let (dst, h1) := makeSlice h (len src) in
      (Some dst, copySlice h1 dst src)
  | None => (None, h)
  end.

(** [if m != nil { clone = make(map[string]string, len(m));
    for k, v := range m { clone[k] = v } }]. *)
Definition cloneMap (h : Heap) (m : option nat) : option nat * Heap :=
  match m with
  | Some a =>
      let (a', h1) := makeMap h in
      (Some a', map_fold (fun k v h' => writeMap h' a' k v) h1 (readMap h a))
  | None => (None, h)
  end.

(** [Clone]: the struct is copied, then each slice and the map that is
    not [nil] is replaced by a copy. *)
Definition Clone (h : Heap) (c : Config) : Config * Heap :=
  let (paths, h1) := cloneSlice h (ExcludedPaths c) in
  let (ips, h2) := cloneSlice h1 (ExcludedIPs c) in
  let (headers, h3) := cloneMap h2 (CustomHeaders c) in
  ({| Rate := Rate c; Burst := Burst c; Window := Window c; Name := Name c;
      Enabled := Enabled c; PerKeyLimits := PerKeyLimits c;
      ErrorMessage := ErrorMessage c;
      ExcludedPaths := paths; ExcludedIPs := ips; CustomHeaders := headers |},
   h3).

(** A slice within the bounds of its array, a map that is allocated. *)
Definition wfSlice (h : Heap) (s : Slice) : Prop :=
  exists a, arrays h !! arr s = Some a /\ (off s + len s <= length a)%nat.

Definition wfConfig (h : Heap) (c : Config) : Prop :=
  (forall s, ExcludedPaths c = Some s -> wfSlice h s) /\
  (forall s, ExcludedIPs c = Some s -> wfSlice h s) /\
  (forall a, CustomHeaders c = Some a -> (a < length (maps h))%nat).

(** [ConfigSet].  The map holds pointers; a [*Config] is modelled by
    the [Config] it points to, [nil] by [None].  No method of the set
    writes to a [Config]. *)
Record ConfigSet := { configs : gmap string Config }.

Definition NewConfigSet : ConfigSet := {| configs := ∅ |}.

Definition Add (cs : ConfigSet) (name : string) (config : option Config)
  : option string * ConfigSet :=
  if String.eqb name EmptyString
  then (Some "config name cannot be empty"%string, cs)
  else match config with
       | None => (Some "config cannot be nil"%string, cs)
       | Some c =>
           match Validate c with
           | Some err =>
               (Some (String.append "invalid config for "
                        (String.append name (String.append ": " err))), cs)
           | None => (None, {| configs := <[name := c]> (configs cs) |})
           end
       end.

Definition Get (cs : ConfigSet) (name : string) : option Config * bool :=
  match configs cs !! name with
  | Some c => (Some c, true)
  | None => (None, false)
  end.

Definition Remove (cs : ConfigSet) (name : string) : ConfigSet :=
  {| configs := delete name (configs cs) |}.

(** [Names]; Go ranges over the map in an order it does not specify,
    this is one of them. *)
Definition Names (cs : ConfigSet) : list string := (map_to_list (configs cs)).*1.

(** The calls that change a set. *)
Inductive Op :=
| OpAdd (name : string) (config : option Config)
| OpRemove (name : string).

Definition applyOp (cs : ConfigSet) (op : Op) : ConfigSet :=
  match op with
  | OpAdd name config => snd (Add cs name config)
  | OpRemove name => Remove cs name
  end.

Definition applyAll (cs : ConfigSet) (ops : list Op) : ConfigSet :=
  fold_left applyOp ops cs.

(** Every config of the set is under a name that is not empty and
    passes [Validate]. *)
Definition allValid (cs : ConfigSet) : Prop :=
  forall name c, configs cs !! name = Some c ->
                 name <> EmptyString /\ Validate c = None.

(** [Builder]; the setters write to the builder's own [Config]. *)
Record Builder := { config : Config }.

Definition NewBuilder : Builder := {| config := DefaultConfig |}.

Definition WithRate (b : Builder) (rate : Z) : Builder :=
  let c := config b in
  {| config :=
       {| Rate := rate; Burst := Burst c; Window := Window c; Name := Name c;
          Enabled := Enabled c; PerKeyLimits := PerKeyLimits c;
          ErrorMessage := ErrorMessage c; ExcludedPaths := ExcludedPaths c;
          ExcludedIPs := ExcludedIPs c; CustomHeaders := CustomHeaders c |} |}.

Definition WithBurst (b : Builder) (burst : Z) : Builder :=
  let c := config b in
  {| config :=
       {| Rate := Rate c; Burst := burst; Window := Window c; Name := Name c;
          Enabled := Enabled c; PerKeyLimits := PerKeyLimits c;
          ErrorMessage := ErrorMessage c; ExcludedPaths := ExcludedPaths c;
          ExcludedIPs := ExcludedIPs c; CustomHeaders := CustomHeaders c |} |}.

Definition WithWindow (b : Builder) (window : Duration) : Builder :=
  let c := config b in
  {| config :=
       {| Rate := Rate c; Burst := Burst c; Window := window; Name := Name c;
          Enabled := Enabled c; PerKeyLimits := PerKeyLimits c;
          ErrorMessage := ErrorMessage c; ExcludedPaths := ExcludedPaths c;
          ExcludedIPs := ExcludedIPs c; CustomHeaders := CustomHeaders c |} |}.

Definition WithName (b : Builder) (name : string) : Builder :=
  let c := config b in
  {| config :=
       {| Rate := Rate c; Burst := Burst c; Window := Window c; Name := name;
          Enabled := Enabled c; PerKeyLimits := PerKeyLimits c;
          ErrorMessage := ErrorMessage c; ExcludedPaths := ExcludedPaths c;
          ExcludedIPs := ExcludedIPs c; CustomHeaders := CustomHeaders c |} |}.

Definition WithEnabled (b : Builder) (enabled : bool) : Builder :=
  let c := config b in
  {| config :=
       {| Rate := Rate c; Burst := Burst c; Window := Window c; Name := Name c;
          Enabled := enabled; PerKeyLimits := PerKeyLimits c;
          ErrorMessage := ErrorMessage c; ExcludedPaths := ExcludedPaths c;
          ExcludedIPs := ExcludedIPs c; CustomHeaders := CustomHeaders c |} |}.

Definition WithPerKeyLimits (b : Builder) (enabled : bool) : Builder :=
  let c := config b in
  {| config :=
       {| Rate := Rate c; Burst := Burst c; Window := Window c; Name := Name c;
          Enabled := Enabled c; PerKeyLimits := enabled;
          ErrorMessage := ErrorMessage c; ExcludedPaths := ExcludedPaths c;
          ExcludedIPs := ExcludedIPs c; CustomHeaders := CustomHeaders c |} |}.

Definition WithErrorMessage (b : Builder) (message : string) : Builder :=
  let c := config b in
  {| config :=
       {| Rate := Rate c; Burst := Burst c; Window := Window c; Name := Name c;
          Enabled := Enabled c; PerKeyLimits := PerKeyLimits c;
          ErrorMessage := message; ExcludedPaths := ExcludedPaths c;
          ExcludedIPs := ExcludedIPs c; CustomHeaders := CustomHeaders c |} |}.

(** The builder keeps the caller's slice, not a copy of it. *)
Definition WithExcludedPaths (b : Builder) (paths : option Slice) : Builder :=
  let c := config b in
  {| config :=
       {| Rate := Rate c; Burst := Burst c; Window := Window c; Name := Name c;
          Enabled := Enabled c; PerKeyLimits := PerKeyLimits c;
          ErrorMessage := ErrorMessage c; ExcludedPaths := paths;
          ExcludedIPs := ExcludedIPs c; CustomHeaders := CustomHeaders c |} |}.

Definition WithExcludedIPs (b : Builder) (ips : option Slice) : Builder :=
  let c := config b in
  {| config :=
       {| Rate := Rate c; Burst := Burst c; Window := Window c; Name := Name c;
          Enabled := Enabled c; PerKeyLimits := PerKeyLimits c;
          ErrorMessage := ErrorMessage c; ExcludedPaths := ExcludedPaths c;
          ExcludedIPs := ips; CustomHeaders := CustomHeaders c |} |}.

Definition WithCustomHeaders (b : Builder) (headers : option nat) : Builder :=
  let c := config b in
  {| config :=
       {| Rate := Rate c; Burst := Burst c; Window := Window c; Name := Name c;
          Enabled := Enabled c; PerKeyLimits := PerKeyLimits c;
          ErrorMessage := ErrorMessage c; ExcludedPaths := ExcludedPaths c;
          ExcludedIPs := ExcludedIPs c; CustomHeaders := headers |} |}.

(** [Build]: the error of [Validate] and no config, or a [Clone] of
    the builder's config. *)
Definition Build (h : Heap) (b : Builder) : option Config * option string * Heap :=
  match Validate (config b) with
  | Some err => (None, Some err, h)
  | None => let (c, h') := Clone h (config b) in (Some c, None, h')
  end.

End Config.

(** A [nil] is no element, a value is one. *)
Definition optList {A : Type} (o : option A) : list A :=
  match o with Some x => [x] | None => [] end.

(** * Properties *)

(** ** Go integers *)

Section GoIntFacts.
Import GoInt.

Lemma wrap_range (z : Z) : minInt <= wrap z <= maxInt.
Proof.
  unfold wrap, minInt, maxInt.
  pose proof (Z.mod_pos_bound (z + 2 ^ 63) (2 ^ 64)). lia.
Qed.

Lemma wrap_small (z : Z) : minInt <= z <= maxInt -> wrap z = z.
Proof.
  unfold wrap, minInt, maxInt. intros Hz.
  rewrite Z.mod_small by lia. lia.
Qed.

(** [wrap z] and [z] differ by a multiple of [2 ^ 64]. *)
Lemma wrap_congr (z : Z) : exists k, wrap z = z + k * 2 ^ 64.
Proof.
  unfold wrap. exists (- ((z + 2 ^ 63) / 2 ^ 64)).
  pose proof (Z.div_mod (z + 2 ^ 63) (2 ^ 64)). lia.
Qed.

Lemma wrap_shift (z k : Z) : wrap (z + k * 2 ^ 64) = wrap z.
Proof.
  unfold wrap.
  replace (z + k * 2 ^ 64 + 2 ^ 63) with (z + 2 ^ 63 + k * 2 ^ 64) by lia.
  now rewrite Z.mod_add by lia.
Qed.

Lemma clamp_range (z : Z) : minInt <= clamp z <= maxInt.
Proof. unfold clamp, minInt, maxInt. lia. Qed.

Lemma clamp_small (z : Z) : minInt <= z <= maxInt -> clamp z = z.
Proof. unfold clamp. lia. Qed.

End GoIntFacts.

(** ** float64: conversions and rounding stay within the numbers *)

Section Float64Facts.
Import Float64.

Lemma digits2_pos_size (p : positive) : digits2_pos p = Pos.size p.
Proof. induction p; simpl; congruence. Qed.

Lemma digits2_pos_upper (p : positive) : Z.pos p < 2 ^ Z.pos (digits2_pos p).
Proof.
  rewrite digits2_pos_size.
  pose proof (Pos.size_gt p) as Hgt.
  apply Pos2Z.pos_lt_pos in Hgt. now rewrite Pos2Z.inj_pow in Hgt.
Qed.

Lemma digits2_pos_lower (p : positive) : 2 ^ Z.pos (digits2_pos p) <= 2 * Z.pos p.
Proof.
  rewrite digits2_pos_size.
  pose proof (Pos.size_le p) as Hle.
  apply Pos2Z.pos_le_pos in Hle. now rewrite Pos2Z.inj_pow in Hle.
Qed.

Lemma Zdigits2_nonneg (m : Z) : 0 <= Zdigits2 m.
Proof. destruct m; simpl; lia. Qed.

Lemma Zdigits2_le (k m : Z) : 0 <= k -> 0 <= m < 2 ^ k -> Zdigits2 m <= k.
Proof.
  intros Hk [Hm0 Hmk]. destruct m as [|p|p]; simpl; [lia| |lia].
  pose proof (digits2_pos_lower p) as Hlo.
  destruct (Z_le_gt_dec (Z.pos (digits2_pos p)) k) as [|Hgt]; [assumption|exfalso].
  assert (2 ^ (k + 1) <= 2 ^ Z.pos (digits2_pos p)) by (apply Z.pow_le_mono_r; lia).
  rewrite Z.pow_add_r in * by lia. lia.
Qed.

Lemma shr_1_bounds (mrs : shr_record) :
  0 <= shr_m mrs -> 0 <= shr_m (shr_1 mrs) <= shr_m mrs.
Proof. destruct mrs as [[|[p|p|]|[p|p|]] r s]; simpl; lia. Qed.

Lemma iter_shr_1_bounds (p : positive) (mrs : shr_record) :
  0 <= shr_m mrs -> 0 <= shr_m (SpecFloat.iter_pos shr_1 p mrs) <= shr_m mrs.
Proof.
  revert mrs. induction p as [p IH|p IH|]; intros mrs Hm; simpl.
  - pose proof (shr_1_bounds mrs Hm).
    pose proof (IH (shr_1 mrs) ltac:(lia)).
    pose proof (IH (SpecFloat.iter_pos shr_1 p (shr_1 mrs)) ltac:(lia)). lia.
  - pose proof (IH mrs Hm).
    pose proof (IH (SpecFloat.iter_pos shr_1 p mrs) ltac:(lia)). lia.
  - now apply shr_1_bounds.
Qed.

Lemma shr_bounds (mrs : shr_record) (e n : Z) :
  0 <= shr_m mrs ->
  0 <= shr_m (fst (shr mrs e n)) <= shr_m mrs /\
  e <= snd (shr mrs e n) <= Z.max e (e + n).
Proof.
  intros Hm. destruct n as [|p|p]; simpl; try lia.
  pose proof (iter_shr_1_bounds p mrs Hm). lia.
Qed.

Lemma shr_m_of_loc (m : Z) (l : location) : shr_m (shr_record_of_loc m l) = m.
Proof. now destruct l as [|[]]. Qed.

Lemma shr_fexp_bounds (m e : Z) (l : location) :
  0 <= m ->
  0 <= shr_m (fst (shr_fexp prec emax m e l)) <= m /\
  e <= snd (shr_fexp prec emax m e l) <= Z.max e (fexp prec emax (Zdigits2 m + e)).
Proof.
  intros Hm. unfold shr_fexp.
  pose proof (shr_bounds (shr_record_of_loc m l) e
                (fexp prec emax (Zdigits2 m + e) - e)) as Hb.
  rewrite shr_m_of_loc in Hb. specialize (Hb Hm).
  replace (e + (fexp prec emax (Zdigits2 m + e) - e))
    with (fexp prec emax (Zdigits2 m + e)) in Hb by lia.
  exact Hb.
Qed.

Lemma round_nearest_even_bounds (m : Z) (l : location) :
  m <= round_nearest_even m l <= m + 1.
Proof. destruct l as [|[]]; simpl; try lia. destruct (Z.even m); lia. Qed.

Lemma fexp_eq (e : Z) : fexp prec emax e = Z.max (e - 53) (-1074).
Proof. reflexivity. Qed.

Lemma binary_round_aux_number (sx : bool) (mx ex : Z) (lx : location) (K : Z) :
  0 <= K <= 1000 -> 0 <= mx < 2 ^ K -> K + ex <= 900 -> 2 * K + ex <= 1000 ->
  is_number (binary_round_aux prec emax sx mx ex lx) = true.
Proof.
  intros HK Hmx He1 He2. unfold binary_round_aux.
  pose proof (shr_fexp_bounds mx ex lx ltac:(lia)) as [Hm1 He'].
  pose proof (Zdigits2_le K mx ltac:(lia) Hmx) as Hd. pose proof (Zdigits2_nonneg mx).
  rewrite fexp_eq in He'.
  destruct (shr_fexp prec emax mx ex lx) as [mrs' e']. simpl in Hm1, He'.
  pose proof (round_nearest_even_bounds (shr_m mrs') (loc_of_shr_record mrs')) as Hr.
  set (m1 := round_nearest_even (shr_m mrs') (loc_of_shr_record mrs')) in *.
  pose proof (shr_fexp_bounds m1 e' loc_Exact ltac:(lia)) as [Hm2 He''].
  assert (Hm1K : 0 <= m1 < 2 ^ (K + 1)) by (rewrite Z.pow_add_r by lia; lia).
  pose proof (Zdigits2_le (K + 1) m1 ltac:(lia) Hm1K) as Hd1.
  pose proof (Zdigits2_nonneg m1).
  rewrite fexp_eq in He''.
  destruct (shr_fexp prec emax m1 e' loc_Exact) as [mrs'' e'']. simpl in Hm2, He''.
  destruct (shr_m mrs'') as [|p|p]; [reflexivity| |lia].
  replace (e'' <=? emax - prec) with true; [reflexivity|].
  symmetry. apply Z.leb_le. unfold emax, prec. lia.
Qed.

Lemma iter_xO_pow (m d : positive) : Z.pos (Pos.iter xO m d) = Z.pos m * 2 ^ Z.pos d.
Proof.
  induction d as [|d IH] using Pos.peano_ind.
  - simpl. lia.
  - rewrite Pos.iter_succ, Pos2Z.inj_succ, Z.pow_succ_r by lia.
    rewrite Pos2Z.inj_xO, IH. lia.
Qed.

Lemma shl_align_fexp_bounds (p : positive) :
  Z.pos p < 2 ^ 64 ->
  let '(mz, ez) := shl_align p 0 (fexp prec emax (Z.pos (digits2_pos p) + 0)) in
  Z.pos mz < 2 ^ 64 /\ ez <= 0.
Proof.
  intros Hp. rewrite fexp_eq. unfold shl_align.
  pose proof (digits2_pos_upper p) as Hup.
  destruct (Z.max (Z.pos (digits2_pos p) + 0 - 53) (-1074) - 0) as [|q|q] eqn:Hq;
    [lia|lia|].
  split; [|lia].
  rewrite iter_xO_pow.
  assert (Hd : Z.pos q = 53 - Z.pos (digits2_pos p)) by lia.
  assert (Z.pos p * 2 ^ Z.pos q < 2 ^ Z.pos (digits2_pos p) * 2 ^ Z.pos q)
    by (apply Z.mul_lt_mono_pos_r; lia).
  rewrite <- Z.pow_add_r in * by lia.
  replace (Z.pos (digits2_pos p) + Z.pos q) with 53 in * by lia. lia.
Qed.

Lemma binary_round_number (s : bool) (p : positive) :
  Z.pos p < 2 ^ 64 -> is_number (binary_round prec emax s p 0) = true.
Proof.
  intros Hp. unfold binary_round.
  pose proof (shl_align_fexp_bounds p Hp) as Hb.
  destruct (shl_align p 0 _) as [mz ez]. destruct Hb as [Hmz Hez].
  apply binary_round_aux_number with (K := 64); lia.
Qed.

(** Every [int] converts to a number. *)
Lemma of_int_number (n : Z) :
  GoInt.minInt <= n <= GoInt.maxInt -> is_number (of_int n) = true.
Proof.
  unfold GoInt.minInt, GoInt.maxInt. intros Hn.
  destruct n as [|p|p]; simpl; [reflexivity| |];
    apply binary_round_number; lia.
Qed.

Lemma mul_zero_l (s : bool) (f : float64) :
  is_number f = true -> exists s', mul (S754_zero s) f = S754_zero s'.
Proof. destruct f; simpl; try discriminate; eauto. Qed.

Lemma to_int_zero `{Arch} (s : bool) : to_int (S754_zero s) = 0.
Proof. reflexivity. Qed.

End Float64Facts.

Section BucketFloat.
Import GoTime Main.

Lemma Seconds_0 : Seconds 0 = S754_zero false.
Proof. reflexivity. Qed.

(** No time elapsed: no token earned, whatever the rate. *)
Lemma tokensToAdd_0 `{Arch} (rate : Z) :
  GoInt.minInt <= rate <= GoInt.maxInt -> tokensToAdd 0 rate = 0.
Proof.
  intros Hr. unfold tokensToAdd. rewrite Seconds_0.
  destruct (mul_zero_l false _ (of_int_number rate Hr)) as [s' ->].
  apply to_int_zero.
Qed.
End BucketFloat.


(** ** float64: positive normal numbers *)

Section Float64Positive.
Import Float64.

Lemma shr_1_half (mrs : shr_record) :
  0 <= shr_m mrs -> shr_m (shr_1 mrs) = shr_m mrs / 2.
Proof.
  destruct mrs as [[|p|p] r s]; cbn [shr_m]; intros Hm; [reflexivity| |lia].
  destruct p as [p|p|]; cbn [shr_1 shr_m].
  - rewrite Pos2Z.inj_xI. apply Z.div_unique with (r := 1); lia.
  - rewrite Pos2Z.inj_xO. apply Z.div_unique with (r := 0); lia.
  - reflexivity.
Qed.

Lemma iter_shr_1_div (p : positive) (mrs : shr_record) :
  0 <= shr_m mrs ->
  shr_m (SpecFloat.iter_pos shr_1 p mrs) = shr_m mrs / 2 ^ Z.pos p.
Proof.
  revert mrs. induction p as [p IH|p IH|]; intros mrs Hm; cbn [SpecFloat.iter_pos].
  - pose proof (shr_1_bounds mrs Hm) as H1.
    pose proof (iter_shr_1_bounds p (shr_1 mrs) ltac:(lia)) as H2.
    rewrite IH by lia. rewrite IH by lia. rewrite shr_1_half by lia.
    rewrite !Z.div_div by lia. f_equal.
    change (Z.pos p~1) with (2 * Z.pos p + 1).
    replace (2 * Z.pos p + 1) with (1 + Z.pos p + Z.pos p) by lia.
    rewrite !Z.pow_add_r by lia. lia.
  - pose proof (iter_shr_1_bounds p mrs Hm) as H2.
    rewrite IH by lia. rewrite IH by lia.
    rewrite !Z.div_div by lia. f_equal.
    change (Z.pos p~0) with (2 * Z.pos p).
    replace (2 * Z.pos p) with (Z.pos p + Z.pos p) by lia.
    rewrite !Z.pow_add_r by lia. lia.
  - now apply shr_1_half.
Qed.

Lemma Zdigits2_bounds (m : Z) :
  0 < m -> 2 ^ (Zdigits2 m - 1) <= m < 2 ^ Zdigits2 m.
Proof.
  destruct m as [|p|p]; [lia| |lia]. intros _. cbn [Zdigits2].
  pose proof (digits2_pos_upper p). pose proof (digits2_pos_lower p) as Hlo.
  split; [|assumption].
  replace (Z.pos (digits2_pos p)) with (Z.pos (digits2_pos p) - 1 + 1) in Hlo by lia.
  rewrite Z.pow_add_r in Hlo by lia. lia.
Qed.

Lemma Zdigits2_pos (m : Z) : 0 < m -> 0 < Zdigits2 m.
Proof. destruct m; simpl; lia. Qed.

Lemma Zdigits2_eq (m k : Z) : 0 < k -> 2 ^ (k - 1) <= m < 2 ^ k -> Zdigits2 m = k.
Proof.
  intros Hk [Hlo Hhi].
  assert (Hm : 0 < m) by (pose proof (Z.pow_pos_nonneg 2 (k - 1)); lia).
  pose proof (Zdigits2_le k m ltac:(lia) ltac:(lia)) as Hle.
  pose proof (Zdigits2_bounds m Hm) as [_ Hup].
  pose proof (Zdigits2_pos m Hm) as Hd.
  destruct (Z_le_gt_dec k (Zdigits2 m)) as [|Hgt]; [lia|exfalso].
  assert (2 ^ Zdigits2 m <= 2 ^ (k - 1)) by (apply Z.pow_le_mono_r; lia). lia.
Qed.

Lemma Zdigits2_ge (m k : Z) : 0 <= k -> 2 ^ k <= m -> k < Zdigits2 m.
Proof.
  intros Hk Hlo.
  assert (Hm : 0 < m) by (pose proof (Z.pow_pos_nonneg 2 k); lia).
  pose proof (Zdigits2_bounds m Hm) as [_ Hup].
  pose proof (Zdigits2_pos m Hm) as Hd.
  destruct (Z_lt_le_dec k (Zdigits2 m)) as [|Hle]; [assumption|exfalso].
  assert (2 ^ Zdigits2 m <= 2 ^ k) by (apply Z.pow_le_mono_r; lia). lia.
Qed.

(** Scaling a 53-bit mantissa by a power of two. *)
Lemma scale_bounds (m k : Z) :
  2 ^ 52 <= m < 2 ^ 53 -> 0 <= k -> 2 ^ (52 + k) <= m * 2 ^ k < 2 ^ (53 + k).
Proof.
  intros Hm Hk. rewrite !Z.pow_add_r by lia.
  assert (0 < 2 ^ k) by (apply Z.pow_pos_nonneg; lia).
  split; [apply Z.mul_le_mono_nonneg_r; lia|apply Z.mul_lt_mono_pos_r; lia].
Qed.

(** The first step of rounding: a positive mantissa of 53 bits or more,
    at an exponent not below [emin], is cut to 53 bits exactly. *)
Lemma shr_fexp_normal (m e : Z) (l : location) :
  0 < m -> 53 <= Zdigits2 m -> -1074 <= e ->
  2 ^ 52 <= shr_m (fst (shr_fexp prec emax m e l)) < 2 ^ 53 /\
  snd (shr_fexp prec emax m e l) = Zdigits2 m + e - 53.
Proof.
  intros Hm Hd He. unfold shr_fexp. rewrite fexp_eq.
  pose proof (Zdigits2_bounds m Hm) as [Hlo Hhi].
  set (d := Zdigits2 m) in *.
  destruct (Z.max (d + e - 53) (-1074) - e) as [|n|n] eqn:Hn; cbn [shr fst snd];
    [| |lia].
  - rewrite shr_m_of_loc. replace d with 53 in * by lia. split; [|lia].
    change (53 - 1) with 52 in Hlo. lia.
  - rewrite iter_shr_1_div by (rewrite shr_m_of_loc; lia).
    rewrite shr_m_of_loc.
    assert (Hnd : Z.pos n = d - 53) by lia.
    assert (Hpow : 0 < 2 ^ Z.pos n) by (apply Z.pow_pos_nonneg; lia).
    split; [|lia]. rewrite Hnd in *. split.
    + apply Z.div_le_lower_bound; [assumption|].
      rewrite <- Z.pow_add_r by lia. now replace (d - 53 + 52) with (d - 1) by lia.
    + apply Z.div_lt_upper_bound; [assumption|].
      rewrite <- Z.pow_add_r by lia. now replace (d - 53 + 53) with d by lia.
Qed.

(** Rounding a positive mantissa of 53 bits or more at an exponent not
    below [emin], short of overflow, gives a normal float of the same
    sign, whose exponent is that of the mantissa's leading bit or one
    more. *)
Lemma binary_round_aux_normal (sx : bool) (mx ex : Z) (lx : location) :
  0 < mx -> 53 <= Zdigits2 mx -> -1074 <= ex -> Zdigits2 mx + ex <= 1023 ->
  exists m e,
    binary_round_aux prec emax sx mx ex lx = S754_finite sx m e /\
    2 ^ 52 <= Z.pos m < 2 ^ 53 /\
    Zdigits2 mx + ex - 53 <= e <= Zdigits2 mx + ex - 52.
Proof.
  intros Hmx Hd Hex Hov. unfold binary_round_aux.
  pose proof (shr_fexp_normal mx ex lx Hmx Hd Hex) as [Hm1 He1].
  destruct (shr_fexp prec emax mx ex lx) as [mrs' e']. cbn [fst snd] in Hm1, He1.
  pose proof (round_nearest_even_bounds (shr_m mrs') (loc_of_shr_record mrs')) as Hr.
  set (m1 := round_nearest_even (shr_m mrs') (loc_of_shr_record mrs')) in *.
  pose proof (Zdigits2_ge m1 52 ltac:(lia) ltac:(lia)) as Hd1.
  assert (Hd1' : Zdigits2 m1 <= 54).
  { apply Zdigits2_le; [lia|]. change (2 ^ 54) with (2 * 2 ^ 53). lia. }
  pose proof (shr_fexp_normal m1 e' loc_Exact ltac:(lia) ltac:(lia) ltac:(lia))
    as [Hm2 He2].
  destruct (shr_fexp prec emax m1 e' loc_Exact) as [mrs'' e'']. cbn [fst snd] in Hm2, He2.
  destruct (shr_m mrs'') as [|m|m]; [lia| |lia].
  replace (e'' <=? emax - prec) with true
    by (symmetry; apply Z.leb_le; unfold emax, prec; lia).
  exists m, e''. split; [reflexivity|]. split; [exact Hm2|lia].
Qed.

Lemma digits2_iter_xO (m d : positive) :
  digits2_pos (Pos.iter xO m d) = (digits2_pos m + d)%positive.
Proof.
  induction d as [|d IH] using Pos.peano_ind.
  - cbn. lia.
  - rewrite Pos.iter_succ. cbn [digits2_pos]. rewrite IH. lia.
Qed.

Lemma shl_align_spec (mx : positive) (ex ex' : Z) :
  snd (shl_align mx ex ex') = Z.min ex ex' /\
  Z.pos (digits2_pos (fst (shl_align mx ex ex'))) + snd (shl_align mx ex ex')
  = Z.pos (digits2_pos mx) + ex /\
  Z.pos (fst (shl_align mx ex ex'))
  = Z.pos mx * 2 ^ (ex - snd (shl_align mx ex ex')).
Proof.
  unfold shl_align. destruct (ex' - ex) as [|d|d] eqn:Hd; cbn [fst snd].
  - split; [lia|]. split; [reflexivity|]. rewrite Z.sub_diag. lia.
  - split; [lia|]. split; [reflexivity|]. rewrite Z.sub_diag. lia.
  - split; [lia|]. rewrite digits2_iter_xO, iter_xO_pow.
    split; [lia|]. f_equal. f_equal. lia.
Qed.

(** Normalising a positive mantissa whose leading bit stands in the
    normal range gives a normal float of the same sign. *)
Lemma binary_round_normal (s : bool) (p : positive) (e : Z) :
  -1074 <= e -> -1021 <= Z.pos (digits2_pos p) + e <= 1023 ->
  exists m' e',
    binary_round prec emax s p e = S754_finite s m' e' /\
    2 ^ 52 <= Z.pos m' < 2 ^ 53 /\
    Z.pos (digits2_pos p) + e - 53 <= e' <= Z.pos (digits2_pos p) + e - 52.
Proof.
  intros He HD. unfold binary_round.
  pose proof (shl_align_spec p e (fexp prec emax (Z.pos (digits2_pos p) + e)))
    as (Hez & Hdig & _).
  rewrite fexp_eq in *.
  destruct (shl_align p e _) as [mz ez]. cbn [fst snd] in *.
  destruct (binary_round_aux_normal s (Z.pos mz) ez loc_Exact)
    as (m' & e' & Hr & Hm & Hb); cbn [Zdigits2]; try lia.
  exists m', e'. cbn [Zdigits2] in Hb. split; [exact Hr|]. split; [exact Hm|lia].
Qed.

Lemma posNormal_weaken (lo hi lo' hi' : Z) (f : float64) :
  lo' <= lo -> hi <= hi' -> posNormal lo hi f -> posNormal lo' hi' f.
Proof. intros Hlo Hhi (m & e & -> & Hm & He). exists m, e. repeat split; lia. Qed.

Lemma posNormal_gtb (lo hi : Z) (f : float64) : posNormal lo hi f -> gtb f zero = true.
Proof. intros (m & e & -> & _). reflexivity. Qed.

(** A positive integer of at most [k] bits converts to a positive normal
    float. *)
Lemma of_int_normal (k n : Z) :
  0 < k <= 64 -> 0 < n < 2 ^ k -> posNormal (-52) (k - 52) (of_int n).
Proof.
  intros Hk Hn. destruct n as [|p|p]; [lia| |lia].
  cbn [of_int binary_normalize].
  pose proof (Zdigits2_le k (Z.pos p) ltac:(lia) ltac:(lia)) as Hd.
  cbn [Zdigits2] in Hd.
  destruct (binary_round_normal false p 0) as (m & e & Hr & Hm & Hb); try lia.
  exists m, e. split; [exact Hr|]. split; [exact Hm|lia].
Qed.

Lemma of_int_1e9 : of_int 1000000000 = S754_finite false 8388608000000000 (-23).
Proof. reflexivity. Qed.

(** A positive normal float divided by [1e9]. *)
Lemma div_1e9_normal (lo hi : Z) (x : float64) :
  -500 <= lo -> hi <= 500 -> posNormal lo hi x ->
  posNormal (lo - 30) (hi - 28) (div x (of_int 1000000000)).
Proof.
  intros Hlo Hhi (m1 & e1 & -> & Hm1 & He1).
  rewrite of_int_1e9. unfold div, SFdiv, SFdiv_core_binary.
  change (Zdigits2 (Z.pos 8388608000000000)) with 53.
  rewrite (Zdigits2_eq (Z.pos m1) 53) by (change (53 - 1) with 52; lia).
  rewrite fexp_eq.
  replace (Z.min (Z.max (53 + e1 - (53 + -23) - 53) (-1074)) (e1 - -23))
    with (e1 - 30) by lia.
  replace (e1 - -23 - (e1 - 30)) with 53 by lia.
  rewrite Z.shiftl_mul_pow2 by lia.
  set (m' := Z.pos m1 * 2 ^ 53).
  assert (Hm' : 2 ^ 105 <= m' < 2 ^ 106)
    by (apply (scale_bounds (Z.pos m1) 53); lia).
  assert (Hq : fst (Z.div_eucl m' 8388608000000000) = m' / 8388608000000000)
    by reflexivity.
  destruct (Z.div_eucl m' 8388608000000000) as [q r]. cbn [fst] in Hq.
  assert (Hq0 : 2 ^ 52 <= q).
  { rewrite Hq. apply Z.div_le_lower_bound; lia. }
  assert (Hq1 : q < 2 ^ 54).
  { rewrite Hq. apply Z.div_lt_upper_bound; lia. }
  pose proof (Zdigits2_le 54 q ltac:(lia) ltac:(lia)) as Hdq.
  pose proof (Zdigits2_ge q 52 ltac:(lia) Hq0) as Hdq0.
  cbn [xorb].
  destruct (binary_round_aux_normal false q (e1 - 30)
              (new_location 8388608000000000 r)) as (m & e & Hr & Hm & Hb); try lia.
  exists m, e. split; [exact Hr|]. split; [exact Hm|lia].
Qed.

(** The sum of two positive normal floats. *)
Lemma add_normal (lo1 hi1 lo2 hi2 : Z) (x y : float64) :
  -500 <= lo1 -> -500 <= lo2 -> hi1 <= 500 -> hi2 <= 500 ->
  posNormal lo1 hi1 x -> posNormal lo2 hi2 y ->
  posNormal (Z.max lo1 lo2) (Z.max hi1 hi2 + 2) (add x y).
Proof.
  intros Hlo1 Hlo2 Hhi1 Hhi2 (m1 & e1 & -> & Hm1 & He1) (m2 & e2 & -> & Hm2 & He2).
  unfold add, SFadd. cbn [cond_Zopp].
  set (ez := Z.min e1 e2).
  pose proof (shl_align_spec m1 e1 ez) as (Ha1 & _ & Ha3).
  pose proof (shl_align_spec m2 e2 ez) as (Hb1 & _ & Hb3).
  destruct (shl_align m1 e1 ez) as [a ea], (shl_align m2 e2 ez) as [b eb].
  cbn [fst snd] in *.
  pose proof (scale_bounds (Z.pos m1) (e1 - ea) Hm1 ltac:(lia)) as Ha.
  pose proof (scale_bounds (Z.pos m2) (e2 - eb) Hm2 ltac:(lia)) as Hb.
  rewrite <- Ha3 in Ha. rewrite <- Hb3 in Hb.
  set (M := Z.max e1 e2).
  assert (Hsum : 2 ^ (52 + (M - ez)) <= Z.pos (a + b) < 2 ^ (54 + (M - ez))).
  { rewrite Pos2Z.inj_add.
    assert (Hmono : forall k, k <= M - ez -> 2 ^ (53 + k) <= 2 ^ (53 + (M - ez)))
      by (intros k Hk; apply Z.pow_le_mono_r; lia).
    pose proof (Hmono (e1 - ea) ltac:(lia)). pose proof (Hmono (e2 - eb) ltac:(lia)).
    replace (54 + (M - ez)) with (1 + (53 + (M - ez))) by lia.
    rewrite (Z.pow_add_r 2 1) by lia. change (2 ^ 1) with 2.
    split; [|lia].
    destruct (Z.max_spec e1 e2) as [[_ HM]|[_ HM]]; fold M in HM.
    - replace (M - ez) with (e2 - eb) by lia. lia.
    - replace (M - ez) with (e1 - ea) by lia. lia. }
  change (Z.pos a + Z.pos b) with (Z.pos (a + b)). cbn [binary_normalize].
  pose proof (Zdigits2_le (54 + (M - ez)) (Z.pos (a + b)) ltac:(lia) ltac:(lia)) as Hd.
  pose proof (Zdigits2_ge (Z.pos (a + b)) (52 + (M - ez)) ltac:(lia) ltac:(lia)) as Hd'.
  cbn [Zdigits2] in Hd, Hd'.
  destruct (binary_round_normal false (a + b) ez) as (m & e & Hr & Hm & Hb'); try lia.
  exists m, e. split; [exact Hr|]. split; [exact Hm|lia].
Qed.

(** The product of two positive normal floats. *)
Lemma mul_normal (lo1 hi1 lo2 hi2 : Z) (x y : float64) :
  -500 <= lo1 -> -500 <= lo2 -> hi1 <= 400 -> hi2 <= 400 ->
  posNormal lo1 hi1 x -> posNormal lo2 hi2 y ->
  posNormal (lo1 + lo2 + 52) (hi1 + hi2 + 54) (mul x y).
Proof.
  intros Hlo1 Hlo2 Hhi1 Hhi2 (m1 & e1 & -> & Hm1 & He1) (m2 & e2 & -> & Hm2 & He2).
  unfold mul, SFmul. cbn [xorb].
  assert (Hprod : 2 ^ 104 <= Z.pos (m1 * m2) < 2 ^ 106).
  { rewrite Pos2Z.inj_mul.
    change (2 ^ 104) with (2 ^ 52 * 2 ^ 52). change (2 ^ 106) with (2 ^ 53 * 2 ^ 53).
    split; [apply Z.mul_le_mono_nonneg; lia|apply Z.mul_lt_mono_nonneg; lia]. }
  pose proof (Zdigits2_le 106 (Z.pos (m1 * m2)) ltac:(lia) ltac:(lia)) as Hd.
  pose proof (Zdigits2_ge (Z.pos (m1 * m2)) 104 ltac:(lia) ltac:(lia)) as Hd'.
  destruct (binary_round_aux_normal false (Z.pos (m1 * m2)) (e1 + e2) loc_Exact)
    as (m & e & Hr & Hm & Hb); try lia.
  exists m, e. split; [exact Hr|]. split; [exact Hm|lia].
Qed.

(** The integer part of a positive normal float. *)
Lemma trunc_normal (lo hi : Z) (f : float64) :
  0 <= hi -> posNormal lo hi f ->
  exists z, trunc f = Some z /\ 0 <= z < 2 ^ (53 + hi).
Proof.
  intros Hhi (m & e & -> & Hm & He). cbn [trunc cond_Zopp].
  exists (Z.shiftl (Z.pos m) e). split; [reflexivity|].
  assert (Hbig : 2 ^ 53 <= 2 ^ (53 + hi)) by (apply Z.pow_le_mono_r; lia).
  destruct (Z_le_gt_dec 0 e) as [Hpos|Hneg].
  - rewrite Z.shiftl_mul_pow2 by lia.
    pose proof (scale_bounds (Z.pos m) e Hm Hpos) as [Hlo' Hhi'].
    assert (2 ^ (53 + e) <= 2 ^ (53 + hi)) by (apply Z.pow_le_mono_r; lia).
    assert (0 < 2 ^ e) by (apply Z.pow_pos_nonneg; lia). nia.
  - rewrite Z.shiftl_div_pow2 by lia.
    assert (Hp : 0 < 2 ^ (- e)) by (apply Z.pow_pos_nonneg; lia).
    split; [apply Z.div_pos; lia|].
    apply Z.le_lt_trans with (Z.pos m); [|lia].
    apply Z.div_le_upper_bound; [assumption|]. nia.
Qed.
End Float64Positive.

Section SecondsFacts.
Import Float64 GoTime.

(** A positive duration has a positive, normal number of seconds, below
    [2 ^ 37]. *)
Lemma Seconds_normal (d : Duration) :
  0 < d <= GoInt.maxInt -> posNormal (-82) (-16) (Seconds d).
Proof.
  intros Hd. unfold Seconds, Second.
  assert (Hmax : GoInt.maxInt = 9223372036854775807) by reflexivity.
  rewrite Z.quot_div_nonneg, Z.rem_mod_nonneg by lia.
  pose proof (Z.div_mod d 1000000000 ltac:(lia)) as Hdm.
  pose proof (Z.mod_pos_bound d 1000000000 ltac:(lia)) as Hns.
  assert (Hs : 0 <= d / 1000000000 < 2 ^ 34).
  { split; [apply Z.div_pos; lia|]. apply Z.div_lt_upper_bound; lia. }
  set (sec := d / 1000000000) in *. set (nsec := d mod 1000000000) in *.
  destruct (Z.eq_dec nsec 0) as [Hn0|Hn0].
  - rewrite Hn0. change (div (of_int 0) (of_int 1000000000)) with (S754_zero false).
    pose proof (of_int_normal 34 sec ltac:(lia) ltac:(lia)) as Hx.
    apply (posNormal_weaken (-52) (34 - 52)); [lia|lia|].
    destruct Hx as (m & e & Hx & Hrest). rewrite Hx. exists m, e. auto.
  - pose proof (of_int_normal 30 nsec ltac:(lia) ltac:(lia)) as Hn.
    pose proof (div_1e9_normal (-52) (30 - 52) _ ltac:(lia) ltac:(lia) Hn) as Hy.
    destruct (Z.eq_dec sec 0) as [Hs0|Hs0].
    + rewrite Hs0. apply (posNormal_weaken (-52 - 30) (30 - 52 - 28)); [lia|lia|].
      destruct Hy as (m & e & Hy & Hrest). rewrite Hy. exists m, e. auto.
    + pose proof (of_int_normal 34 sec ltac:(lia) ltac:(lia)) as Hx.
      pose proof (add_normal (-52) (34 - 52) (-52 - 30) (30 - 52 - 28) _ _
                    ltac:(lia) ltac:(lia) ltac:(lia) ltac:(lia) Hx Hy) as Hsum.
      eapply posNormal_weaken; [| |exact Hsum]; lia.
Qed.

Lemma Seconds_gtb (d : Duration) :
  GoInt.minInt <= d <= GoInt.maxInt ->
  0 < d -> gtb (Seconds d) zero = true.
Proof.
  intros Hr Hd. eapply posNormal_gtb, Seconds_normal. lia.
Qed.
End SecondsFacts.

Section BucketEarned.
Import Float64 GoTime Main.
Context `{Arch}.

(** The tokens earned over a non-negative elapsed time, at a rate below
    [2 ^ 20] per second: the product is a number, its integer part is in
    range on every architecture, and it is below [2 ^ 59]. *)
Lemma tokensToAdd_moderate (elapsed : Duration) (rate : Z) :
  0 <= elapsed <= GoInt.maxInt -> 0 <= rate < 2 ^ 20 ->
  0 <= tokensToAdd elapsed rate < 2 ^ 59.
Proof.
  intros He Hr.
  destruct (Z.eq_dec elapsed 0) as [->|He0].
  { rewrite tokensToAdd_0 by (unfold GoInt.minInt, GoInt.maxInt; lia). lia. }
  pose proof (Seconds_normal elapsed ltac:(lia)) as Hs.
  unfold tokensToAdd.
  destruct (Z.eq_dec rate 0) as [->|Hr0].
  { destruct Hs as (m & e & -> & _).
    change (mul (S754_finite false m e) (of_int 0)) with (S754_zero false).
    rewrite to_int_zero. lia. }
  pose proof (of_int_normal 20 rate ltac:(lia) ltac:(lia)) as Hx.
  pose proof (mul_normal (-82) (-16) (-52) (20 - 52) _ _
                ltac:(lia) ltac:(lia) ltac:(lia) ltac:(lia) Hs Hx) as Hm.
  destruct (trunc_normal _ 6 _ ltac:(lia)
              (posNormal_weaken (-82 + -52 + 52) (-16 + (20 - 52) + 54) (-82) 6 _
                 ltac:(lia) ltac:(lia) Hm))
    as (z & Hz & Hb).
  change (53 + 6) with 59 in Hb.
  unfold to_int. rewrite Hz.
  replace (GoInt.inRange z) with true; [exact Hb|].
  symmetry. unfold GoInt.inRange, GoInt.minInt, GoInt.maxInt.
  apply andb_true_intro. split; apply Z.leb_le; lia.
Qed.
End BucketEarned.


(** ** The token bucket *)

Section Bucket.
Import GoInt GoTime Main.
Context `{Arch}.

Lemma min_le_r (a b : Z) : min a b <= b.
Proof. unfold min. destruct (Z.ltb_spec a b); lia. Qed.

Lemma min_le_l (a b : Z) : min a b <= a.
Proof. unfold min. destruct (Z.ltb_spec a b); lia. Qed.

Lemma min_eq (a b : Z) : min a b = Z.min a b.
Proof. unfold min. destruct (Z.ltb_spec a b); lia. Qed.

Lemma Sub_same (t : Time) : Sub t t = 0.
Proof. unfold Sub. rewrite Z.sub_diag. reflexivity. Qed.

Lemma Sub_nonneg (t u : Time) : u <= t -> 0 <= Sub t u <= maxInt.
Proof. intros Hle. unfold Sub, clamp, minInt, maxInt. lia. Qed.

Lemma refill_fields (rl : RateLimiter) (now : Time) :
  rate (refill rl now) = rate rl /\ burst (refill rl now) = burst rl /\
  lastUpdate (refill rl now) = now.
Proof. now unfold refill. Qed.

Lemma consume_fields (rl : RateLimiter) :
  rate (snd (consume rl)) = rate rl /\ burst (snd (consume rl)) = burst rl /\
  lastUpdate (snd (consume rl)) = lastUpdate rl.
Proof. unfold consume. now destruct (0 <? tokens rl). Qed.

Lemma Allow_fields (rl : RateLimiter) (now : Time) :
  rate (snd (Allow rl now)) = rate rl /\ burst (snd (Allow rl now)) = burst rl /\
  lastUpdate (snd (Allow rl now)) = now.
Proof.
  unfold Allow.
  destruct (consume_fields (refill rl now)) as (-> & -> & ->).
  apply refill_fields.
Qed.

Lemma refill_tokens_le_burst (rl : RateLimiter) (now : Time) :
  tokens (refill rl now) <= burst rl.
Proof. apply min_le_r. Qed.

Lemma refill_tokens_le_maxInt (rl : RateLimiter) (now : Time) :
  tokens (refill rl now) <= maxInt.
Proof.
  unfold refill; simpl.
  etransitivity; [apply min_le_l|]. apply wrap_range.
Qed.

Lemma consume_true (rl : RateLimiter) :
  0 < tokens rl <= maxInt ->
  consume rl = (true, {| rate := rate rl; burst := burst rl;
                         tokens := tokens rl - 1;
                         lastUpdate := lastUpdate rl |}).
Proof.
  intros Ht. unfold consume, GoInt.sub.
  destruct (Z.ltb_spec 0 (tokens rl)); [|lia].
  rewrite wrap_small by (unfold minInt, maxInt in *; lia). reflexivity.
Qed.

Lemma consume_false (rl : RateLimiter) :
  tokens rl <= 0 -> consume rl = (false, rl).
Proof. intros Ht. unfold consume. destruct (Z.ltb_spec 0 (tokens rl)); [lia|reflexivity]. Qed.

(** The tokens never exceed [burst] after a call, whatever the state
    before it, the reading of the clock and the number of tokens the
    conversion of the elapsed time gives. *)
Lemma Allow_tokens_le_burst (rl : RateLimiter) (now : Time) :
  tokens (snd (Allow rl now)) <= burst rl.
Proof.
  unfold Allow.
  pose proof (refill_tokens_le_burst rl now) as Hb.
  pose proof (refill_tokens_le_maxInt rl now) as Hm.
  destruct (Z_lt_le_dec 0 (tokens (refill rl now))) as [Hpos|Hneg].
  - rewrite consume_true by lia. cbn [snd tokens]. lia.
  - rewrite consume_false by lia. cbn [snd]. lia.
Qed.

(** With no time elapsed a call is the second half alone. *)
Lemma refill_no_elapse (rl : RateLimiter) :
  minInt <= rate rl <= maxInt -> minInt <= tokens rl -> tokens rl <= burst rl ->
  tokens rl <= maxInt ->
  refill rl (lastUpdate rl) = rl.
Proof.
  intros Hr Ht0 Htb Htm. unfold refill.
  rewrite Sub_same, tokensToAdd_0 by assumption.
  unfold GoInt.add. rewrite Z.add_0_r, wrap_small by lia.
  unfold min. destruct (Z.ltb_spec (tokens rl) (burst rl)); destruct rl; simpl in *; f_equal; lia.
Qed.

Lemma AllowAll_no_elapse (n : nat) (rl : RateLimiter) :
  minInt <= rate rl <= maxInt -> burst rl <= maxInt ->
  tokens rl = Z.of_nat n -> tokens rl <= burst rl ->
  AllowAll rl (repeat (lastUpdate rl) (S n)) =
    (repeat true n ++ [false],
     {| rate := rate rl; burst := burst rl; tokens := 0;
        lastUpdate := lastUpdate rl |}).
Proof.
  revert rl. induction n as [|n IH]; intros rl Hr Hb Ht Htb.
  - simpl. unfold Allow.
    rewrite refill_no_elapse by (unfold minInt in *; lia).
    rewrite consume_false by lia. destruct rl; simpl in *; subst; reflexivity.
  - change (repeat (lastUpdate rl) (S (S n)))
      with (lastUpdate rl :: repeat (lastUpdate rl) (S n)).
    cbn [AllowAll]. unfold Allow.
    rewrite refill_no_elapse by (unfold minInt in *; lia).
    rewrite consume_true by lia.
    set (rl' := {| rate := rate rl; burst := burst rl; tokens := tokens rl - 1;
                   lastUpdate := lastUpdate rl |}).
    change (lastUpdate rl) with (lastUpdate rl').
    rewrite (IH rl') by (subst rl'; simpl; lia).
    reflexivity.
Qed.

Lemma AllowAll_tokens_le_burst_gen (clock : list Time) (rl : RateLimiter) :
  tokens rl <= burst rl -> tokens (snd (AllowAll rl clock)) <= burst rl.
Proof.
  revert rl. induction clock as [|now clock IH]; intros rl Hrl; [exact Hrl|].
  cbn [AllowAll].
  pose proof (Allow_tokens_le_burst rl now) as Hle.
  destruct (Allow_fields rl now) as (_ & Hb & _).
  destruct (Allow rl now) as [ok rl']. cbn [snd] in *.
  specialize (IH rl'). destruct (AllowAll rl' clock) as [oks rl''].
  cbn [snd] in *. rewrite <- Hb. apply IH. lia.
Qed.

(** What a call does when the addition of the earned tokens stays
    within [int]. *)
Lemma Allow_in_range (rl : RateLimiter) (now : Time) :
  let earned := tokensToAdd (Sub now (lastUpdate rl)) (rate rl) in
  let available := Z.min (tokens rl + earned) (burst rl) in
  minInt <= tokens rl + earned <= maxInt ->
  Allow rl now =
    if 0 <? available
    then (true, {| rate := rate rl; burst := burst rl;
                   tokens := available - 1; lastUpdate := now |})
    else (false, {| rate := rate rl; burst := burst rl;
                    tokens := available; lastUpdate := now |}).
Proof.
  intros earned available Hsum. unfold Allow.
  assert (Ht : tokens (refill rl now) = available).
  { unfold refill; cbn [tokens]. fold earned. unfold GoInt.add.
    rewrite wrap_small by assumption. apply min_eq. }
  destruct (Z.ltb_spec 0 available) as [Hpos|Hneg].
  - rewrite consume_true by (rewrite Ht; unfold available; lia).
    rewrite Ht. reflexivity.
  - rewrite consume_false by lia. rewrite <- Ht. reflexivity.
Qed.

(** C2 (burst admission).  A bucket created with rate [r > 0] and
    capacity [C > 0] and called [C + 1] times at the instant of its
    creation answers [true] to the first [C] calls and [false] to the
    [(C+1)]-th. *)
Theorem burst_admission (r C : Z) (t0 : Time) :
  0 < r <= maxInt -> 0 < C <= maxInt ->
  fst (AllowAll (NewRateLimiter r C t0) (repeat t0 (S (Z.to_nat C))))
  = repeat true (Z.to_nat C) ++ [false].
Proof.
  intros Hr HC.
  pose proof (AllowAll_no_elapse (Z.to_nat C) (NewRateLimiter r C t0)) as Hrun.
  cbn [NewRateLimiter rate burst tokens lastUpdate] in Hrun.
  rewrite Hrun; [reflexivity|unfold minInt; lia|lia|lia|lia].
Qed.

(** Tokens never exceed the capacity: after any run of calls on a new
    bucket, at any readings of the clock, [tokens <= burst]. *)
Theorem tokens_never_exceed_burst (r b : Z) (t0 : Time) (clock : list Time) :
  tokens (snd (AllowAll (NewRateLimiter r b t0) clock)) <= b.
Proof.
  apply (AllowAll_tokens_le_burst_gen clock (NewRateLimiter r b t0)).
  reflexivity.
Qed.


(** The contract of [Allow] where the addition of the earned tokens does
    not overflow: on a bucket with [0 <= tokens <= burst] that earns
    [earned >= 0] tokens, with [tokens + earned] an [int], the call
    answers [true] and leaves one token less than
    [min (tokens + earned) burst] when that is at least one; else it
    answers [false], and the tokens were zero and stay zero. *)
Theorem Allow_contract_in_range (rl : RateLimiter) (now : Time) :
  let earned := tokensToAdd (Sub now (lastUpdate rl)) (rate rl) in
  let available := Z.min (tokens rl + earned) (burst rl) in
  0 <= tokens rl <= burst rl -> 0 <= earned -> tokens rl + earned <= maxInt ->
  (1 <= available ->
   Allow rl now = (true, {| rate := rate rl; burst := burst rl;
                            tokens := available - 1; lastUpdate := now |})) /\
  (available < 1 ->
   tokens rl = 0 /\
   Allow rl now = (false, {| rate := rate rl; burst := burst rl;
                             tokens := 0; lastUpdate := now |})).
Proof.
  intros earned available Ht He Hsum.
  pose proof (Allow_in_range rl now) as Hrun. cbv zeta in Hrun.
  fold earned in Hrun. fold available in Hrun.
  rewrite Hrun by (unfold minInt; lia). clear Hrun.
  split; intros Hav.
  - destruct (Z.ltb_spec 0 available); [reflexivity|lia].
  - destruct (Z.ltb_spec 0 available); [lia|].
    assert (available = 0) by (unfold available in *; lia).
    split; [unfold available in *; lia|congruence].
Qed.

(** The token bounds where no addition overflows: if at every call of a
    run the tokens earned are non-negative and [burst] plus them is an
    [int], the tokens stay within [[0, burst]]. *)
Theorem tokens_bounds_in_range (clock : list Time) (rl : RateLimiter) :
  0 <= tokens rl <= burst rl ->
  noOverflow (rate rl) (burst rl) (lastUpdate rl) clock ->
  0 <= tokens (snd (AllowAll rl clock)) <= burst rl.
Proof.
  revert rl. induction clock as [|now clock IH]; intros rl Hrl Hsafe; [exact Hrl|].
  cbn [AllowAll]. destruct Hsafe as (He & Hsum & Hsafe).
  pose proof (Allow_in_range rl now) as Hrun. cbv zeta in Hrun.
  rewrite Hrun by (unfold minInt; lia). clear Hrun.
  set (available := Z.min _ _).
  assert (Hav : 0 <= available <= burst rl) by (unfold available; lia).
  destruct (Z.ltb_spec 0 available) as [Hpos|Hneg];
    match goal with |- context [AllowAll ?rl' clock] => specialize (IH rl') end;
    cbn [rate burst tokens lastUpdate] in IH;
    destruct (AllowAll _ clock) as [oks rl'']; cbn [snd] in *; apply IH;
    (lia || assumption).
Qed.

(** The token bounds for parameters of ordinary size, on a clock that
    does not run backwards: with a rate below [2 ^ 20] tokens per second
    and a capacity of at most [2 ^ 62], no addition of earned tokens
    overflows, and the tokens stay within [[0, burst]] whatever the
    times of the calls. *)
Theorem tokens_bounds_moderate (clock : list Time) (rl : RateLimiter) :
  0 <= rate rl < 2 ^ 20 -> burst rl <= 2 ^ 62 ->
  0 <= tokens rl <= burst rl ->
  nondecreasing (lastUpdate rl) clock ->
  0 <= tokens (snd (AllowAll rl clock)) <= burst rl.
Proof.
  revert rl. induction clock as [|now clock IH]; intros rl Hr Hb Hrl Hclock;
    [exact Hrl|].
  cbn [AllowAll]. destruct Hclock as (Hnow & Hclock).
  pose proof (tokensToAdd_moderate (Sub now (lastUpdate rl)) (rate rl)
                (Sub_nonneg _ _ Hnow) Hr) as He.
  pose proof (Allow_in_range rl now) as Hrun. cbv zeta in Hrun.
  rewrite Hrun by (unfold minInt, maxInt; lia). clear Hrun.
  set (available := Z.min _ _).
  assert (Hav : 0 <= available <= burst rl) by (unfold available; lia).
  destruct (Z.ltb_spec 0 available) as [Hpos|Hneg];
    match goal with |- context [AllowAll ?rl' clock] => specialize (IH rl') end;
    cbn [rate burst tokens lastUpdate] in IH;
    destruct (AllowAll _ clock) as [oks rl'']; cbn [snd] in *; apply IH;
    (lia || assumption).
Qed.

(** C1 (contract of [Allow]), at an input where the addition of the
    earned tokens overflows.  A new bucket of capacity [maxInt] is full;
    called one second after its creation, at one token per second,
    [tokens + tokensToAdd] wraps around to [minInt]: the call answers
    [false] and leaves [minInt] tokens, where the contract asks for
    [true] and one token less than the capacity. *)
Theorem Allow_overflow_denies :
  Allow (NewRateLimiter 1 maxInt 0) 1000000000
  = (false, {| rate := 1; burst := maxInt; tokens := minInt;
               lastUpdate := 1000000000 |}).
Proof. reflexivity. Qed.

(** C3 (token bounds), at an input where the addition of the earned
    tokens overflows.  A bucket of capacity [maxInt] and rate 1, called
    at its creation and two seconds later, ends with [minInt] tokens:
    below zero. *)
Theorem AllowAll_overflow_negative :
  AllowAll (NewRateLimiter 1 maxInt 0) [0; 2000000000]
  = ([true; false], {| rate := 1; burst := maxInt; tokens := minInt;
                       lastUpdate := 2000000000 |})
  /\ minInt < 0.
Proof. split; reflexivity. Qed.

(** A call that earns no whole token leaves the tokens as they are and
    moves [lastUpdate] to the present. *)
Lemma refill_nothing_earned (rl : RateLimiter) (now : Time) :
  tokensToAdd (Sub now (lastUpdate rl)) (rate rl) = 0 ->
  minInt <= tokens rl <= maxInt -> tokens rl <= burst rl ->
  refill rl now = {| rate := rate rl; burst := burst rl; tokens := tokens rl;
                     lastUpdate := now |}.
Proof.
  intros Hadd Ht Hb. unfold refill. rewrite Hadd.
  unfold GoInt.add. rewrite Z.add_0_r, wrap_small by assumption.
  rewrite min_eq. f_equal. lia.
Qed.

(** C5 (fractional accumulation), as amended.  The token count is an
    integer.  A call that finds less than one whole token earned since
    [lastUpdate] adds nothing and still moves [lastUpdate] to the
    present, so the fraction of a token earned up to the call is
    dropped; on a drained bucket such a call is denied. *)
Theorem refill_drops_fraction (rl : RateLimiter) (now : Time) :
  tokensToAdd (Sub now (lastUpdate rl)) (rate rl) = 0 ->
  minInt <= tokens rl <= maxInt -> tokens rl <= burst rl ->
  refill rl now = {| rate := rate rl; burst := burst rl; tokens := tokens rl;
                     lastUpdate := now |} /\
  (tokens rl = 0 ->
   Allow rl now = (false, {| rate := rate rl; burst := burst rl; tokens := 0;
                             lastUpdate := now |})).
Proof.
  intros Hadd Ht Hb.
  pose proof (refill_nothing_earned rl now Hadd Ht Hb) as Hre.
  split; [exact Hre|].
  intros Hzero. unfold Allow. rewrite Hre, Hzero. reflexivity.
Qed.

Lemma Sub_add (t : Time) (d : Duration) : minInt <= d <= maxInt -> Sub (t + d) t = d.
Proof. intros Hd. unfold Sub. replace (t + d - t) with d by lia. now apply clamp_small. Qed.

(** Under-delivery.  A drained bucket of rate one token per second that
    is polled every half second never admits a call: each call drops
    the half token earned since the one before. *)
Theorem half_second_polling_starves (n : nat) (b : Z) (t : Time) :
  0 <= b ->
  fst (AllowAll {| rate := 1; burst := b; tokens := 0; lastUpdate := t |}
                (every 500000000 t n))
  = repeat false n.
Proof.
  intros Hb. revert t. induction n as [|n IH]; intros t; [reflexivity|].
  cbn [every AllowAll]. unfold Allow.
  rewrite refill_nothing_earned; cbn [rate burst tokens lastUpdate];
    [|rewrite Sub_add by (unfold minInt, maxInt; lia); reflexivity
     |unfold minInt, maxInt; lia|lia].
  rewrite consume_false by (cbn [tokens]; lia).
  specialize (IH (t + 500000000)).
  destruct (AllowAll _ (every 500000000 (t + 500000000) n)) as [oks rl'].
  cbn [fst] in *. now rewrite IH.
Qed.

Lemma retryDelay_pos (rl : RateLimiter) :
  0 < rate rl <= maxInt -> retryDelay rl = Some (1000 / rate rl * Millisecond).
Proof.
  intros Hr. unfold retryDelay, quo, GoInt.mul, Millisecond.
  destruct (Z.eqb_spec (rate rl) 0); [lia|].
  rewrite Z.quot_div_nonneg by lia.
  assert (0 <= 1000 / rate rl <= 1000).
  { split; [apply Z.div_pos; lia|].
    apply Z.div_le_upper_bound; nia. }
  rewrite (wrap_small (1000 / rate rl)) by (unfold minInt, maxInt; lia).
  rewrite wrap_small by (unfold minInt, maxInt; lia). reflexivity.
Qed.

(** C6 (retry delay).  For a positive rate every [time.Sleep] of [Wait]
    gets [1000 / rate] milliseconds, the quotient truncated to an
    integer; for a rate above 1000 that is zero.  [Wait] does not panic. *)
Theorem Wait_retry_delay (clock : list Time) (rl : RateLimiter) :
  0 < rate rl <= maxInt ->
  Forall (fun d => d = 1000 / rate rl * Millisecond) (snd (Wait rl clock)) /\
  (1000 < rate rl -> Forall (fun d => d = 0) (snd (Wait rl clock))) /\
  (forall rl', fst (Wait rl clock) <> Panicked rl').
Proof.
  intros Hr.
  assert (Hmain : Forall (fun d => d = 1000 / rate rl * Millisecond)
                    (snd (Wait rl clock)) /\
                  (forall rl', fst (Wait rl clock) <> Panicked rl')).
  { revert rl Hr. induction clock as [|now clock IH]; intros rl Hr.
    - split; [constructor|discriminate].
    - cbn [Wait]. destruct (Allow_fields rl now) as (Hrate & _ & _).
      destruct (Allow rl now) as [[|] rl1]; cbn [snd] in Hrate.
      + split; [constructor|discriminate].
      + rewrite retryDelay_pos by (rewrite Hrate; exact Hr).
        specialize (IH rl1). rewrite Hrate in IH. specialize (IH Hr).
        destruct (Wait rl1 clock) as [res ds]. cbn [fst snd] in *.
        destruct IH as [IHd IHp].
        split; [constructor; [now rewrite Hrate|exact IHd]|exact IHp]. }
  destruct Hmain as [Hd Hp]. split; [exact Hd|split; [|exact Hp]].
  intros Hbig. eapply Forall_impl; [exact Hd|].
  intros d ->. rewrite Z.div_small by lia. reflexivity.
Qed.
End Bucket.

(** The theorems of the bucket at concrete inputs. *)

Lemma burst_admission_witness :
  (0 < 10 <= GoInt.maxInt) /\ (0 < 20 <= GoInt.maxInt) /\
  fst (@Main.AllowAll amd64 (Main.NewRateLimiter 10 20 0) (repeat 0 (S (Z.to_nat 20))))
  = repeat true (Z.to_nat 20) ++ [false].
Proof.
  assert (H10 : 0 < 10 <= GoInt.maxInt) by (unfold GoInt.maxInt; lia).
  assert (H20 : 0 < 20 <= GoInt.maxInt) by (unfold GoInt.maxInt; lia).
  split; [exact H10|split; [exact H20|]].
  exact (@burst_admission amd64 10 20 0 H10 H20).
Defined.

Lemma Allow_contract_in_range_witness :
  @Main.Allow amd64 {| Main.rate := 10; Main.burst := 20; Main.tokens := 3;
                       Main.lastUpdate := 0 |} 1000000000
  = (true, {| Main.rate := 10; Main.burst := 20; Main.tokens := 12;
              Main.lastUpdate := 1000000000 |}).
Proof.
  refine (proj1 (@Allow_contract_in_range amd64
                   {| Main.rate := 10; Main.burst := 20; Main.tokens := 3;
                      Main.lastUpdate := 0 |} 1000000000 _ _ _) _);
    vm_compute; intuition discriminate.
Defined.

Lemma tokens_bounds_in_range_witness :
  0 <= Main.tokens
         (snd (@Main.AllowAll amd64 (Main.NewRateLimiter 10 20 0)
                 [0; 500000000; 3000000000])) <= 20.
Proof.
  apply (@tokens_bounds_in_range amd64 [0; 500000000; 3000000000]
           (Main.NewRateLimiter 10 20 0));
    vm_compute; intuition discriminate.
Defined.

Lemma tokens_bounds_moderate_witness :
  0 <= Main.tokens
         (snd (@Main.AllowAll arm64 (Main.NewRateLimiter 1000 5000 0)
                 [0; 1; 250000000; 86400000000000])) <= 5000.
Proof.
  apply (@tokens_bounds_moderate arm64 [0; 1; 250000000; 86400000000000]
           (Main.NewRateLimiter 1000 5000 0));
    vm_compute; intuition discriminate.
Defined.

Lemma half_second_polling_starves_witness :
  fst (@Main.AllowAll amd64
         {| Main.rate := 1; Main.burst := 1; Main.tokens := 0; Main.lastUpdate := 0 |}
         (Main.every 500000000 0 4))
  = [false; false; false; false].
Proof.
  apply (@half_second_polling_starves amd64 4 1 0). lia.
Defined.

(** C5 as stated fails.  At one token per second, a drained bucket
    called after half a second and again after a full second has earned
    one whole token in two halves; the code credits none, while one call
    after the full second credits it. *)
Lemma fraction_is_lost :
  let rl := {| Main.rate := 1; Main.burst := 10; Main.tokens := 0;
               Main.lastUpdate := 0 |} in
  ~ @Main.retainsFractions amd64 rl 500000000 1000000000 /\
  fst (@Main.AllowAll amd64 rl [500000000; 1000000000]) = [false; false] /\
  fst (@Main.Allow amd64 rl 1000000000) = true.
Proof.
  cbv zeta. split; [|split; reflexivity].
  unfold Main.retainsFractions. vm_compute. discriminate.
Defined.

Lemma refill_drops_fraction_witness :
  @Main.refill amd64 {| Main.rate := 1; Main.burst := 10; Main.tokens := 0;
                        Main.lastUpdate := 0 |} 500000000
  = {| Main.rate := 1; Main.burst := 10; Main.tokens := 0;
       Main.lastUpdate := 500000000 |}.
Proof.
  refine (proj1 (@refill_drops_fraction amd64
                   {| Main.rate := 1; Main.burst := 10; Main.tokens := 0;
                      Main.lastUpdate := 0 |} 500000000 _ _ _));
    vm_compute; intuition discriminate.
Defined.

Lemma Wait_retry_delay_witness :
  let rl := {| Main.rate := 2000; Main.burst := 1; Main.tokens := 0;
               Main.lastUpdate := 0 |} in
  snd (@Main.Wait amd64 rl [0; 0; 0]) = [0; 0; 0] /\
  Forall (fun d => d = 0) (snd (@Main.Wait amd64 rl [0; 0; 0])).
Proof.
  cbv zeta. split; [reflexivity|].
  refine (proj1 (proj2 (@Wait_retry_delay amd64 [0; 0; 0]
                          {| Main.rate := 2000; Main.burst := 1; Main.tokens := 0;
                             Main.lastUpdate := 0 |} _)) _);
    vm_compute; intuition discriminate.
Defined.

(** ** The statistics collector *)

Section StatsFacts.
Import GoInt GoTime Stats.

Lemma wrap_add_l (a b : Z) : wrap (wrap a + b) = wrap (a + b).
Proof.
  destruct (wrap_congr a) as [k ->].
  replace (a + k * 2 ^ 64 + b) with (a + b + k * 2 ^ 64) by lia.
  apply wrap_shift.
Qed.

Lemma wrap_succ_neq (a : Z) : wrap (a + 1) <> a.
Proof. destruct (wrap_congr (a + 1)) as [k ->]. lia. Qed.

Lemma NewStats_consistent (now : Time) : consistent (NewStats now).
Proof. reflexivity. Qed.

Lemma call_consistent (s : Stats) (c : Call) : consistent s -> consistent (call s c).
Proof.
  unfold consistent. intros Hs.
  destruct c as [now|now|now]; cbn [call RecordAllowed RecordDenied Reset
    TotalRequests AllowedRequests DeniedRequests]; [| |reflexivity];
    rewrite Hs; unfold GoInt.add; rewrite wrap_add_l.
  - rewrite wrap_add_l. f_equal. lia.
  - rewrite (Z.add_comm (AllowedRequests s) (wrap _)), wrap_add_l. f_equal. lia.
Qed.

Lemma calls_consistent (cs : list Call) (s : Stats) :
  consistent s -> consistent (calls s cs).
Proof.
  revert s. induction cs as [|c cs IH]; intros s Hs; [exact Hs|].
  apply IH, call_consistent, Hs.
Qed.

Lemma call_exact (room : Z) (s : Stats) (c : Call) :
  0 <= room -> exact (room + 1) s -> exact room (call s c).
Proof.
  unfold exact. intros Hroom (Ha & Hd & Ht & Hm).
  destruct c as [now|now|now]; cbn [call RecordAllowed RecordDenied Reset
    TotalRequests AllowedRequests DeniedRequests]; unfold GoInt.add.
  - rewrite !wrap_small by (unfold minInt, maxInt in *; lia). lia.
  - rewrite !wrap_small by (unfold minInt, maxInt in *; lia). lia.
  - lia.
Qed.

Lemma calls_exact (cs : list Call) (s : Stats) (room : Z) :
  0 <= room -> exact (room + Z.of_nat (length cs)) s -> exact room (calls s cs).
Proof.
  revert s. induction cs as [|c cs IH]; intros s Hroom Hs.
  - simpl in Hs. now rewrite Z.add_0_r in Hs.
  - cbn [calls fold_left]. apply IH; [exact Hroom|].
    apply call_exact; [lia|].
    replace (room + Z.of_nat (length cs) + 1)
      with (room + Z.of_nat (length (c :: cs))) by (cbn [length]; lia).
    exact Hs.
Qed.

(** C7 (consistency of the counters).  After any run of
    [RecordAllowed], [RecordDenied] and [Reset] on new statistics,
    [TotalRequests == AllowedRequests + DeniedRequests] holds as Go
    evaluates it, and as an equation between integers while fewer than
    [2 ^ 63] calls were made; [RecordAllowed] adds one to the total and
    to the allowed count, [RecordDenied] to the total and to the denied
    count, and neither touches the third counter. *)
Theorem stats_consistency (t0 : Time) (cs : list Call) :
  let s := calls (NewStats t0) cs in
  TotalRequests s = GoInt.add (AllowedRequests s) (DeniedRequests s) /\
  (Z.of_nat (length cs) <= maxInt ->
   TotalRequests s = AllowedRequests s + DeniedRequests s) /\
  (forall s' now,
      TotalRequests (RecordAllowed s' now) = GoInt.add (TotalRequests s') 1 /\
      AllowedRequests (RecordAllowed s' now) = GoInt.add (AllowedRequests s') 1 /\
      DeniedRequests (RecordAllowed s' now) = DeniedRequests s') /\
  (forall s' now,
      TotalRequests (RecordDenied s' now) = GoInt.add (TotalRequests s') 1 /\
      DeniedRequests (RecordDenied s' now) = GoInt.add (DeniedRequests s') 1 /\
      AllowedRequests (RecordDenied s' now) = AllowedRequests s').
Proof.
  cbv zeta. split; [|split; [|split; intros; repeat split]].
  - apply calls_consistent, NewStats_consistent.
  - intros Hlen.
    apply (calls_exact cs (NewStats t0) 0); [lia|].
    unfold exact. cbn [NewStats TotalRequests AllowedRequests DeniedRequests]. lia.
Qed.

Lemma Record_differ (s : Stats) (now : Time) : RecordAllowed s now <> RecordDenied s now.
Proof.
  intros Heq. apply (f_equal AllowedRequests) in Heq.
  cbn [RecordAllowed RecordDenied AllowedRequests] in Heq.
  now apply wrap_succ_neq in Heq.
Qed.
End StatsFacts.

Section Decorator.
Import GoTime Stats.
Context {L : Type} `{RateLimiter L}.

(** C9 (the decorator does not interfere).  [RateLimiterWithStats.Allow]
    answers what the wrapped limiter's [Allow] answers, leaves the
    wrapped limiter in the state a direct call leaves it in, and records
    an allowed request exactly when the answer is [true] and a denied
    one exactly when it is [false]. *)
Theorem AllowWithStats_transparent (r : RateLimiterWithStats L) (now now' : Time) :
  let direct := Allow (limiter r) now in
  let wrapped := AllowWithStats r now now' in
  fst wrapped = fst direct /\
  limiter (snd wrapped) = snd direct /\
  (fst direct = true <-> stats (snd wrapped) = RecordAllowed (stats r) now') /\
  (fst direct = false <-> stats (snd wrapped) = RecordDenied (stats r) now').
Proof.
  cbv zeta. unfold AllowWithStats.
  pose proof (Record_differ (stats r) now') as Hne.
  destruct (Allow (limiter r) now) as [[|] l']; cbn [fst snd limiter stats];
    repeat split; try reflexivity; try discriminate; intros Heq;
    try (exfalso; apply Hne; congruence).
Qed.
End Decorator.

(** ** The snapshot *)

Section SnapshotFacts.
Import Float64 GoTime Stats.

Lemma snapshotDuration_range (s : Stats) (now : Time) :
  GoInt.minInt <= snapshotDuration s now <= GoInt.maxInt.
Proof.
  unfold snapshotDuration, Since, Sub.
  destruct (After (LastRequestTime s) (StartTime s)); apply clamp_range.
Qed.

(** C8 (derived fields of a snapshot), as amended.  The duration is
    [lastActivity - startTime] when the last activity is after the start
    (which is then [max(0, lastActivity - startTime)]), and the time
    elapsed since the start otherwise: when no request was recorded
    since the start or the reset, and also when the last one bears the
    very time of the start.  [Rate] is [allowed / duration.Seconds()] for a positive
    duration and 0 for a duration of 0; [AcceptanceRatio] is
    [allowed / total], and 0 when the total is 0.  The counters and the
    two times are copied. *)
Theorem GetSnapshot_derived (s : Stats) (now : Time) :
  let snap := GetSnapshot s now in
  let duration := Snapshot.Duration snap in
  (StartTime s < LastRequestTime s ->
   duration = Sub (LastRequestTime s) (StartTime s) /\
   (LastRequestTime s - StartTime s <= GoInt.maxInt ->
    duration = Z.max 0 (LastRequestTime s - StartTime s))) /\
  (LastRequestTime s <= StartTime s -> duration = Since now (StartTime s)) /\
  (forall t0 s0,
      zeroTime <= t0 ->
      Snapshot.Duration (GetSnapshot (NewStats t0) now) = Since now t0 /\
      Snapshot.Duration (GetSnapshot (Reset s0 t0) now) = Since now t0) /\
  (0 < duration ->
   Snapshot.Rate snap = div (of_int (AllowedRequests s)) (Seconds duration)) /\
  (duration = 0 -> Snapshot.Rate snap = zero) /\
  (TotalRequests s <> 0 ->
   Snapshot.AcceptanceRatio snap
   = div (of_int (AllowedRequests s)) (of_int (TotalRequests s))) /\
  (TotalRequests s = 0 -> Snapshot.AcceptanceRatio snap = zero) /\
  Snapshot.TotalRequests snap = TotalRequests s /\
  Snapshot.AllowedRequests snap = AllowedRequests s /\
  Snapshot.DeniedRequests snap = DeniedRequests s /\
  Snapshot.StartTime snap = StartTime s /\
  Snapshot.LastRequestTime snap = LastRequestTime s.
Proof.
  cbv zeta. cbn [GetSnapshot Snapshot.Duration Snapshot.Rate Snapshot.AcceptanceRatio
                 Snapshot.TotalRequests Snapshot.AllowedRequests
                 Snapshot.DeniedRequests Snapshot.StartTime Snapshot.LastRequestTime].
  pose proof (snapshotDuration_range s now) as Hrange.
  repeat split.
  - unfold snapshotDuration, After. destruct (Z.ltb_spec (StartTime s) (LastRequestTime s)); [reflexivity|lia].
  - intros Hfit. unfold snapshotDuration, After, Sub.
    destruct (Z.ltb_spec (StartTime s) (LastRequestTime s)); [|lia].
    rewrite clamp_small by (unfold GoInt.minInt; lia). lia.
  - intros Hle. unfold snapshotDuration, After.
    destruct (Z.ltb_spec (StartTime s) (LastRequestTime s)); [lia|reflexivity].
  - unfold snapshotDuration. cbn [NewStats StartTime LastRequestTime].
    unfold After, zeroTime in *. destruct (Z.ltb_spec t0 0); [lia|reflexivity].
  - unfold snapshotDuration. cbn [Reset StartTime LastRequestTime].
    unfold After, zeroTime in *. destruct (Z.ltb_spec t0 0); [lia|reflexivity].
  - intros Hpos. unfold snapshotRate. now rewrite Seconds_gtb.
  - intros Hzero. unfold snapshotRate. now rewrite Hzero.
  - intros Htot. unfold calculateAcceptanceRatio.
    destruct (Z.eqb_spec (TotalRequests s) 0); [contradiction|reflexivity].
  - intros Htot. unfold calculateAcceptanceRatio. now rewrite Htot.
Qed.

(** C8 as stated fails.  A request recorded at the very reading of the
    clock at which the statistics were created: one event has been
    recorded and [max(0, lastActivity - startTime)] is 0, but the snapshot
    taken 500 ns later has a duration of 500 ns, and a rate of 2000000
    requests per second where the claim has 0. *)
Lemma snapshot_of_same_instant :
  let s := RecordAllowed (NewStats 1000) 1000 in
  let snap := GetSnapshot s 1500 in
  TotalRequests s = 1 /\
  specDuration s 1500 = 0 /\
  Snapshot.Duration snap = 500 /\
  Snapshot.Duration snap <> specDuration s 1500 /\
  trunc (Snapshot.Rate snap) = Some 2000000.
Proof. cbv zeta. repeat split. vm_compute. discriminate. Qed.
End SnapshotFacts.

(** ** The per-key middleware *)

Section Registry.
Import GoTime Middleware.
Context {L F : Type} `{RateLimiter L}.

Abbreviation World := (World L F).
Abbreviation System := (System L F).

Implicit Types (w : World) (s : System) (g : Goroutine) (r : Request)
  (next : Handler) (now : Time).

Lemma LoadOrStore_present (m : gmap string loc) (key : string) (p c : loc) :
  m !! key = Some p -> LoadOrStore m key c = (p, true, m).
Proof. intros Hm. unfold LoadOrStore. now rewrite Hm. Qed.

(** Whatever [LoadOrStore] answers is what the registry then stores
    for the key, and no other entry changed. *)
Lemma LoadOrStore_stored (m : gmap string loc) (key : string) (c : loc) :
  let '(actual, _, m') := LoadOrStore m key c in
  m' !! key = Some actual /\
  (forall k p, m !! k = Some p -> m' !! k = Some p) /\
  (forall k p, m' !! k = Some p -> m !! k = Some p \/ (k = key /\ p = c)).
Proof.
  unfold LoadOrStore. destruct (m !! key) as [p|] eqn:Hm.
  - repeat split; auto.
  - split; [apply lookup_insert_eq|]. split.
    + intros k p Hk. rewrite lookup_insert_ne; [exact Hk|congruence].
    + intros k p. rewrite lookup_insert. case_decide; naive_solver.
Qed.

Lemma extends_refl w : extends w w.
Proof. unfold extends. naive_solver. Qed.

Lemma extends_trans w1 w2 w3 : extends w1 w2 -> extends w2 w3 -> extends w1 w3.
Proof.
  unfold extends. intros (-> & -> & -> & Hl1 & Hm1) (-> & -> & -> & Hl2 & Hm2).
  repeat split; auto; lia.
Qed.

Lemma callFactory_extends w : extends w (snd (callFactory w)).
Proof.
  unfold callFactory. destruct (limiterFactory (self w) (env w)) as [l e'].
  unfold extends; cbn [snd self heap]. rewrite length_app; cbn [length].
  repeat split; auto; lia.
Qed.

Lemma loadOrStore_extends w (key : string) (c : loc) :
  extends w (snd (loadOrStore w key c)).
Proof.
  unfold loadOrStore.
  pose proof (LoadOrStore_stored (limiters (self w)) key c) as Hst.
  destruct (LoadOrStore (limiters (self w)) key c) as [[actual loaded] m'].
  destruct Hst as (_ & Hmono & _).
  unfold extends; cbn [snd self heap limiterFactory keyFunc errorHandler limiters].
  repeat split; auto.
Qed.

Lemma allowAt_extends w (p : loc) now (ok : bool) w' :
  allowAt w p now = Some (ok, w') -> extends w w'.
Proof.
  unfold allowAt. destruct (heap w !! p) as [l|]; [|discriminate].
  destruct (Allow l now) as [ok' l']. intros [= <- <-].
  unfold extends; cbn [self heap]. rewrite length_insert. repeat split; auto.
Qed.

(** A step never removes or changes an entry of the registry. *)
Lemma stepGoroutine_extends next w g now :
  extends w (snd (stepGoroutine next w g now)).
Proof.
  destruct g as [r|r key c|r key p|r key p ok resp|]; cbn [stepGoroutine].
  - pose proof (callFactory_extends w) as He.
    destruct (callFactory w) as [c w']. exact He.
  - pose proof (loadOrStore_extends w key c) as He.
    destruct (loadOrStore w key c) as [[p loaded] w']. exact He.
  - destruct (allowAt w p now) as [[ok w']|] eqn:Ha; cbn [snd].
    + eapply allowAt_extends, Ha.
    + apply extends_refl.
  - apply extends_refl.
  - apply extends_refl.
Qed.

Lemma step_extends next s (i : nat) now : extends (world s) (world (step next s i now)).
Proof.
  unfold step. destruct (goroutines s !! i) as [g|]; [|apply extends_refl].
  pose proof (stepGoroutine_extends next (world s) g now) as He.
  destruct (stepGoroutine next (world s) g now) as [g' w']. exact He.
Qed.

Lemma run_extends next (sched : list (nat * Time)) s :
  extends (world s) (world (run next s sched)).
Proof.
  revert s. induction sched as [|[i now] sched IH]; intros s; [apply extends_refl|].
  cbn [run fold_left]. eapply extends_trans; [apply step_extends|apply IH].
Qed.

Lemma goroutineOk_extends w w' r g :
  extends w w' -> wfWorld w' -> goroutineOk w r g -> goroutineOk w' r g.
Proof.
  intros (_ & Hk & _ & Hl & Hm) Hwf.
  destruct g as [r1|r1 key c|r1 key p|r1 key p ok resp|]; cbn [goroutineOk];
    rewrite ?Hk; [auto| | | |auto].
  - intros (-> & -> & Hc). repeat split; lia.
  - intros (-> & -> & Hp). auto.
  - intros (-> & -> & Hp). auto.
Qed.

Lemma stepGoroutine_ok next w r g now :
  wfWorld w -> goroutineOk w r g ->
  wfWorld (snd (stepGoroutine next w g now)) /\
  goroutineOk (snd (stepGoroutine next w g now)) r (fst (stepGoroutine next w g now)).
Proof.
  intros Hwf Hg.
  destruct g as [r1|r1 key c|r1 key p|r1 key p ok resp|]; cbn [stepGoroutine goroutineOk] in *.
  - unfold callFactory. destruct (limiterFactory (self w) (env w)) as [l e'].
    cbn [fst snd goroutineOk self heap]. unfold wfWorld; cbn [self heap].
    rewrite length_app; cbn [length]. split; [|split; [auto|split; [auto|lia]]].
    intros k p Hk. specialize (Hwf k p Hk). lia.
  - destruct Hg as (-> & -> & Hc). unfold loadOrStore.
    pose proof (LoadOrStore_stored (limiters (self w)) (keyFunc (self w) r) c) as Hst.
    destruct (LoadOrStore (limiters (self w)) (keyFunc (self w) r) c) as [[actual loaded] m'].
    destruct Hst as (Hkey & _ & Hback).
    cbn [fst snd goroutineOk self heap keyFunc limiters]. unfold wfWorld; cbn [self heap limiters].
    split; [|auto].
    intros k p Hk. destruct (Hback k p Hk) as [Hold|[-> ->]]; [eapply Hwf, Hold|exact Hc].
  - destruct Hg as (-> & -> & Hp).
    pose proof (Hwf _ _ Hp) as Hlt. apply lookup_lt_is_Some in Hlt as [l Hl].
    unfold allowAt. rewrite Hl. destruct (Allow l now) as [ok l'].
    cbn [fst snd goroutineOk self heap]. unfold wfWorld; cbn [self heap].
    rewrite length_insert. auto.
  - auto.
  - auto.
Qed.

Lemma step_ok next (rs : list Request) s (i : nat) now :
  systemOk rs s -> systemOk rs (step next s i now).
Proof.
  intros [Hwf Hgs]. unfold step.
  destruct (goroutines s !! i) as [g|] eqn:Hi; [|now split].
  destruct (Forall2_lookup_r _ _ _ _ _ Hgs Hi) as (r & Hr & Hg).
  pose proof (stepGoroutine_ok next (world s) r g now Hwf Hg) as [Hwf' Hg'].
  pose proof (stepGoroutine_extends next (world s) g now) as Hext.
  destruct (stepGoroutine next (world s) g now) as [g' w']. cbn [fst snd] in *.
  split; [exact Hwf'|]. cbn [world goroutines].
  rewrite <- (list_insert_id rs i r Hr).
  apply Forall2_insert; [|exact Hg'].
  eapply Forall2_impl; [exact Hgs|].
  intros r1 g1. now apply goroutineOk_extends.
Qed.

Lemma run_ok next (rs : list Request) (sched : list (nat * Time)) s :
  systemOk rs s -> systemOk rs (run next s sched).
Proof.
  revert s. induction sched as [|[i now] sched IH]; intros s Hs; [exact Hs|].
  cbn [run fold_left]. apply IH, step_ok, Hs.
Qed.

Lemma start_ok w (rs : list Request) : wfWorld w -> systemOk rs (start w rs).
Proof.
  intros Hwf. split; [exact Hwf|]. cbn [start world goroutines].
  induction rs as [|r rs IH]; constructor; [reflexivity|exact IH].
Qed.

Lemma NewWorld_wf (factory : LimiterFactory L F) (opts : option Options) (env0 : F) :
  wfWorld (NewWorld factory opts env0).
Proof. intros k p Hk. cbn in Hk. now rewrite lookup_empty in Hk. Qed.

Lemma loadOrStore_present w (key : string) (p c : loc) :
  limiters (self w) !! key = Some p -> loadOrStore w key c = (p, true, w).
Proof.
  intros Hp. unfold loadOrStore. rewrite (LoadOrStore_present _ _ _ c Hp).
  destruct w as [[fa kf eh m] hp e]. reflexivity.
Qed.

(** C4 (one limiter per key).  Requests are served concurrently by a new
    middleware, under any schedule.  At any moment (1) a goroutine that
    holds a limiter, before or after its [Allow], holds the limiter the
    registry stores for the key of its request; (2) so two requests of
    one key are checked against one limiter; (3) an entry of the
    registry stays as it is under every further step; (4) a
    [LoadOrStore] for a key that has an entry answers the stored limiter
    and changes nothing; and no goroutine panics. *)
Theorem registry_single_instance next (factory : LimiterFactory L F)
    (opts : option Options) (env0 : F) (rs : list Request)
    (sched sched' : list (nat * Time)) :
  let s := run next (start (NewWorld factory opts env0) rs) sched in
  let registry := limiters (self (world s)) in
  (forall i r key p,
      goroutines s !! i = Some (Resolved r key p) \/
      (exists ok resp, goroutines s !! i = Some (Finished r key p ok resp)) ->
      rs !! i = Some r /\ key = keyFunc (self (world s)) r /\
      registry !! key = Some p) /\
  (forall i j r1 r2 key p q ok1 ok2 resp1 resp2,
      goroutines s !! i = Some (Finished r1 key p ok1 resp1) ->
      goroutines s !! j = Some (Finished r2 key q ok2 resp2) ->
      p = q) /\
  (forall key p,
      registry !! key = Some p ->
      limiters (self (world (run next s sched'))) !! key = Some p) /\
  (forall key p c,
      registry !! key = Some p ->
      loadOrStore (world s) key c = (p, true, world s)) /\
  (forall i, goroutines s !! i <> Some Crashed).
Proof.
  cbv zeta.
  set (s := run next (start (NewWorld factory opts env0) rs) sched).
  assert (Hok : systemOk rs s)
    by (apply run_ok, start_ok, NewWorld_wf).
  destruct Hok as [Hwf Hgs].
  assert (Hheld : forall i r key p,
             goroutines s !! i = Some (Resolved r key p) \/
             (exists ok resp, goroutines s !! i = Some (Finished r key p ok resp)) ->
             rs !! i = Some r /\ key = keyFunc (self (world s)) r /\
             limiters (self (world s)) !! key = Some p).
  { intros i r key p [Hi|(ok & resp & Hi)];
      destruct (Forall2_lookup_r _ _ _ _ _ Hgs Hi) as (r0 & Hr & Hg);
      cbn [goroutineOk] in Hg; destruct Hg as (-> & -> & Hp); auto. }
  split; [exact Hheld|]. split; [|split; [|split]].
  - intros i j r1 r2 key p q ok1 ok2 resp1 resp2 Hi Hj.
    destruct (Hheld i r1 key p) as (_ & _ & Hp); [eauto|].
    destruct (Hheld j r2 key q) as (_ & _ & Hq); [eauto|].
    congruence.
  - intros key p Hp.
    destruct (run_extends next sched' s) as (_ & _ & _ & _ & Hmono). now apply Hmono.
  - intros key p c Hp. now apply loadOrStore_present.
  - intros i Hi.
    destruct (Forall2_lookup_r _ _ _ _ _ Hgs Hi) as (r0 & _ & Hg). exact Hg.
Qed.

(** What serving one request does to the world. *)
Lemma Middleware_runs next w r now :
  wfWorld w ->
  exists resp w',
    Middleware next w r now = Some (resp, w') /\
    wfWorld w' /\
    limiterFactory (self w') = limiterFactory (self w) /\
    env w' = snd (limiterFactory (self w) (env w)) /\
    length (heap w') = S (length (heap w)) /\
    (forall p, limiters (self w) !! keyFunc (self w) r = Some p ->
       limiters (self w') = limiters (self w) /\
       heap w' !! length (heap w) = Some (fst (limiterFactory (self w) (env w))) /\
       forall k, limiters (self w') !! k <> Some (length (heap w))).
Proof.
  intros Hwf. unfold Middleware, callFactory, loadOrStore.
  destruct (limiterFactory (self w) (env w)) as [cand e'] eqn:Hfac.
  cbn [self heap env limiters limiterFactory keyFunc errorHandler].
  pose proof (LoadOrStore_stored (limiters (self w)) (keyFunc (self w) r)
                (length (heap w))) as Hst.
  destruct (LoadOrStore (limiters (self w)) (keyFunc (self w) r) (length (heap w)))
    as [[actual loaded] m'] eqn:HLS.
  destruct Hst as (Hkey & Hmono & Hback).
  assert (Hact : (actual < length (heap w ++ [cand]))%nat).
  { rewrite length_app; cbn [length].
    destruct (Hback _ _ Hkey) as [Hold|[_ ->]]; [|lia].
    specialize (Hwf _ _ Hold). lia. }
  unfold allowAt; cbn [self heap env].
  destruct (lookup_lt_is_Some_2 _ _ Hact) as [l Hl]. rewrite Hl.
  destruct (Allow l now) as [ok l'].
  exists (if negb ok then errorHandler (self w) r else next r).
  eexists. split; [destruct ok; reflexivity|].
  cbn [self heap env limiters limiterFactory fst snd].
  rewrite length_insert, length_app; cbn [length].
  split; [|split; [reflexivity|split; [reflexivity|split; [lia|]]]].
  - intros k p Hk. cbn [self limiters heap] in *.
    rewrite length_insert, length_app; cbn [length].
    destruct (Hback _ _ Hk) as [Hold|[_ ->]]; [|lia].
    specialize (Hwf _ _ Hold). lia.
  - intros p Hp. rewrite (LoadOrStore_present _ _ _ _ Hp) in HLS.
    injection HLS as <- <- <-. split; [reflexivity|]. split.
    + specialize (Hwf _ _ Hp).
      rewrite list_lookup_insert_ne by lia.
      rewrite lookup_app_r by lia. now rewrite Nat.sub_diag.
    + intros k Hk. specialize (Hwf _ _ Hk). lia.
Qed.

Lemma factoryRuns_S (factory : LimiterFactory L F) (n : nat) (e : F) :
  factoryRuns factory (S n) e = factoryRuns factory n (snd (factory e)).
Proof.
  unfold factoryRuns. exact (Nat.iter_succ_r n (fun e => snd (factory e)) e).
Qed.

Lemma ServeAll_runs next (rs : list (Request * Time)) w :
  wfWorld w ->
  exists resps w',
    ServeAll next w rs = Some (resps, w') /\
    env w' = factoryRuns (limiterFactory (self w)) (length rs) (env w) /\
    length (heap w') = (length (heap w) + length rs)%nat /\
    length resps = length rs.
Proof.
  revert w. induction rs as [|[r now] rs IH]; intros w Hwf.
  - exists [], w. cbn. repeat split; lia.
  - destruct (Middleware_runs next w r now Hwf)
      as (resp & w1 & Hrun & Hwf1 & Hfac & Henv & Hlen & _).
    destruct (IH w1 Hwf1) as (resps & w' & Hall & Henv' & Hlen' & Hn).
    exists (resp :: resps), w'. cbn [ServeAll]. rewrite Hrun, Hall.
    cbn [length]. rewrite factoryRuns_S, <- Henv, <- Hfac.
    repeat split; [exact Henv'|lia|lia].
Qed.

(** The handler is its three steps taken in a row. *)
Lemma Middleware_as_steps next w r now :
  let s := run next (start w [r]) [(0%nat, now); (0%nat, now); (0%nat, now)] in
  match Middleware next w r now with
  | Some (resp, w') =>
      world s = w' /\ exists key p ok, goroutines s = [Finished r key p ok resp]
  | None => goroutines s = [Crashed]
  end.
Proof.
  cbv zeta. unfold Middleware, run, start, step. cbn [fold_left world goroutines fmap list_fmap lookup list_lookup stepGoroutine].
  destruct (callFactory w) as [c w1] eqn:Hc.
  assert (Hk : keyFunc (self w1) = keyFunc (self w) /\
               errorHandler (self w1) = errorHandler (self w)).
  { pose proof (callFactory_extends w) as He. rewrite Hc in He.
    destruct He as (_ & ? & ? & _). auto. }
  destruct Hk as [Hk He].
  cbn [world goroutines insert list_insert lookup list_lookup stepGoroutine].
  destruct (loadOrStore w1 (keyFunc (self w) r) c) as [[p loaded] w2] eqn:Hl.
  assert (He2 : errorHandler (self w2) = errorHandler (self w)).
  { pose proof (loadOrStore_extends w1 (keyFunc (self w) r) c) as Hx.
    rewrite Hl in Hx. cbn [snd] in Hx. destruct Hx as (_ & _ & Hx & _). congruence. }
  cbn [world goroutines insert list_insert lookup list_lookup stepGoroutine].
  destruct (allowAt w2 p now) as [[ok w3]|]; cbn [world goroutines insert list_insert].
  - rewrite He2. destruct ok; cbn [negb]; split; eauto.
  - reflexivity.
Qed.

(** C10 (the factory runs on every request).  Serving a request calls
    the factory once, whether or not the key has a limiter: the state of
    the factory moves on and a candidate is allocated.  When the key has
    a limiter already the registry is left as it was, and the candidate
    stays in the heap as built with no entry of the registry holding
    it.  So [n] requests served in a row run the factory [n] times and
    allocate [n] limiters, whatever their keys. *)
Theorem factory_runs_on_every_request next w r now (rs : list (Request * Time)) :
  wfWorld w ->
  let factory := limiterFactory (self w) in
  let candidate := length (heap w) in
  (exists resp w',
      Middleware next w r now = Some (resp, w') /\
      env w' = snd (factory (env w)) /\
      length (heap w') = S (length (heap w)) /\
      (forall p, limiters (self w) !! keyFunc (self w) r = Some p ->
         limiters (self w') = limiters (self w) /\
         heap w' !! candidate = Some (fst (factory (env w))) /\
         forall k, limiters (self w') !! k <> Some candidate)) /\
  (exists resps w',
      ServeAll next w rs = Some (resps, w') /\
      env w' = factoryRuns factory (length rs) (env w) /\
      length (heap w') = (length (heap w) + length rs)%nat /\
      length resps = length rs).
Proof.
  intros Hwf. cbv zeta. split.
  - destruct (Middleware_runs next w r now Hwf)
      as (resp & w' & Hrun & _ & _ & Henv & Hlen & Hpresent).
    exists resp, w'. auto.
  - now apply ServeAll_runs.
Qed.
Lemma countStarted_insert (gs : list Goroutine) (i : nat) g g' :
  gs !! i = Some g ->
  (countStarted (<[i := g']> gs) + (if started g then 1 else 0)
   = countStarted gs + (if started g' then 1 else 0))%nat.
Proof.
  revert i. induction gs as [|g0 gs IH]; intros [|i] Hi; try discriminate.
  - injection Hi as ->. cbn [insert list_insert countStarted].
    destruct (started g), (started g'); lia.
  - change (<[S i:=g']> (g0 :: gs)) with (g0 :: <[i:=g']> gs).
    cbn [countStarted]. specialize (IH i Hi). revert IH.
    destruct (started g), (started g'), (started g0); lia.
Qed.

Lemma countStarted_Arrived (rs : list Request) : countStarted (Arrived <$> rs) = O.
Proof. induction rs as [|r rs IH]; [reflexivity|exact IH]. Qed.

(** What a step does to the factory and to the heap: a goroutine that
    arrives calls the factory, once, and every other step leaves it
    alone. *)
Lemma stepGoroutine_factory next w g now :
  let g' := fst (stepGoroutine next w g now) in
  let w' := snd (stepGoroutine next w g now) in
  (started g = false ->
   started g' = true /\
   env w' = snd (limiterFactory (self w) (env w)) /\
   length (heap w') = S (length (heap w))) /\
  (started g = true ->
   started g' = true /\ env w' = env w /\ length (heap w') = length (heap w)).
Proof.
  cbv zeta. destruct g as [r|r key c|r key p|r key p ok resp|];
    cbn [stepGoroutine started]; (split; [intros Hs|intros Hs]); try discriminate.
  - unfold callFactory. destruct (limiterFactory (self w) (env w)) as [l e'].
    cbn [fst snd started env heap]. rewrite length_app. cbn [length].
    repeat split; lia.
  - unfold loadOrStore.
    destruct (LoadOrStore (limiters (self w)) key c) as [[p loaded] m'].
    cbn [fst snd started env heap]. auto.
  - unfold allowAt. destruct (heap w !! p) as [l|]; [|cbn; auto].
    destruct (Allow l now) as [ok l']. cbn [fst snd started env heap].
    rewrite length_insert. auto.
  - cbn. auto.
  - cbn. auto.
Qed.

(** The factory runs once per started request, under every schedule: with
    [n] goroutines past their first step, the state of the factory is
    that after [n] calls and [n] limiters have been allocated, however
    many keys the requests have. *)
Theorem factory_runs_once_per_started_request next (factory : LimiterFactory L F)
    (opts : option Options) (env0 : F) (rs : list Request)
    (sched : list (nat * Time)) :
  let s := run next (start (NewWorld factory opts env0) rs) sched in
  let n := countStarted (goroutines s) in
  env (world s) = factoryRuns factory n env0 /\
  length (heap (world s)) = n /\
  (n <= length rs)%nat.
Proof.
  cbv zeta.
  assert (Hgen : forall s,
             limiterFactory (self (world s)) = factory ->
             env (world s) = factoryRuns factory (countStarted (goroutines s)) env0 ->
             length (heap (world s)) = countStarted (goroutines s) ->
             length (goroutines s) = length rs ->
             let s' := run next s sched in
             env (world s') = factoryRuns factory (countStarted (goroutines s')) env0 /\
             length (heap (world s')) = countStarted (goroutines s') /\
             length (goroutines s') = length rs).
  { induction sched as [|[i now] sched IH]; intros s Hf He Hh Hl; [cbn; auto|].
    cbn [run fold_left]. apply IH; unfold step;
      destruct (goroutines s !! i) as [g|] eqn:Hi; try assumption;
      pose proof (stepGoroutine_extends next (world s) g now) as (Hf' & _);
      pose proof (stepGoroutine_factory next (world s) g now) as [Hnew Hold];
      pose proof (countStarted_insert (goroutines s) i g
                    (fst (stepGoroutine next (world s) g now)) Hi) as Hc;
      destruct (stepGoroutine next (world s) g now) as [g' w'];
      cbn [fst snd world goroutines] in *.
    - congruence.
    - destruct (started g) eqn:Hg.
      + destruct (Hold eq_refl) as (Hg' & -> & _). rewrite Hg' in Hc.
        rewrite He. f_equal. lia.
      + destruct (Hnew eq_refl) as (Hg' & -> & _). rewrite Hg' in Hc.
        rewrite Hf, He.
        replace (countStarted (<[i:=g']> (goroutines s)))
          with (S (countStarted (goroutines s))) by lia.
        reflexivity.
    - destruct (started g) eqn:Hg.
      + destruct (Hold eq_refl) as (Hg' & _ & ->). rewrite Hg' in Hc. lia.
      + destruct (Hnew eq_refl) as (Hg' & _ & ->). rewrite Hg' in Hc. lia.
    - now rewrite length_insert. }
  destruct (Hgen (start (NewWorld factory opts env0) rs)) as (He & Hh & Hl).
  - reflexivity.
  - cbn [start world goroutines NewWorld env]. now rewrite countStarted_Arrived.
  - cbn [start world goroutines NewWorld heap]. now rewrite countStarted_Arrived.
  - cbn [start goroutines]. apply length_fmap.
  - split; [exact He|split; [exact Hh|]].
    rewrite <- Hl. clear.
    induction (goroutines _) as [|g gs IH]; cbn [countStarted length]; [lia|].
    destruct (started g); lia.
Qed.
End Registry.

(** The middleware at concrete inputs: a factory that counts its calls and
    builds the mock limiter of the tests; the key of a request is its
    path. *)

Section MiddlewareExamples.
Import GoTime Middleware.

Lemma factory_runs_on_every_request_witness :
let factory : LimiterFactory mockRateLimiter nat :=
  fun n => ({| allowReturn := true; callCount := 0 |}, S n) in
let w :=
  {| self :=
       {| limiterFactory := factory;
          keyFunc := Path;
          errorHandler := DefaultErrorHandler;
          limiters := {[ "/a"%string := 0%nat ]} |};
     heap := [{| allowReturn := true; callCount := 1 |}];
     env := 1%nat |} in
let r := {| Header := ∅; RemoteAddr := "10.0.0.1:4000";
            Path := "/a" |} in
let next : Handler := fun _ => {| Code := 200; Body := "ok" |} in
exists resp w',
  Middleware next w r 0 = Some (resp, w') /\
  env w' = 2%nat /\
  limiters (self w') = {[ "/a"%string := 0%nat ]} /\
  heap w' !! 1%nat
  = Some {| allowReturn := true; callCount := 0 |}.
Proof.
cbv zeta.
match goal with
| |- exists resp w', Middleware ?next ?w ?r ?now = _ /\ _ =>
    assert (Hwf : wfWorld w)
      by (intros k p Hk; cbn in Hk; apply lookup_singleton_Some in Hk as [_ <-];
          cbn; lia);
    destruct (factory_runs_on_every_request next w r now [] Hwf)
      as [(resp & w' & Hrun & Henv & _ & Hpresent) _]
end.
destruct (Hpresent 0%nat (lookup_singleton_eq _ _)) as (Hreg & Hcand & _).
exists resp, w'. auto.
Defined.

(** Two requests of one key race: the second goroutine stores its
  candidate first, the first one loads it and drops its own, and both
  are checked against the limiter at address 1. *)
Example registry_race :
let factory : LimiterFactory mockRateLimiter nat :=
  fun n => ({| allowReturn := true; callCount := 0 |}, S n) in
let r := {| Header := ∅; RemoteAddr := "10.0.0.1:4000";
            Path := "/a" |} in
let next : Handler := fun _ => {| Code := 200; Body := "ok" |} in
let opts := Some {| optKeyFunc := Some Path;
                    optErrorHandler := None |} in
let s := run next
           (start (NewWorld factory opts 0%nat) [r; r])
           [(0%nat, 0); (1%nat, 0); (1%nat, 0); (0%nat, 0); (0%nat, 5); (1%nat, 6)] in
goroutines s
= [Finished r "/a" 1%nat true {| Code := 200; Body := "ok" |};
   Finished r "/a" 1%nat true {| Code := 200; Body := "ok" |}] /\
heap (world s)
= [{| allowReturn := true; callCount := 0 |};
   {| allowReturn := true; callCount := 2 |}] /\
env (world s) = 2%nat.
Proof. cbv zeta. repeat split; vm_compute; reflexivity. Qed.

End MiddlewareExamples.

(** ** The token bucket: tokens earned, from below *)

Section BucketEarnedMore.
Import Float64 GoTime Main.
Context `{Arch}.

(** At rate zero a non-negative elapsed time earns nothing. *)
Lemma tokensToAdd_rate_0 (elapsed : Duration) :
  0 <= elapsed <= GoInt.maxInt -> tokensToAdd elapsed 0 = 0.
Proof.
  intros He. destruct (Z.eq_dec elapsed 0) as [->|He0].
  { apply tokensToAdd_0. unfold GoInt.minInt, GoInt.maxInt. lia. }
  destruct (Seconds_normal elapsed ltac:(lia)) as (m & e & Hs & _).
  unfold tokensToAdd. rewrite Hs.
  change (mul (S754_finite false m e) (of_int 0)) with (S754_zero false).
  apply to_int_zero.
Qed.

(** A second or more is a normal number of seconds, at least one. *)
Lemma Seconds_normal_ge1 (d : Duration) :
  1000000000 <= d <= GoInt.maxInt -> posNormal (-52) (-16) (Seconds d).
Proof.
  intros Hd. unfold Seconds, Second.
  assert (Hmax : GoInt.maxInt = 9223372036854775807) by reflexivity.
  rewrite Z.quot_div_nonneg, Z.rem_mod_nonneg by lia.
  pose proof (Z.div_mod d 1000000000 ltac:(lia)) as Hdm.
  pose proof (Z.mod_pos_bound d 1000000000 ltac:(lia)) as Hns.
  assert (Hs : 1 <= d / 1000000000 < 2 ^ 34).
  { split; [apply Z.div_le_lower_bound; lia|apply Z.div_lt_upper_bound; lia]. }
  set (sec := d / 1000000000) in *. set (nsec := d mod 1000000000) in *.
  pose proof (of_int_normal 34 sec ltac:(lia) ltac:(lia)) as Hx.
  destruct (Z.eq_dec nsec 0) as [Hn0|Hn0].
  - rewrite Hn0. change (div (of_int 0) (of_int 1000000000)) with (S754_zero false).
    apply (posNormal_weaken (-52) (34 - 52)); [lia|lia|].
    destruct Hx as (m & e & Hx & Hrest). rewrite Hx. exists m, e. auto.
  - pose proof (of_int_normal 30 nsec ltac:(lia) ltac:(lia)) as Hn.
    pose proof (div_1e9_normal (-52) (30 - 52) _ ltac:(lia) ltac:(lia) Hn) as Hy.
    pose proof (add_normal (-52) (34 - 52) (-52 - 30) (30 - 52 - 28) _ _
                  ltac:(lia) ltac:(lia) ltac:(lia) ltac:(lia) Hx Hy) as Hsum.
    eapply posNormal_weaken; [| |exact Hsum]; lia.
Qed.

(** The integer part of a positive normal float that is at least one. *)
Lemma trunc_normal_ge1 (lo hi : Z) (f : float64) :
  -52 <= lo -> posNormal lo hi f -> exists z, trunc f = Some z /\ 1 <= z.
Proof.
  intros Hlo (m & e & -> & Hm & He). cbn [trunc cond_Zopp].
  exists (Z.shiftl (Z.pos m) e). split; [reflexivity|].
  destruct (Z_le_gt_dec 0 e) as [Hpos|Hneg].
  - rewrite Z.shiftl_mul_pow2 by lia.
    assert (0 < 2 ^ e) by (apply Z.pow_pos_nonneg; lia). nia.
  - rewrite Z.shiftl_div_pow2 by lia.
    assert (Hp : 0 < 2 ^ (- e)) by (apply Z.pow_pos_nonneg; lia).
    apply Z.div_le_lower_bound; [assumption|].
    assert (2 ^ (- e) <= 2 ^ 52) by (apply Z.pow_le_mono_r; lia). lia.
Qed.

(** A second or more at a rate of one or more earns a token or more. *)
Lemma tokensToAdd_one_second (elapsed : Duration) (rate : Z) :
  1000000000 <= elapsed <= GoInt.maxInt -> 1 <= rate < 2 ^ 20 ->
  1 <= tokensToAdd elapsed rate < 2 ^ 59.
Proof.
  intros He Hr.
  pose proof (Seconds_normal_ge1 elapsed He) as Hs.
  pose proof (of_int_normal 20 rate ltac:(lia) ltac:(lia)) as Hx.
  pose proof (mul_normal (-52) (-16) (-52) (20 - 52) _ _
                ltac:(lia) ltac:(lia) ltac:(lia) ltac:(lia) Hs Hx) as Hm.
  destruct (trunc_normal _ 6 _ ltac:(lia)
              (posNormal_weaken (-52 + -52 + 52) (-16 + (20 - 52) + 54) (-52) 6 _
                 ltac:(lia) ltac:(lia) Hm))
    as (z & Hz & Hb).
  destruct (trunc_normal_ge1 (-52 + -52 + 52) _ _ ltac:(lia) Hm) as (z' & Hz' & Hb').
  rewrite Hz in Hz'. injection Hz' as <-.
  change (53 + 6) with 59 in Hb.
  unfold tokensToAdd, to_int. rewrite Hz.
  replace (GoInt.inRange z) with true; [lia|].
  symmetry. unfold GoInt.inRange, GoInt.minInt, GoInt.maxInt.
  apply andb_true_intro. split; apply Z.leb_le; lia.
Qed.

(** The tokens earned over one retry delay of [Wait], for every rate
    the delay is not zero for: one token when the rate divides 1000,
    none otherwise. *)
Lemma tokensToAdd_retry_delay (rate : Z) :
  1 <= rate <= 1000 ->
  tokensToAdd (1000 / rate * Millisecond) rate
  = if 1000 mod rate =? 0 then 1 else 0.
Proof.
  intros Hr.
  assert (Hall : forallb
    (fun n => match trunc (mul (Seconds (1000 / Z.of_nat n * Millisecond))
                               (of_int (Z.of_nat n))) with
              | Some z => z =? (if 1000 mod Z.of_nat n =? 0 then 1 else 0)
              | None => false
              end) (seq 1 1000) = true) by (vm_compute; reflexivity).
  rewrite forallb_forall in Hall.
  specialize (Hall (Z.to_nat rate)).
  rewrite Z2Nat.id in Hall by lia.
  assert (Hin : In (Z.to_nat rate) (seq 1 1000)) by (apply in_seq; lia).
  specialize (Hall Hin).
  unfold tokensToAdd, to_int.
  destruct (trunc _) as [z|]; [|discriminate].
  apply Z.eqb_eq in Hall. subst z.
  now destruct (1000 mod rate =? 0).
Qed.
End BucketEarnedMore.

(** ** The token bucket: [Wait], rate zero, liveness *)

Section BucketMore.
Import GoInt GoTime Main.
Context `{Arch}.

(** What [Wait] does, in terms of the calls of [Allow] it makes. *)
Lemma Wait_as_AllowAll (clock : list Time) (rl : RateLimiter) :
  let k := length (snd (Wait rl clock)) in
  match fst (Wait rl clock) with
  | Acquired rl' =>
      (k < length clock)%nat /\
      AllowAll rl (take (S k) clock) = (repeat false k ++ [true], rl')
  | Sleeping rl' =>
      k = length clock /\ AllowAll rl clock = (repeat false k, rl')
  | Panicked rl' =>
      rate rl = 0 /\ k = 0%nat /\ AllowAll rl (take 1 clock) = ([false], rl')
  end.
Proof.
  cbv zeta. revert rl. induction clock as [|now clock IH]; intros rl.
  - cbn. auto.
  - cbn [Wait]. destruct (Allow_fields rl now) as (Hrate & _ & _).
    cbn [take AllowAll].
    destruct (Allow rl now) as [[|] rl1] eqn:HA; cbn [snd] in Hrate.
    + cbn [fst snd length take AllowAll repeat app]. split; [lia|reflexivity].
    + unfold retryDelay, quo. rewrite Hrate.
      destruct (Z.eqb_spec (rate rl) 0) as [Hz|Hnz].
      * cbn [fst snd length]. rewrite take_0. cbn [AllowAll]. auto.
      * specialize (IH rl1).
        destruct (Wait rl1 clock) as [res ds]. cbn [fst snd length] in *.
        destruct res as [rl'|rl'|rl'].
        -- destruct IH as [Hk IH]. split; [lia|].
           cbn [take] in IH. rewrite IH. reflexivity.
        -- destruct IH as [Hk IH]. split; [lia|].
           rewrite IH. reflexivity.
        -- destruct IH as (Hz & _). congruence.
Qed.

(** [Wait] is [Allow] retried.  When it returns, the calls of [Allow]
    it made were denied once per sleep and then admitted, and the bucket
    is as those calls left it; while it is still looping every call was
    denied; it panics only at rate zero, at the first call, denied. *)
Theorem Wait_is_Allow_retried (clock : list Time) (rl : RateLimiter) :
  let k := length (snd (Wait rl clock)) in
  match fst (Wait rl clock) with
  | Acquired rl' =>
      (k < length clock)%nat /\
      AllowAll rl (take (S k) clock) = (repeat false k ++ [true], rl')
  | Sleeping rl' =>
      k = length clock /\ AllowAll rl clock = (repeat false k, rl')
  | Panicked rl' =>
      rate rl = 0 /\ k = 0%nat /\ AllowAll rl (take 1 clock) = ([false], rl')
  end.
Proof. exact (Wait_as_AllowAll clock rl). Qed.

(** A bucket of rate zero is never refilled: over calls at times that
    do not run backwards it admits as many calls as it holds tokens,
    then denies every call. *)
Theorem zero_rate_never_refills (clock : list Time) (rl : RateLimiter) :
  rate rl = 0 -> 0 <= tokens rl <= burst rl -> burst rl <= maxInt ->
  nondecreasing (lastUpdate rl) clock ->
  fst (AllowAll rl clock)
  = repeat true (Nat.min (length clock) (Z.to_nat (tokens rl)))
    ++ repeat false (length clock - Z.to_nat (tokens rl)) /\
  tokens (snd (AllowAll rl clock)) = Z.max 0 (tokens rl - Z.of_nat (length clock)).
Proof.
  intros Hr Ht Hb. revert rl Hr Ht Hb.
  induction clock as [|now clock IH]; intros rl Hr Ht Hb Hclock.
  - cbn. split; [reflexivity|lia].
  - destruct Hclock as [Hnow Hclock]. cbn [AllowAll]. unfold Allow.
    rewrite refill_nothing_earned;
      [|rewrite Hr; apply tokensToAdd_rate_0, Sub_nonneg, Hnow
       |unfold minInt, maxInt in *; lia|lia].
    destruct (Z_lt_le_dec 0 (tokens rl)) as [Hpos|Hzero].
    + rewrite consume_true by (cbn [tokens]; lia). cbn [rate burst tokens lastUpdate].
      match goal with |- context [AllowAll ?rl' clock] => specialize (IH rl') end.
      cbn [rate burst tokens lastUpdate] in IH.
      specialize (IH Hr ltac:(lia) Hb Hclock).
      destruct (AllowAll _ clock) as [oks rl'']. cbn [fst snd length] in *.
      destruct IH as [-> ->].
      replace (Z.to_nat (tokens rl)) with (S (Z.to_nat (tokens rl - 1))) by lia.
      cbn [Nat.min Nat.sub repeat app]. split; [reflexivity|lia].
    + rewrite consume_false by (cbn [tokens]; lia).
      match goal with |- context [AllowAll ?rl' clock] => specialize (IH rl') end.
      cbn [rate burst tokens lastUpdate] in IH.
      specialize (IH Hr Ht Hb Hclock).
      destruct (AllowAll _ clock) as [oks rl'']. cbn [fst snd length] in *.
      destruct IH as [-> ->].
      replace (Z.to_nat (tokens rl)) with O by lia.
      rewrite Nat.min_0_r, Nat.sub_0_r. cbn [Nat.min Nat.sub repeat app].
      split; [reflexivity|lia].
Qed.

(** [Wait] on a drained bucket of rate zero: the call of [Allow] is
    denied and the retry delay [1000/rl.rate] divides by zero. *)
Theorem Wait_zero_rate_panics (now : Time) (clock : list Time) (rl : RateLimiter) :
  rate rl = 0 -> tokens rl = 0 -> 0 <= burst rl -> lastUpdate rl <= now ->
  Wait rl (now :: clock)
  = (Panicked {| rate := 0; burst := burst rl; tokens := 0; lastUpdate := now |}, []).
Proof.
  intros Hr Ht Hb Hnow. cbn [Wait]. unfold Allow.
  rewrite refill_nothing_earned;
    [|rewrite Hr; apply tokensToAdd_rate_0, Sub_nonneg, Hnow
     |unfold minInt, maxInt; lia|lia].
  rewrite consume_false by (cbn [tokens]; lia).
  rewrite Hr, Ht. reflexivity.
Qed.

(** One call on a bucket of ordinary size, at or after its last update:
    the addition does not overflow. *)
Lemma Allow_moderate (rl : RateLimiter) (now : Time) :
  let earned := tokensToAdd (Sub now (lastUpdate rl)) (rate rl) in
  let available := Z.min (tokens rl + earned) (burst rl) in
  0 <= rate rl < 2 ^ 20 -> burst rl <= 2 ^ 62 -> 0 <= tokens rl <= burst rl ->
  lastUpdate rl <= now ->
  0 <= earned < 2 ^ 59 /\ 0 <= available <= burst rl /\
  Allow rl now =
    if 0 <? available
    then (true, {| rate := rate rl; burst := burst rl;
                   tokens := available - 1; lastUpdate := now |})
    else (false, {| rate := rate rl; burst := burst rl;
                    tokens := available; lastUpdate := now |}).
Proof.
  intros earned available Hr Hb Ht Hnow.
  pose proof (tokensToAdd_moderate (Sub now (lastUpdate rl)) (rate rl)
                (Sub_nonneg _ _ Hnow) Hr) as He. fold earned in He.
  split; [exact He|]. split; [unfold available; lia|].
  apply Allow_in_range. fold earned. unfold minInt, maxInt. lia.
Qed.

(** A second or more after the last update earns a token or more, and
    the call is admitted. *)
Lemma Allow_admits_after_a_second (rl : RateLimiter) (now : Time) :
  1 <= rate rl < 2 ^ 20 -> 1 <= burst rl <= 2 ^ 62 -> 0 <= tokens rl <= burst rl ->
  lastUpdate rl + 1000000000 <= now ->
  fst (Allow rl now) = true.
Proof.
  intros Hr Hb Ht Hnow.
  assert (Hsub : 1000000000 <= Sub now (lastUpdate rl) <= maxInt)
    by (unfold Sub, clamp, minInt, maxInt; lia).
  pose proof (tokensToAdd_one_second _ (rate rl) Hsub Hr) as He.
  rewrite Allow_in_range by (unfold minInt, maxInt; lia).
  destruct (Z.ltb_spec 0 (Z.min (tokens rl + tokensToAdd (Sub now (lastUpdate rl))
                                               (rate rl)) (burst rl)));
    [reflexivity|lia].
Qed.

(** Liveness.  A bucket of ordinary size, with a rate of one token per
    second or more and room for one token or more, admits every call
    made a second or more after its last update. *)
Theorem Allow_after_one_second (rl : RateLimiter) (now : Time) :
  1 <= rate rl < 2 ^ 20 -> 1 <= burst rl <= 2 ^ 62 -> 0 <= tokens rl <= burst rl ->
  lastUpdate rl + 1000000000 <= now ->
  fst (Allow rl now) = true.
Proof. exact (Allow_admits_after_a_second rl now). Qed.

Lemma last_cons_default (p d : Time) (l : list Time) :
  List.last (p :: l) d = List.last l p.
Proof.
  revert p d. induction l as [|q l IH]; intros p d; [reflexivity|].
  change (List.last (p :: q :: l) d) with (List.last (q :: l) d).
  now rewrite (IH q d), (IH q p).
Qed.

(** [Wait] returns: on a clock that does not run backwards, by the
    first call of [Allow] that is made a second or more after the call
    before it. *)
Theorem Wait_returns_after_one_second (pre : list Time) (now : Time)
    (post : list Time) (rl : RateLimiter) :
  1 <= rate rl < 2 ^ 20 -> 1 <= burst rl <= 2 ^ 62 -> 0 <= tokens rl <= burst rl ->
  nondecreasing (lastUpdate rl) pre ->
  List.last pre (lastUpdate rl) + 1000000000 <= now ->
  exists rl', fst (Wait rl (pre ++ now :: post)) = Acquired rl' /\
              (length (snd (Wait rl (pre ++ now :: post))) <= length pre)%nat.
Proof.
  revert rl. induction pre as [|p pre IH]; intros rl Hr Hb Ht Hpre Hnow.
  - cbn [app Wait List.last] in *.
    pose proof (Allow_admits_after_a_second rl now Hr Hb Ht Hnow) as Hok.
    destruct (Allow rl now) as [ok rl1]. cbn [fst] in Hok. subst ok.
    exists rl1. cbn. auto.
  - destruct Hpre as [Hp Hpre]. rewrite last_cons_default in Hnow.
    change ((p :: pre) ++ now :: post) with (p :: (pre ++ now :: post)).
    cbn [Wait].
    destruct (Allow_moderate rl p ltac:(lia) ltac:(lia) Ht Hp) as (_ & Hav & HA).
    rewrite HA.
    destruct (Z.ltb_spec 0 (Z.min (tokens rl + tokensToAdd (Sub p (lastUpdate rl))
                                                 (rate rl)) (burst rl))).
    + eexists. cbn [fst snd length]. split; [reflexivity|lia].
    + rewrite retryDelay_pos by (cbn [rate]; unfold maxInt; lia).
      match goal with |- context [Wait ?rl' _] => specialize (IH rl') end.
      cbn [rate burst tokens lastUpdate] in IH.
      destruct (IH Hr Hb ltac:(lia) Hpre Hnow) as (rl' & Hres & Hlen).
      destruct (Wait _ (pre ++ now :: post)) as [res ds].
      cbn [fst snd length] in *. exists rl'. split; [exact Hres|lia].
Qed.

(** [Wait] at its own retry delay.  A drained bucket is called again
    exactly one retry delay, [1000/rate] ms, after each call.  When the
    rate divides 1000 the delay earns one token and the call is
    admitted; for every other rate up to 1000 the delay earns less than
    a token, the call drops it, and [Wait] loops for as long as the
    calls come at that pace. *)
Theorem Wait_at_retry_delay (n : nat) (r b : Z) (t : Time) :
  1 <= r <= 1000 -> 1 <= b <= maxInt ->
  let d := 1000 / r * Millisecond in
  let rl := {| rate := r; burst := b; tokens := 0; lastUpdate := t |} in
  (1000 mod r = 0 ->
   Wait rl (every d t (S n))
   = (Acquired {| rate := r; burst := b; tokens := 0; lastUpdate := t + d |}, [])) /\
  (1000 mod r <> 0 ->
   Wait rl (every d t n)
   = (Sleeping {| rate := r; burst := b; tokens := 0;
                  lastUpdate := t + Z.of_nat n * d |}, repeat d n)).
Proof.
  intros Hr Hb d rl.
  assert (Hd : 0 <= d <= 1000 * Millisecond).
  { unfold d, Millisecond.
    assert (0 <= 1000 / r <= 1000); [|lia].
    split; [apply Z.div_pos; lia|apply Z.div_le_upper_bound; nia]. }
  assert (Hsub : forall t', Sub (t' + d) t' = d).
  { intros t'. apply Sub_add. unfold minInt, maxInt, Millisecond in *. lia. }
  pose proof (tokensToAdd_retry_delay r Hr) as Hearn. fold d in Hearn.
  assert (Hdd : 1000 / r * Millisecond = d) by reflexivity.
  subst rl. clearbody d. split; intros Hmod.
  - cbn [every Wait]. rewrite Allow_in_range; cbn [rate burst tokens lastUpdate];
      rewrite Hsub, Hearn, Hmod; cbn [Z.eqb]; [|unfold minInt, maxInt; lia].
    replace (Z.min (0 + 1) b) with 1 by lia. reflexivity.
  - assert (Hearn0 : tokensToAdd d r = 0).
    { rewrite Hearn. destruct (Z.eqb_spec (1000 mod r) 0); [contradiction|reflexivity]. }
    clear Hearn. revert t. induction n as [|n IH]; intros t.
    + cbn. repeat f_equal. lia.
    + cbn [every Wait]. unfold Allow.
      rewrite refill_nothing_earned; cbn [rate burst tokens lastUpdate];
        [|rewrite Hsub; exact Hearn0|unfold minInt, maxInt; lia|lia].
      rewrite consume_false by (cbn [tokens]; lia).
      rewrite retryDelay_pos by (cbn [rate]; unfold maxInt; lia).
      cbn [rate]. rewrite Hdd, (IH (t + d)). cbn [repeat].
      replace (t + d + Z.of_nat n * d) with (t + Z.of_nat (S n) * d) by lia.
      reflexivity.
Qed.
End BucketMore.

(** ** float64: a quotient that is exact *)

Section Float64Quotient.
Import Float64.

Lemma of_int_1 : of_int 1 = S754_finite false 4503599627370496 (-52).
Proof. reflexivity. Qed.

(** A positive normal float divided by itself is one. *)
Lemma div_self (lo hi : Z) (x : float64) :
  posNormal lo hi x -> div x x = of_int 1.
Proof.
  intros (m & e & -> & Hm & _).
  unfold div, SFdiv, SFdiv_core_binary.
  rewrite (Zdigits2_eq (Z.pos m) 53) by (change (53 - 1) with 52; lia).
  rewrite fexp_eq.
  replace (53 + e - (53 + e)) with 0 by lia.
  replace (e - e) with 0 by lia.
  change (Z.min (Z.max (0 - 53) (-1074)) 0) with (-53).
  change (0 - -53) with 53.
  rewrite Z.shiftl_mul_pow2 by lia.
  assert (Hq : Z.div_eucl (Z.pos m * 2 ^ 53) (Z.pos m) = (2 ^ 53, 0)).
  { pose proof (Z.div_mul (2 ^ 53) (Z.pos m) ltac:(lia)) as Hd.
    pose proof (Z.mod_mul (2 ^ 53) (Z.pos m) ltac:(lia)) as Hr.
    rewrite (Z.mul_comm (2 ^ 53)) in Hd, Hr.
    unfold Z.div, Z.modulo in Hd, Hr.
    destruct (Z.div_eucl (Z.pos m * 2 ^ 53) (Z.pos m)) as [q r].
    cbn [fst snd] in *. congruence. }
  rewrite Hq.
  assert (Hloc : new_location (Z.pos m) 0 = loc_Exact).
  { unfold new_location, new_location_even, new_location_odd.
    destruct (Z.even (Z.pos m)); reflexivity. }
  rewrite Hloc. reflexivity.
Qed.

(** Zero divided by a positive normal float is zero. *)
Lemma div_zero_l (lo hi : Z) (x : float64) :
  posNormal lo hi x -> div (of_int 0) x = zero.
Proof. intros (m & e & -> & _). reflexivity. Qed.
End Float64Quotient.

(** ** The statistics behind the decorator *)

Section StatsMore.
Import GoInt GoTime Stats.

(** The acceptance ratio at its ends: zero (not a NaN) when nothing
    was recorded, zero when nothing was allowed, exactly one when
    everything was allowed. *)
Theorem AcceptanceRatio_ends (s : Stats) (now : Time) :
  let ratio := Snapshot.AcceptanceRatio (GetSnapshot s now) in
  (TotalRequests s = 0 -> ratio = Float64.zero) /\
  (0 < TotalRequests s <= maxInt -> AllowedRequests s = 0 -> ratio = Float64.zero) /\
  (0 < TotalRequests s <= maxInt -> AllowedRequests s = TotalRequests s ->
   ratio = Float64.of_int 1).
Proof.
  cbv zeta. cbn [GetSnapshot Snapshot.AcceptanceRatio].
  unfold calculateAcceptanceRatio. repeat split.
  - intros ->. reflexivity.
  - intros Ht Ha. destruct (Z.eqb_spec (TotalRequests s) 0); [lia|].
    rewrite Ha. eapply div_zero_l.
    apply (of_int_normal 64); unfold maxInt in *; lia.
  - intros Ht Ha. destruct (Z.eqb_spec (TotalRequests s) 0); [lia|].
    rewrite Ha. eapply div_self.
    apply (of_int_normal 64); unfold maxInt in *; lia.
Qed.
End StatsMore.

Section DecoratedRuns.
Import GoInt GoTime Stats Decorated.
Context {L : Type} `{RateLimiter L}.

Lemma answers_cons (b ok : bool) (oks : list bool) :
  answers b (ok :: oks) = (if Bool.eqb ok b then 1 else 0) + answers b oks.
Proof. reflexivity. Qed.

(** The counters over a run of calls through the decorator. *)
Lemma AllowEachWithStats_counts (clock : list (Time * Time))
    (r : RateLimiterWithStats L) :
  exact (Z.of_nat (length clock)) (stats r) ->
  let direct := AllowEach (limiter r) clock.*1 in
  let wrapped := AllowEachWithStats r clock in
  fst wrapped = fst direct /\
  limiter (snd wrapped) = snd direct /\
  AllowedRequests (stats (snd wrapped))
  = AllowedRequests (stats r) + answers true (fst wrapped) /\
  DeniedRequests (stats (snd wrapped))
  = DeniedRequests (stats r) + answers false (fst wrapped) /\
  TotalRequests (stats (snd wrapped))
  = TotalRequests (stats r) + Z.of_nat (length clock).
Proof.
  cbv zeta. revert r. induction clock as [|[now now'] clock IH]; intros r Hroom.
  - cbn. repeat split; (reflexivity || lia).
  - cbn [AllowEachWithStats AllowEach fmap list_fmap fst].
    unfold AllowWithStats.
    assert (Hroom' : exact (Z.of_nat (length clock) + 1) (stats r)).
    { replace (Z.of_nat (length clock) + 1)
        with (Z.of_nat (length ((now, now') :: clock))) by (cbn [length]; lia).
      exact Hroom. }
    destruct (Allow (limiter r) now) as [[|] l'].
    + pose proof (call_exact (Z.of_nat (length clock)) _ (CallRecordAllowed now')
                    ltac:(lia) Hroom') as Hs.
      cbn [call] in Hs.
      specialize (IH {| limiter := l'; stats := RecordAllowed (stats r) now' |} Hs).
      cbn [limiter stats] in IH.
      destruct (AllowEachWithStats _ clock) as [oks r''].
      destruct (AllowEach l' clock.*1) as [oks' l''].
      cbn [fst snd] in *. destruct IH as (-> & -> & -> & -> & ->).
      rewrite !answers_cons. cbn [Bool.eqb length].
      destruct Hroom' as (? & ? & ? & ?).
      cbn [RecordAllowed AllowedRequests DeniedRequests TotalRequests].
      unfold GoInt.add. rewrite !wrap_small by (unfold minInt, maxInt in *; lia).
      repeat split; lia.
    + pose proof (call_exact (Z.of_nat (length clock)) _ (CallRecordDenied now')
                    ltac:(lia) Hroom') as Hs.
      cbn [call] in Hs.
      specialize (IH {| limiter := l'; stats := RecordDenied (stats r) now' |} Hs).
      cbn [limiter stats] in IH.
      destruct (AllowEachWithStats _ clock) as [oks r''].
      destruct (AllowEach l' clock.*1) as [oks' l''].
      cbn [fst snd] in *. destruct IH as (-> & -> & -> & -> & ->).
      rewrite !answers_cons. cbn [Bool.eqb length].
      destruct Hroom' as (? & ? & ? & ?).
      cbn [RecordDenied AllowedRequests DeniedRequests TotalRequests].
      unfold GoInt.add. rewrite !wrap_small by (unfold minInt, maxInt in *; lia).
      repeat split; lia.
Qed.

(** A run of calls through the decorator.  The answers are those of
    the wrapped limiter called at the same readings, which ends in the
    same state; and while the counters have room, the allowed count
    grows by the number of [true] answers, the denied count by the
    number of [false] answers and the total by the number of calls. *)
Theorem decorator_counts_answers (clock : list (Time * Time))
    (r : RateLimiterWithStats L) :
  exact (Z.of_nat (length clock)) (stats r) ->
  let direct := AllowEach (limiter r) clock.*1 in
  let wrapped := AllowEachWithStats r clock in
  fst wrapped = fst direct /\
  limiter (snd wrapped) = snd direct /\
  AllowedRequests (stats (snd wrapped))
  = AllowedRequests (stats r) + answers true (fst wrapped) /\
  DeniedRequests (stats (snd wrapped))
  = DeniedRequests (stats r) + answers false (fst wrapped) /\
  TotalRequests (stats (snd wrapped))
  = TotalRequests (stats r) + Z.of_nat (length clock).
Proof. exact (AllowEachWithStats_counts clock r). Qed.
End DecoratedRuns.

Section DecoratedBucket.
Import GoInt GoTime Stats Decorated.
Context `{Arch}.

Lemma AllowEach_bucket_stats (clock : list Time) (rl : Main.RateLimiter) :
  AllowEach rl clock = Main.AllowAll rl clock.
Proof.
  revert rl. induction clock as [|now clock IH]; intros rl; [reflexivity|].
  cbn [AllowEach Main.AllowAll]. change (Allow rl now) with (Main.Allow rl now).
  destruct (Main.Allow rl now) as [ok rl']. now rewrite IH.
Qed.

Lemma answers_retried (k : nat) :
  answers true (repeat false k ++ [true]) = 1 /\
  answers false (repeat false k ++ [true]) = Z.of_nat k.
Proof.
  induction k as [|k [IH1 IH2]]; [split; reflexivity|].
  cbn [repeat app]. rewrite !answers_cons, IH1, IH2. cbn [Bool.eqb]. lia.
Qed.

(** [Wait] through the decorator, on the token bucket.  When the
    bucket's [Wait] returns after [k] sleeps, the bucket has denied [k]
    calls of [Allow] and admitted one.  Polling the decorator's [Allow]
    at the same readings ends with the same bucket and records [k]
    denied requests and one allowed; the decorator's [Wait] records the
    allowed one only, and the denials it waited through appear in no
    counter. *)
Theorem WaitWithStats_skips_denials (r : RateLimiterWithStats Main.RateLimiter)
    (clock : list Time) (now' : Time) (rl' : Main.RateLimiter) :
  fst (Main.Wait (limiter r) clock) = Main.Acquired rl' ->
  let k := length (snd (Main.Wait (limiter r) clock)) in
  exact (Z.of_nat (S k)) (stats r) ->
  let polled :=
    AllowEachWithStats r ((fun t => (t, now')) <$> take (S k) clock) in
  exists r',
    WaitWithStats r clock now' = Some r' /\
    limiter r' = rl' /\ limiter (snd polled) = rl' /\
    fst polled = repeat false k ++ [true] /\
    AllowedRequests (stats r') = AllowedRequests (stats r) + 1 /\
    AllowedRequests (stats (snd polled)) = AllowedRequests (stats r) + 1 /\
    DeniedRequests (stats r') = DeniedRequests (stats r) /\
    DeniedRequests (stats (snd polled)) = DeniedRequests (stats r) + Z.of_nat k /\
    TotalRequests (stats r') = TotalRequests (stats r) + 1 /\
    TotalRequests (stats (snd polled)) = TotalRequests (stats r) + Z.of_nat k + 1.
Proof.
  intros Hacq k Hroom polled.
  pose proof (Wait_as_AllowAll clock (limiter r)) as Hwait. cbv zeta in Hwait.
  rewrite Hacq in Hwait. fold k in Hwait. destruct Hwait as [Hk Hall].
  assert (Hlen : length ((fun t => (t, now')) <$> take (S k) clock) = S k).
  { rewrite length_fmap, length_take. lia. }
  assert (Hfst : ((fun t => (t, now')) <$> take (S k) clock).*1 = take (S k) clock).
  { clear. induction (take (S k) clock) as [|t l IH]; [reflexivity|].
    cbn in *. now rewrite IH. }
  pose proof (AllowEachWithStats_counts
                ((fun t => (t, now')) <$> take (S k) clock) r) as Hcount.
  rewrite Hlen in Hcount. specialize (Hcount Hroom). cbv zeta in Hcount.
  fold polled in Hcount.
  rewrite Hfst, AllowEach_bucket_stats, Hall in Hcount. cbn [fst snd] in Hcount.
  destruct Hcount as (Hoks & Hlim & Ha & Hd & Ht).
  rewrite Hoks in Ha, Hd. destruct (answers_retried k) as [Hat Haf].
  rewrite Hat in Ha. rewrite Haf in Hd.
  exists {| limiter := rl'; stats := RecordAllowed (stats r) now' |}.
  split.
  { unfold WaitWithStats. cbn [Wait bucket_RateLimiter]. now rewrite Hacq. }
  destruct Hroom as (H0a & H0d & H0t & H0m).
  cbn [limiter stats RecordAllowed AllowedRequests DeniedRequests TotalRequests].
  unfold GoInt.add. rewrite !wrap_small by (unfold minInt, maxInt in *; lia).
  repeat split; try assumption; try reflexivity; lia.
Qed.
End DecoratedBucket.

(** ** One limiter for all requests *)

Section SingleFacts.
Import GoTime Middleware HTTPMiddleware.
Context {L : Type} `{RateLimiter L}.

Lemma ServeAll_by_limiter next (rs : list (Request * Time)) (rl : HTTPRateLimiter L) :
  fst (ServeAll next rl rs)
  = zip_with (fun (ok : bool) r => if ok then next r else errorHandler rl r)
      (fst (AllowEach (limiter rl) rs.*2)) rs.*1 /\
  limiter (snd (ServeAll next rl rs)) = snd (AllowEach (limiter rl) rs.*2) /\
  keyFunc (snd (ServeAll next rl rs)) = keyFunc rl /\
  errorHandler (snd (ServeAll next rl rs)) = errorHandler rl.
Proof.
  revert rl. induction rs as [|[r now] rs IH]; intros rl; [now cbn|].
  cbn [ServeAll AllowEach fmap list_fmap fst snd]. unfold Middleware.
  destruct (Allow (limiter rl) now) as [[|] l']; cbn [negb];
    match goal with
    | |- context [ServeAll next ?rl' rs] => specialize (IH rl')
    end;
    cbn [limiter keyFunc errorHandler] in IH;
    destruct (ServeAll next _ rs) as [resps rl''];
    destruct (AllowEach l' rs.*2) as [oks l''];
    cbn [fst snd zip_with] in *; destruct IH as (-> & -> & -> & ->); auto.
Qed.

(** [HTTPRateLimiter] checks every request against its one limiter.
    The requests get, in order, what [next] answers where the limiter
    answers [true] and what the error handler answers where it answers
    [false]; the limiter is called once per request and ends as those
    calls leave it.  The key function plays no part: with any other
    one, the responses are the same. *)
Theorem HTTPMiddleware_serves_by_limiter next (rs : list (Request * Time))
    (rl : HTTPRateLimiter L) :
  let served := ServeAll next rl rs in
  let direct := AllowEach (limiter rl) rs.*2 in
  fst served
  = zip_with (fun (ok : bool) r => if ok then next r else errorHandler rl r)
      (fst direct) rs.*1 /\
  limiter (snd served) = snd direct /\
  length (fst direct) = length rs /\
  forall kf : KeyFunc,
    fst (ServeAll next {| limiter := limiter rl; keyFunc := kf;
                          errorHandler := errorHandler rl;
                          limiters := limiters rl |} rs)
    = fst served.
Proof.
  cbv zeta.
  destruct (ServeAll_by_limiter next rs rl) as (Hresp & Hlim & _).
  split; [exact Hresp|]. split; [exact Hlim|]. split.
  - clear. generalize (limiter rl). induction rs as [|[r now] rs IH]; intros l;
      [reflexivity|].
    cbn [AllowEach fmap list_fmap snd]. destruct (Allow l now) as [ok l'].
    specialize (IH l'). destruct (AllowEach l' rs.*2) as [oks l''].
    cbn [fst length] in *. now rewrite IH.
  - intros kf. rewrite Hresp.
    now destruct (ServeAll_by_limiter next rs
                    {| limiter := limiter rl; keyFunc := kf;
                       errorHandler := errorHandler rl;
                       limiters := limiters rl |}) as (-> & _).
Qed.
End SingleFacts.

Section SingleBucket.
Import GoInt GoTime Middleware HTTPMiddleware.
Context `{Arch}.



End SingleBucket.

(** ** [KeyFuncs.Combination] *)

Section KeyFuncsFacts.
Import Middleware KeyFuncs.

Lemma append_assoc (a b c : string) :
  String.append (String.append a b) c = String.append a (String.append b c).
Proof.
  induction a as [|x a IH]; [reflexivity|].
  change (String x (String.append (String.append a b) c)
          = String x (String.append a (String.append b c))).
  now rewrite IH.
Qed.

(** [Combination] is not one-to-one on the keys it combines: the keys
    are joined by spaces, so a space inside a key reads as a
    boundary.  Two requests that differ in both keys get one combined
    key. *)
Theorem Combination_collides (f g : KeyFunc) (r1 r2 : Request) (a b c : string) :
  f r1 = String.append a (String.append " " b) -> g r1 = c ->
  f r2 = a -> g r2 = String.append b (String.append " " c) ->
  Combination [f; g] r1 = Combination [f; g] r2.
Proof.
  intros Hf1 Hg1 Hf2 Hg2. unfold Combination, Sprintf_v.
  cbn [map String.concat]. rewrite Hf1, Hg1, Hf2, Hg2.
  do 2 f_equal. rewrite !append_assoc. reflexivity.
Qed.
End KeyFuncsFacts.

(** ** One limiter per key: the registry as a map from keys to limiters *)

Section PerKeyFacts.
Import GoTime Middleware PerKeyView.
Context {L F : Type} `{RateLimiter L}.

Lemma NewWorld_separate (factory : LimiterFactory L F) (opts : option Options)
    (env0 : F) : separate (NewWorld factory opts env0).
Proof. intros k1 k2 p Hk. cbn in Hk. now rewrite lookup_empty in Hk. Qed.

Lemma NewWorld_limiterOf (factory : LimiterFactory L F) (opts : option Options)
    (env0 : F) (k : string) : limiterOf (NewWorld factory opts env0) k = None.
Proof. unfold limiterOf. cbn. now rewrite lookup_empty. Qed.

(** One request, in terms of the limiters the keys have.  The request
    is checked against the limiter of its key, a new one from the
    factory if the key has none yet; that limiter is the key's from
    then on, and the limiter of every other key is left as it is. *)
Lemma Middleware_step next (w : World L F) (r : Request) (now : Time) :
  wfWorld w -> separate w ->
  let key := keyFunc (self w) r in
  let l := default (fst (limiterFactory (self w) (env w))) (limiterOf w key) in
  exists w',
    Middleware next w r now
    = Some (if fst (Allow l now) then next r else errorHandler (self w) r, w') /\
    limiterOf w' key = Some (snd (Allow l now)) /\
    (forall k', k' <> key -> limiterOf w' k' = limiterOf w k') /\
    wfWorld w' /\ separate w' /\
    limiterFactory (self w') = limiterFactory (self w) /\
    keyFunc (self w') = keyFunc (self w) /\
    errorHandler (self w') = errorHandler (self w).
Proof.
  intros Hwf Hsep key l. subst l.
  unfold Middleware, callFactory, loadOrStore, LoadOrStore, allowAt. fold key.
  destruct (limiterFactory (self w) (env w)) as [cand e'] eqn:Hfac.
  cbn [self heap env limiters fst].
  destruct (limiters (self w) !! key) as [p|] eqn:Hkey.
  - pose proof (Hwf key p Hkey) as Hp.
    cbn [self heap env limiters].
    rewrite lookup_app_l by exact Hp.
    destruct (lookup_lt_is_Some_2 (heap w) p Hp) as [l0 Hl0].
    assert (Hlo : limiterOf w key = Some l0) by (unfold limiterOf; now rewrite Hkey).
    rewrite Hl0, Hlo. cbn [default from_option id].
    destruct (Allow l0 now) as [ok l']. cbn [fst snd].
    match goal with |- context [Some (next r, ?W)] => exists W end.
    split; [destruct ok; reflexivity|].
    unfold limiterOf, wfWorld, separate. cbn [self heap limiters].
    split; [|split; [|split; [|split]]].
    + rewrite Hkey. apply list_lookup_insert_eq. rewrite length_app. lia.
    + intros k' Hk'. destruct (limiters (self w) !! k') as [p'|] eqn:Hk'p; [|reflexivity].
      assert (p' <> p) by (intros ->; apply Hk'; eauto).
      rewrite list_lookup_insert_ne by congruence.
      apply lookup_app_l. eauto.
    + intros k0 p0 Hk0. rewrite length_insert, length_app.
      specialize (Hwf k0 p0 Hk0). lia.
    + exact Hsep.
    + auto.
  - assert (Hlo : limiterOf w key = None) by (unfold limiterOf; now rewrite Hkey).
    rewrite Hlo. cbn [self heap env limiters default from_option id].
    rewrite list_lookup_middle by reflexivity.
    destruct (Allow cand now) as [ok l']. cbn [fst snd].
    match goal with |- context [Some (next r, ?W)] => exists W end.
    split; [destruct ok; reflexivity|].
    unfold limiterOf, wfWorld, separate. cbn [self heap limiters].
    split; [|split; [|split; [|split]]].
    + rewrite lookup_insert_eq. apply list_lookup_insert_eq. rewrite length_app.
      cbn [length]. lia.
    + intros k' Hk'. rewrite lookup_insert_ne by congruence.
      destruct (limiters (self w) !! k') as [p'|] eqn:Hk'p; [|reflexivity].
      pose proof (Hwf k' p' Hk'p).
      rewrite list_lookup_insert_ne by lia.
      now apply lookup_app_l.
    + intros k0 p0. rewrite length_insert, length_app. cbn [length].
      destruct (decide (k0 = key)) as [->|Hne].
      * rewrite lookup_insert_eq. intros [= <-]. lia.
      * rewrite lookup_insert_ne by congruence. intros Hk0.
        specialize (Hwf k0 p0 Hk0). lia.
    + intros k1 k2 p0.
      destruct (decide (k1 = key)) as [->|Hne1], (decide (k2 = key)) as [->|Hne2];
        rewrite ?lookup_insert_eq, ?lookup_insert_ne by congruence; auto.
      * intros [= <-] Hk2. specialize (Hwf k2 _ Hk2). lia.
      * intros Hk1 [= <-]. specialize (Hwf k1 _ Hk1). lia.
      * apply Hsep.
    + auto.
Qed.

(** The step above, as a property of the middleware. *)
Theorem Middleware_checks_own_key next (w : World L F) (r : Request) (now : Time) :
  wfWorld w -> separate w ->
  let key := keyFunc (self w) r in
  let l := default (fst (limiterFactory (self w) (env w))) (limiterOf w key) in
  exists w',
    Middleware next w r now
    = Some (if fst (Allow l now) then next r else errorHandler (self w) r, w') /\
    limiterOf w' key = Some (snd (Allow l now)) /\
    (forall k', k' <> key -> limiterOf w' k' = limiterOf w k') /\
    wfWorld w' /\ separate w'.
Proof.
  intros Hwf Hsep key l.
  destruct (Middleware_step next w r now Hwf Hsep)
    as (w' & Hrun & Hkey & Hothers & Hwf' & Hsep' & _).
  exists w'. auto.
Qed.

(** Two worlds that agree on key [k]: serving the requests of all keys
    in one and only those of [k] in the other. *)
Lemma ServeAll_isolated next (k : string) (rs : list (Request * Time))
    (w wk : World L F) :
  (forall e e', fst (limiterFactory (self w) e) = fst (limiterFactory (self w) e')) ->
  wfWorld w -> separate w -> wfWorld wk -> separate wk ->
  limiterFactory (self wk) = limiterFactory (self w) ->
  keyFunc (self wk) = keyFunc (self w) ->
  errorHandler (self wk) = errorHandler (self w) ->
  limiterOf wk k = limiterOf w k ->
  exists resps w' resps_k wk',
    ServeAll next w rs = Some (resps, w') /\
    ServeAll next wk (filter (fun x => keyFunc (self w) x.1 = k) rs)
    = Some (resps_k, wk') /\
    resps_k = (filter (fun x : Request * Time * Response =>
                         keyFunc (self w) x.1.1 = k) (zip rs resps)).*2 /\
    limiterOf wk' k = limiterOf w' k.
Proof.
  intros Hstateless. revert w wk Hstateless.
  induction rs as [|[r now] rs IH];
    intros w wk Hstateless Hwf Hsep Hwfk Hsepk Hfac Hkf Heh Hk.
  - exists [], w, [], wk. cbn. auto.
  - destruct (Middleware_step next w r now Hwf Hsep)
      as (w1 & Hrun & Hkey & Hothers & Hwf1 & Hsep1 & Hfac1 & Hkf1 & Heh1).
    cbv zeta in *.
    destruct (decide (keyFunc (self w) r = k)) as [Hrk|Hrk].
    + destruct (Middleware_step next wk r now Hwfk Hsepk)
        as (wk1 & Hrunk & Hkeyk & _ & Hwfk1 & Hsepk1 & Hfack1 & Hkfk1 & Hehk1).
      cbv zeta in *. rewrite Hkf, Hfac, Heh, Hrk in *. rewrite Hk in Hrunk, Hkeyk.
      rewrite (Hstateless (env wk) (env w)) in Hrunk, Hkeyk.
      destruct (IH w1 wk1) as (resps & w' & resps_k & wk' & Hall & Hallk & Hresp & Hlim);
        try assumption; try congruence.
      { intros e e'. rewrite Hfac1. apply Hstateless. }
      rewrite Hkf1 in *.
      eexists (_ :: resps), w', (_ :: resps_k), wk'.
      cbn [ServeAll]. rewrite Hrun, Hall.
      rewrite filter_cons_True by exact Hrk.
      cbn [ServeAll]. rewrite Hrunk, Hallk.
      split; [reflexivity|]. split; [reflexivity|]. split; [|exact Hlim].
      cbn [zip zip_with]. rewrite filter_cons_True by exact Hrk.
      cbn [fmap list_fmap snd]. now rewrite Hresp.
    + destruct (IH w1 wk) as (resps & w' & resps_k & wk' & Hall & Hallk & Hresp & Hlim);
        try assumption; try congruence.
      { intros e e'. rewrite Hfac1. apply Hstateless. }
      { rewrite Hk. symmetry. apply Hothers. congruence. }
      rewrite Hkf1 in *.
      eexists (_ :: resps), w', resps_k, wk'.
      cbn [ServeAll]. rewrite Hrun, Hall.
      rewrite filter_cons_False by exact Hrk.
      split; [reflexivity|]. split; [exact Hallk|]. split; [|exact Hlim].
      cbn [zip zip_with]. rewrite filter_cons_False by exact Hrk. exact Hresp.
Qed.

(** The keys are limited apart.  With a factory that builds the same
    limiter at every call, the requests of a key get, from a new
    middleware, the responses they would get if the requests of all
    other keys were left out, and the key's limiter ends in the same
    state. *)
Theorem per_key_isolation next (factory : LimiterFactory L F)
    (opts : option Options) (env0 : F) (k : string) (rs : list (Request * Time)) :
  (forall e e', fst (factory e) = fst (factory e')) ->
  let w0 := NewWorld factory opts env0 in
  exists resps w' resps_k wk',
    ServeAll next w0 rs = Some (resps, w') /\
    ServeAll next w0 (filter (fun x => keyFunc (self w0) x.1 = k) rs)
    = Some (resps_k, wk') /\
    resps_k = (filter (fun x : Request * Time * Response =>
                         keyFunc (self w0) x.1.1 = k) (zip rs resps)).*2 /\
    limiterOf wk' k = limiterOf w' k.
Proof.
  intros Hstateless w0. subst w0.
  apply ServeAll_isolated; try reflexivity;
    [exact Hstateless|apply NewWorld_wf|apply NewWorld_separate
    |apply NewWorld_wf|apply NewWorld_separate].
Qed.

(** Requests whose keys are all new to the registry and differ from one
    another are each checked against a limiter of their own. *)
Lemma ServeAll_new_keys next (rs : list (Request * Time)) (w : World L F) :
  (forall e now, fst (Allow (fst (limiterFactory (self w) e)) now) = true) ->
  wfWorld w -> separate w ->
  NoDup ((fun x => keyFunc (self w) x.1) <$> rs) ->
  Forall (fun x => limiterOf w (keyFunc (self w) x.1) = None) rs ->
  exists w', ServeAll next w rs = Some (next <$> rs.*1, w').
Proof.
  revert w. induction rs as [|[r now] rs IH]; intros w Hfresh Hwf Hsep Hnd Hnew.
  - exists w. reflexivity.
  - destruct (Middleware_step next w r now Hwf Hsep)
      as (w1 & Hrun & Hkey & Hothers & Hwf1 & Hsep1 & Hfac1 & Hkf1 & Heh1).
    cbv zeta in *.
    apply Forall_cons in Hnew as [Hr Hnew]. cbn [fst] in Hr.
    rewrite Hr in Hrun. cbn [default] in Hrun. rewrite Hfresh in Hrun.
    cbn [fmap list_fmap fst] in Hnd. apply NoDup_cons in Hnd as [Hnotin Hnd].
    destruct (IH w1) as (w' & Hall).
    + intros e now'. rewrite Hfac1. apply Hfresh.
    + exact Hwf1.
    + exact Hsep1.
    + rewrite Hkf1. exact Hnd.
    + rewrite Hkf1. apply Forall_forall. intros x Hx.
      rewrite Hothers.
      * rewrite Forall_forall in Hnew. now apply Hnew.
      * intros Heq. apply Hnotin. rewrite <- Heq.
        apply (list_elem_of_fmap_2 (fun x => keyFunc (self w) x.1)), Hx.
    + exists w'. cbn [ServeAll fmap list_fmap fst]. now rewrite Hrun, Hall.
Qed.

(** The default key is the client's word.  With the default key
    function the key of a request is its [X-Forwarded-For] header
    whenever that is not empty.  So requests that carry pairwise
    different values in that header are each checked against a new
    limiter, and, if a new limiter admits its first call, all are
    served, whatever addresses they come from and however fast. *)
Theorem forwarded_for_selects_the_limiter next (factory : LimiterFactory L F)
    (env0 : F) (rs : list (Request * Time)) :
  (forall e now, fst (Allow (fst (factory e)) now) = true) ->
  NoDup ((fun x => Get (Header x.1) "X-Forwarded-For") <$> rs) ->
  Forall (fun x => Get (Header x.1) "X-Forwarded-For" <> EmptyString) rs ->
  exists w', ServeAll next (NewWorld factory None env0) rs = Some (next <$> rs.*1, w').
Proof.
  intros Hfresh Hnd Hne.
  assert (Hkey : Forall (fun x : Request * Time =>
            DefaultKeyFunc x.1 = Get (Header x.1) "X-Forwarded-For") rs).
  { eapply Forall_impl; [exact Hne|]. intros x Hx. cbn beta in Hx.
    unfold DefaultKeyFunc.
    destruct (String.eqb_spec (Get (Header x.1) "X-Forwarded-For") EmptyString);
      [contradiction|reflexivity]. }
  apply ServeAll_new_keys;
    [exact Hfresh|apply NewWorld_wf|apply NewWorld_separate| |].
  - cbn [NewWorld self NewPerKeyHTTPRateLimiter keyFunc].
    rewrite (Forall_fmap_ext_1 _ _ _ Hkey). exact Hnd.
  - apply Forall_forall. intros x _. apply NewWorld_limiterOf.
Qed.
End PerKeyFacts.

(** ** Package config *)

Section ConfigFacts.
Import GoTime Config.

(** The configurations [Validate] accepts. *)
Lemma Validate_nil (c : Config) :
  Validate c = None <-> 0 < Rate c <= Burst c /\ 0 <= Window c.
Proof.
  unfold Validate.
  destruct (Z.leb_spec (Rate c) 0), (Z.leb_spec (Burst c) 0),
    (Z.ltb_spec (Burst c) (Rate c)), (Z.ltb_spec (Window c) 0);
    split; intros; try discriminate; try reflexivity; lia.
Qed.

Lemma Add_stored (cs : ConfigSet) (name : string) (config : option Config) :
  fst (Add cs name config) = None <->
  name <> EmptyString /\ exists c, config = Some c /\ Validate c = None.
Proof.
  unfold Add. destruct (String.eqb_spec name EmptyString) as [->|Hne].
  - cbn. split; [discriminate|]. now intros [? _].
  - destruct config as [c|]; cbn.
    + destruct (Validate c) eqn:Hv; cbn.
      * split; [discriminate|]. intros (_ & c' & [= <-] & Hc). congruence.
      * split; [eauto|reflexivity].
    + split; [discriminate|]. now intros (_ & c & ? & _).
Qed.

Lemma applyOp_allValid (cs : ConfigSet) (op : Op) :
  allValid cs -> allValid (applyOp cs op).
Proof.
  intros Hcs. destruct op as [name config|name]; cbn [applyOp].
  - unfold Add. destruct (String.eqb_spec name EmptyString) as [->|Hne]; [exact Hcs|].
    destruct config as [c|]; [|exact Hcs].
    destruct (Validate c) eqn:Hv; [exact Hcs|].
    intros name' c'. cbn [snd configs].
    destruct (decide (name' = name)) as [->|Hne'].
    + rewrite lookup_insert_eq. intros [= <-]. auto.
    + rewrite lookup_insert_ne by congruence. apply Hcs.
  - intros name' c'. cbn [Remove configs]. intros Hl.
    apply lookup_delete_Some in Hl as [_ Hl]. now apply Hcs.
Qed.

Lemma applyAll_allValid (ops : list Op) (cs : ConfigSet) :
  allValid cs -> allValid (applyAll cs ops).
Proof.
  revert cs. induction ops as [|op ops IH]; intros cs Hcs; [exact Hcs|].
  cbn [applyAll fold_left]. apply IH, applyOp_allValid, Hcs.
Qed.

(** The sets reached from a new one by [Add] and [Remove].  Every
    config [Get] finds is under a name that is not empty and is valid:
    its rate is positive, its burst at least its rate and its window
    not negative.  [Names] lists each name [Get] finds once, and no
    other. *)
Theorem ConfigSet_holds_valid_configs (ops : list Op) :
  let cs := applyAll NewConfigSet ops in
  (forall name c, Get cs name = (Some c, true) ->
     name <> EmptyString /\ 0 < Rate c <= Burst c /\ 0 <= Window c) /\
  (forall name, snd (Get cs name) = true <-> name ∈ Names cs) /\
  (forall name, snd (Get cs name) = false <-> fst (Get cs name) = None) /\
  NoDup (Names cs).
Proof.
  cbv zeta.
  assert (Hvalid : allValid (applyAll NewConfigSet ops)).
  { apply applyAll_allValid. intros name c Hl. cbn in Hl.
    now rewrite lookup_empty in Hl. }
  set (cs := applyAll NewConfigSet ops) in *.
  split; [|split; [|split]].
  - intros name c. unfold Get.
    destruct (configs cs !! name) as [c'|] eqn:Hl; [|discriminate].
    intros [= <-]. destruct (Hvalid name c' Hl) as [Hne Hv].
    split; [exact Hne|]. now apply Validate_nil.
  - intros name. unfold Get, Names.
    rewrite list_elem_of_fmap.
    destruct (configs cs !! name) as [c|] eqn:Hl; cbn [snd].
    + split; [|reflexivity]. intros _. exists (name, c).
      split; [reflexivity|]. now apply elem_of_map_to_list.
    + split; [discriminate|]. intros ([name' c] & -> & Hin).
      apply elem_of_map_to_list in Hin. cbn [fst] in Hl. congruence.
  - intros name. unfold Get.
    destruct (configs cs !! name); cbn; split; congruence.
  - apply NoDup_fst_map_to_list.
Qed.

(** [Add], [Get] and [Remove].  [Add] stores the config exactly when
    the name is not empty, the config is not [nil] and it is valid, and
    [Get] then finds it under the name; a refused [Add] leaves the set
    as it is.  After [Remove] the name is not found.  Neither touches
    another name. *)
Theorem ConfigSet_round_trip (cs : ConfigSet) (name : string)
    (config : option Config) :
  (fst (Add cs name config) = None <->
   name <> EmptyString /\
   exists c, config = Some c /\ 0 < Rate c <= Burst c /\ 0 <= Window c) /\
  (fst (Add cs name config) = None ->
   Get (snd (Add cs name config)) name = (config, true)) /\
  (fst (Add cs name config) <> None -> snd (Add cs name config) = cs) /\
  (forall name', name' <> name ->
     Get (snd (Add cs name config)) name' = Get cs name') /\
  Get (Remove cs name) name = (None, false) /\
  (forall name', name' <> name -> Get (Remove cs name) name' = Get cs name').
Proof.
  split; [|split; [|split; [|split; [|split]]]].
  - rewrite Add_stored. split; intros (Hne & c & Hc & Hv); (split; [exact Hne|]);
      exists c; (split; [exact Hc|]); now apply Validate_nil.
  - intros Hok. apply Add_stored in Hok as (Hne & c & -> & Hv).
    unfold Add. destruct (String.eqb_spec name EmptyString); [contradiction|].
    rewrite Hv. unfold Get. cbn [snd configs]. now rewrite lookup_insert_eq.
  - unfold Add. destruct (String.eqb name EmptyString); [reflexivity|].
    destruct config as [c|]; [|reflexivity].
    destruct (Validate c); [reflexivity|]. cbn. congruence.
  - intros name' Hne. unfold Add.
    destruct (String.eqb name EmptyString); [reflexivity|].
    destruct config as [c|]; [|reflexivity].
    destruct (Validate c); [reflexivity|].
    unfold Get. cbn [snd configs]. now rewrite lookup_insert_ne by congruence.
  - unfold Get, Remove. cbn [configs]. now rewrite lookup_delete_eq.
  - intros name' Hne. unfold Get, Remove. cbn [configs].
    now rewrite lookup_delete_ne by congruence.
Qed.
End ConfigFacts.

(** ** Package config: [Clone] and [Build] *)

Section CloneFacts.
Import GoTime Config.
#[local] Open Scope nat_scope.

Lemma wfSlice_lt (h : Heap) (s : Slice) : wfSlice h s -> arr s < length (arrays h).
Proof. intros (a & Ha & _). now apply lookup_lt_Some in Ha. Qed.

Lemma readSlice_length (h : Heap) (s : Slice) :
  wfSlice h s -> length (readSlice h s) = len s.
Proof.
  intros (a & Ha & Hb). unfold readSlice. rewrite Ha. cbn [default from_option id].
  rewrite length_take, length_drop. lia.
Qed.

(** Reading a slice looks at the array of the slice only. *)
Lemma readSlice_ext (h h' : Heap) (s : Slice) :
  arrays h' !! arr s = arrays h !! arr s -> readSlice h' s = readSlice h s.
Proof. unfold readSlice. now intros ->. Qed.

Lemma readSlice_grow (h : Heap) (s : Slice) (new : list (list string))
    (ms : list (gmap string string)) :
  arr s < length (arrays h) ->
  readSlice {| arrays := arrays h ++ new; maps := ms |} s = readSlice h s.
Proof. intros Hs. apply readSlice_ext. cbn [arrays]. now apply lookup_app_l. Qed.

Lemma readSlice_whole (l1 l2 : list (list string)) (x : list string)
    (ms : list (gmap string string)) :
  readSlice {| arrays := l1 ++ x :: l2; maps := ms |}
    {| arr := length l1; off := 0; len := length x |} = x.
Proof.
  unfold readSlice. cbn [arrays arr off len].
  rewrite list_lookup_middle by reflexivity. cbn [default from_option id drop].
  apply take_ge. lia.
Qed.

Lemma wfSlice_grow (h : Heap) (s : Slice) (new : list (list string))
    (ms : list (gmap string string)) :
  wfSlice h s -> wfSlice {| arrays := arrays h ++ new; maps := ms |} s.
Proof.
  intros (a & Ha & Hb). exists a. split; [|exact Hb].
  cbn [arrays]. rewrite lookup_app_l; [exact Ha|]. now apply lookup_lt_Some in Ha.
Qed.

Lemma writeSlice_other (h h' : Heap) (s s0 : Slice) (i : nat) (v : string) :
  writeSlice h s i v = Some h' -> arr s0 <> arr s ->
  readSlice h' s0 = readSlice h s0.
Proof.
  unfold writeSlice. destruct (i <? len s); [|discriminate].
  intros [= <-] Hne. apply readSlice_ext. cbn [arrays].
  apply list_lookup_alter_ne. congruence.
Qed.

Lemma writeMap_other (h : Heap) (a a0 : nat) (k v : string) :
  a0 <> a -> readMap (writeMap h a k v) a0 = readMap h a0.
Proof.
  intros Hne. unfold readMap, writeMap. cbn [maps].
  rewrite list_lookup_alter_ne by congruence. reflexivity.
Qed.

Lemma cloneSlice_spec (h : Heap) (s : option Slice) :
  (forall src, s = Some src -> wfSlice h src) ->
  fst (cloneSlice h s)
  = (fun src => {| arr := length (arrays h); off := 0; len := len src |}) <$> s /\
  arrays (snd (cloneSlice h s)) = arrays h ++ optList (readSlice h <$> s) /\
  maps (snd (cloneSlice h s)) = maps h.
Proof.
  intros Hwf. destruct s as [src|]; cbn [cloneSlice makeSlice fst snd fmap option_fmap
    option_map optList]; [|now rewrite app_nil_r].
  specialize (Hwf src eq_refl).
  split; [reflexivity|]. split; [|reflexivity].
  unfold copySlice. cbn [arrays maps arr off len].
  rewrite Nat.min_id.
  rewrite (readSlice_grow h src [replicate (len src) EmptyString] (maps h))
    by now apply wfSlice_lt.
  pose proof (readSlice_length h src Hwf) as Hlen.
  rewrite (take_ge (readSlice h src)) by lia.
  replace (length (arrays h)) with (length (arrays h) + 0) at 1 by lia.
  rewrite alter_app_r. cbn [alter list_alter take app Nat.add].
  rewrite Hlen, drop_ge by (rewrite length_replicate; lia).
  now rewrite app_nil_r.
Qed.

Lemma cloneMap_spec (h : Heap) (m : option nat) :
  fst (cloneMap h m) = (fun _ => length (maps h)) <$> m /\
  arrays (snd (cloneMap h m)) = arrays h /\
  maps (snd (cloneMap h m)) = maps h ++ optList (readMap h <$> m).
Proof.
  destruct m as [a|]; cbn [cloneMap makeMap fst snd fmap option_fmap option_map optList];
    [|now rewrite app_nil_r].
  split; [reflexivity|].
  set (P := fun (acc : Heap) (m' : gmap string string) =>
              arrays acc = arrays h /\ maps acc = maps h ++ [m']).
  enough (P (map_fold (fun k v h' => writeMap h' (length (maps h)) k v)
               {| arrays := arrays h; maps := maps h ++ [∅] |} (readMap h a))
            (readMap h a)) as [? ?] by auto.
  apply (map_fold_weak_ind P).
  - split; reflexivity.
  - intros k v m' acc _ [Harr Hmaps]. unfold P, writeMap. cbn [arrays maps].
    split; [exact Harr|]. rewrite Hmaps.
    replace (length (maps h)) with (length (maps h) + 0) by lia.
    now rewrite alter_app_r.
Qed.

(** What [Clone] allocates and returns. *)
Lemma Clone_spec (h : Heap) (c : Config) :
  wfConfig h c ->
  let c' := fst (Clone h c) in
  let h' := snd (Clone h c) in
  let n := length (arrays h) in
  (Rate c' = Rate c /\ Burst c' = Burst c /\ Window c' = Window c /\
   Name c' = Name c /\ Enabled c' = Enabled c /\
   PerKeyLimits c' = PerKeyLimits c /\ ErrorMessage c' = ErrorMessage c) /\
  ExcludedPaths c'
  = (fun src => {| arr := n; off := 0; len := len src |}) <$> ExcludedPaths c /\
  ExcludedIPs c'
  = (fun src => {| arr := n + length (optList (ExcludedPaths c)); off := 0;
                   len := len src |}) <$> ExcludedIPs c /\
  CustomHeaders c' = (fun _ => length (maps h)) <$> CustomHeaders c /\
  arrays h' = arrays h ++ optList (readSlice h <$> ExcludedPaths c)
                       ++ optList (readSlice h <$> ExcludedIPs c) /\
  maps h' = maps h ++ optList (readMap h <$> CustomHeaders c).
Proof.
  intros (Hp & Hi & Hm). cbv zeta. unfold Clone.
  destruct (cloneSlice_spec h (ExcludedPaths c) Hp) as (Hp1 & Hp2 & Hp3).
  destruct (cloneSlice h (ExcludedPaths c)) as [paths h1]. cbn [fst snd] in *.
  assert (Hi' : forall src, ExcludedIPs c = Some src -> wfSlice h1 src).
  { intros src Hsrc. destruct h1 as [a1 m1]. cbn [arrays maps] in *. subst a1.
    now apply wfSlice_grow, Hi. }
  destruct (cloneSlice_spec h1 (ExcludedIPs c) Hi') as (Hi1 & Hi2 & Hi3).
  destruct (cloneSlice h1 (ExcludedIPs c)) as [ips h2]. cbn [fst snd] in *.
  destruct (cloneMap_spec h2 (CustomHeaders c)) as (Hm1 & Hm2 & Hm3).
  destruct (cloneMap h2 (CustomHeaders c)) as [headers h3]. cbn [fst snd] in *.
  cbn [Rate Burst Window Name Enabled PerKeyLimits ErrorMessage ExcludedPaths
       ExcludedIPs CustomHeaders].
  split; [repeat split|]. split; [exact Hp1|].
  assert (Hread : forall src, ExcludedIPs c = Some src ->
                    readSlice h1 src = readSlice h src).
  { intros src Hsrc. destruct h1 as [a1 m1]. cbn [arrays maps] in *. subst a1.
    apply readSlice_grow, wfSlice_lt, Hi, Hsrc. }
  assert (HreadM : forall a, CustomHeaders c = Some a -> readMap h2 a = readMap h a).
  { intros a _. unfold readMap. now rewrite Hi3, Hp3. }
  split; [|split; [|split]].
  - rewrite Hi1, Hp2, length_app.
    destruct (ExcludedPaths c), (ExcludedIPs c); reflexivity.
  - rewrite Hm1, Hi3, Hp3. reflexivity.
  - rewrite Hm2, Hi2, Hp2, <- app_assoc. do 2 f_equal.
    destruct (ExcludedIPs c) as [src|]; [|reflexivity].
    cbn. now rewrite Hread.
  - rewrite Hm3, Hi3, Hp3. f_equal.
    destruct (CustomHeaders c) as [a|]; [|reflexivity].
    cbn. now rewrite HreadM.
Qed.

(** [Clone] is a deep copy.  The clone has the fields of the original;
    its slices and its map hold what the original's hold, and are [nil]
    where the original's are; and they are the clone's own: an element
    written through a slice of the clone, or an entry written to its
    map, leaves what the original holds as it was, and the other way
    round. *)
Theorem Clone_is_deep (h : Heap) (c : Config) :
  wfConfig h c ->
  let c' := fst (Clone h c) in
  let h' := snd (Clone h c) in
  (Rate c' = Rate c /\ Burst c' = Burst c /\ Window c' = Window c /\
   Name c' = Name c /\ Enabled c' = Enabled c /\
   PerKeyLimits c' = PerKeyLimits c /\ ErrorMessage c' = ErrorMessage c) /\
  (readSlice h' <$> ExcludedPaths c' = readSlice h <$> ExcludedPaths c /\
   readSlice h' <$> ExcludedIPs c' = readSlice h <$> ExcludedIPs c /\
   readMap h' <$> CustomHeaders c' = readMap h <$> CustomHeaders c) /\
  (readSlice h' <$> ExcludedPaths c = readSlice h <$> ExcludedPaths c /\
   readSlice h' <$> ExcludedIPs c = readSlice h <$> ExcludedIPs c /\
   readMap h' <$> CustomHeaders c = readMap h <$> CustomHeaders c) /\
  (forall s' i v h'',
     ExcludedPaths c' = Some s' \/ ExcludedIPs c' = Some s' ->
     writeSlice h' s' i v = Some h'' ->
     readSlice h'' <$> ExcludedPaths c = readSlice h <$> ExcludedPaths c /\
     readSlice h'' <$> ExcludedIPs c = readSlice h <$> ExcludedIPs c) /\
  (forall s i v h'',
     ExcludedPaths c = Some s \/ ExcludedIPs c = Some s ->
     writeSlice h' s i v = Some h'' ->
     readSlice h'' <$> ExcludedPaths c' = readSlice h <$> ExcludedPaths c /\
     readSlice h'' <$> ExcludedIPs c' = readSlice h <$> ExcludedIPs c) /\
  (forall a' k v,
     CustomHeaders c' = Some a' ->
     readMap (writeMap h' a' k v) <$> CustomHeaders c
     = readMap h <$> CustomHeaders c) /\
  (forall a k v,
     CustomHeaders c = Some a ->
     readMap (writeMap h' a k v) <$> CustomHeaders c'
     = readMap h <$> CustomHeaders c).
Proof.
  intros Hwf. pose proof (Clone_spec h c Hwf) as Hspec. cbv zeta in *.
  destruct Hwf as (Hp & Hi & Hm).
  destruct (Clone h c) as [c' h']. cbn [fst snd] in *.
  destruct Hspec as (Hscalars & Hp' & Hi' & Hm' & Harr & Hmaps).
  destruct h' as [arr' maps']. cbn [arrays maps] in Harr, Hmaps. subst arr' maps'.
  set (new := optList (readSlice h <$> ExcludedPaths c)
              ++ optList (readSlice h <$> ExcludedIPs c)) in *.
  set (newm := optList (readMap h <$> CustomHeaders c)) in *.
  (* the original's slices and map, read in the heap after the call *)
  assert (Hold : forall s, ExcludedPaths c = Some s \/ ExcludedIPs c = Some s ->
                   arr s < length (arrays h)).
  { intros s [Hs|Hs]; apply wfSlice_lt; auto. }
  assert (HoldM : forall hx a, CustomHeaders c = Some a ->
            maps hx = maps h ++ newm -> readMap hx a = readMap h a).
  { intros hx a Ha Hhx. unfold readMap. rewrite Hhx.
    now rewrite lookup_app_l by (apply Hm, Ha). }
  (* the clone's slices and map, read in it *)
  assert (HnewP : forall hx s', ExcludedPaths c' = Some s' ->
            arrays hx !! arr s' = (arrays h ++ new) !! arr s' ->
            Some (readSlice hx s') = readSlice h <$> ExcludedPaths c).
  { intros hx s' Hs' Hhx. rewrite Hp' in Hs'.
    destruct (ExcludedPaths c) as [src|] eqn:Hsrc; [|discriminate].
    injection Hs' as <-. cbn [fmap option_fmap option_map]. f_equal.
    rewrite (readSlice_ext {| arrays := arrays h ++ new; maps := maps h |} hx)
      by exact Hhx.
    subst new. cbn [fmap option_fmap option_map optList app].
    rewrite <- (readSlice_length h src) by (apply Hp; reflexivity).
    apply readSlice_whole. }
  assert (HnewI : forall hx s', ExcludedIPs c' = Some s' ->
            arrays hx !! arr s' = (arrays h ++ new) !! arr s' ->
            Some (readSlice hx s') = readSlice h <$> ExcludedIPs c).
  { intros hx s' Hs' Hhx. rewrite Hi' in Hs'.
    destruct (ExcludedIPs c) as [src|] eqn:Hsrc; [|discriminate].
    injection Hs' as <-. cbn [fmap option_fmap option_map]. f_equal.
    rewrite (readSlice_ext {| arrays := arrays h ++ new; maps := maps h |} hx)
      by exact Hhx.
    subst new. cbn [fmap option_fmap option_map optList].
    rewrite <- (readSlice_length h src) by (apply Hi; reflexivity).
    rewrite app_assoc.
    replace (length (arrays h) + length (optList (ExcludedPaths c)))
      with (length (arrays h ++ optList (readSlice h <$> ExcludedPaths c)))
      by (rewrite length_app; destruct (ExcludedPaths c); reflexivity).
    cbn [app]. apply readSlice_whole. }
  assert (HnewM : forall hx a', CustomHeaders c' = Some a' ->
            maps hx !! a' = (maps h ++ newm) !! a' ->
            Some (readMap hx a') = readMap h <$> CustomHeaders c).
  { intros hx a' Ha' Hhx. rewrite Hm' in Ha'.
    destruct (CustomHeaders c) as [a|] eqn:Ha; [|discriminate].
    injection Ha' as <-. cbn [fmap option_fmap option_map]. f_equal.
    unfold readMap at 1. rewrite Hhx. subst newm.
    cbn [fmap option_fmap option_map optList].
    now rewrite list_lookup_middle by reflexivity. }
  assert (Hfresh : forall s', ExcludedPaths c' = Some s' \/ ExcludedIPs c' = Some s' ->
                     length (arrays h) <= arr s').
  { intros s' [Hs'|Hs']; [rewrite Hp' in Hs'|rewrite Hi' in Hs'].
    - destruct (ExcludedPaths c); [|discriminate]. injection Hs' as <-. cbn. lia.
    - destruct (ExcludedIPs c); [|discriminate]. injection Hs' as <-. cbn. lia. }
  assert (Hread : forall hx o,
            (forall s, o = Some s -> readSlice hx s = readSlice h s) ->
            readSlice hx <$> o = readSlice h <$> o).
  { intros hx [s|] Ho; [|reflexivity]. cbn. f_equal. now apply Ho. }
  assert (HreadN : forall hx o o',
            (forall s', o' = Some s' -> Some (readSlice hx s') = readSlice h <$> o) ->
            (o' = None -> o = None) ->
            readSlice hx <$> o' = readSlice h <$> o).
  { intros hx o [s'|] Ho Hnone; [cbn; now apply Ho|]. now rewrite Hnone. }
  assert (HnoneP : ExcludedPaths c' = None -> ExcludedPaths c = None)
    by (rewrite Hp'; now destruct (ExcludedPaths c)).
  assert (HnoneI : ExcludedIPs c' = None -> ExcludedIPs c = None)
    by (rewrite Hi'; now destruct (ExcludedIPs c)).
  split; [exact Hscalars|]. split; [|split; [|split; [|split; [|split]]]].
  - split; [|split].
    + apply HreadN; [|exact HnoneP]. intros s' Hs'. now apply HnewP.
    + apply HreadN; [|exact HnoneI]. intros s' Hs'. now apply HnewI.
    + destruct (CustomHeaders c') as [a'|] eqn:Ha'.
      * cbn. now apply HnewM.
      * rewrite Hm' in Ha'. now destruct (CustomHeaders c).
  - split; [|split].
    + apply Hread. intros s Hs. apply readSlice_grow, Hold. auto.
    + apply Hread. intros s Hs. apply readSlice_grow, Hold. auto.
    + destruct (CustomHeaders c) as [a|] eqn:Ha; [|reflexivity].
      cbn. f_equal. now apply HoldM.
  - intros s' i v h'' Hs' Hw. pose proof (Hfresh s' Hs') as Hf.
    split; apply Hread; intros s Hs;
      (rewrite (writeSlice_other _ _ _ s _ _ Hw);
       [apply readSlice_grow, Hold; auto|]);
      (assert (arr s < length (arrays h)) by (apply Hold; auto); lia).
  - intros s i v h'' Hs Hw. pose proof (Hold s Hs) as Hlt.
    assert (Hkeep : forall s', ExcludedPaths c' = Some s' \/ ExcludedIPs c' = Some s' ->
              arrays h'' !! arr s' = (arrays h ++ new) !! arr s').
    { intros s' Hs'. pose proof (Hfresh s' Hs').
      unfold writeSlice in Hw. destruct (i <? len s); [|discriminate].
      injection Hw as <-. cbn [arrays]. apply list_lookup_alter_ne. lia. }
    split; (apply HreadN; [|assumption]); intros s' Hs';
      [apply HnewP|apply HnewI]; auto.
  - intros a' k v Ha'.
    destruct (CustomHeaders c) as [a|] eqn:Ha; [|reflexivity].
    cbn. f_equal. rewrite writeMap_other.
    + now apply HoldM.
    + rewrite Hm' in Ha'. injection Ha' as <-. specialize (Hm a eq_refl). lia.
  - intros a k v Ha. rewrite Ha in Hm'. cbn in Hm'. rewrite Hm'. cbn.
    rewrite writeMap_other by (specialize (Hm a Ha); lia).
    apply HnewM; [exact Hm'|reflexivity].
Qed.

(** [Build].  It answers a config exactly when the builder's config is
    valid, that is when its rate is positive, its burst at least its
    rate and its window not negative; the config is then a clone of the
    builder's, so it is valid, has the fields the builder holds and
    what the builder's slices and map hold.  Otherwise it answers the
    error of [Validate] and no config, and allocates nothing. *)
Theorem Build_validates_and_clones (h : Heap) (b : Builder) :
  wfConfig h (config b) ->
  let c := config b in
  ((0 < Rate c <= Burst c /\ 0 <= Window c)%Z ->
   exists c' h',
     Build h b = (Some c', None, h') /\ (c', h') = Clone h c /\
     Validate c' = None /\
     (Rate c' = Rate c /\ Burst c' = Burst c /\ Window c' = Window c /\
      Name c' = Name c /\ Enabled c' = Enabled c /\
      PerKeyLimits c' = PerKeyLimits c /\ ErrorMessage c' = ErrorMessage c)) /\
  (~ (0 < Rate c <= Burst c /\ 0 <= Window c)%Z ->
   exists err, Build h b = (None, Some err, h) /\ Validate c = Some err).
Proof.
  intros Hwf c. subst c. unfold Build. split.
  - intros Hvalid. pose proof (proj2 (Validate_nil (config b)) Hvalid) as Hv.
    rewrite Hv. destruct (Clone_spec h (config b) Hwf) as (Hscalars & _).
    cbv zeta in Hscalars.
    destruct (Clone h (config b)) as [c' h']. cbn [fst] in Hscalars.
    exists c', h'. split; [reflexivity|]. split; [reflexivity|].
    split; [|exact Hscalars].
    destruct Hscalars as (Hr & Hb & Hw & _).
    apply Validate_nil. rewrite Hr, Hb, Hw. exact Hvalid.
  - intros Hinvalid. destruct (Validate (config b)) as [err|] eqn:Hv.
    + exists err. auto.
    + exfalso. now apply Hinvalid, Validate_nil.
Qed.

(** The defaults of a new builder decide what a partial configuration
    is worth.  With the rate alone set, [Build] answers a config exactly
    for the rates from 1 to 20, the default burst; with the burst alone
    set, exactly from 10, the default rate, upwards; with both set,
    exactly when the rate is positive and at most the burst, in
    whichever order they are set. *)
Theorem Builder_defaults (h : Heap) (r b : Z) :
  ((exists c', fst (fst (Build h (WithRate NewBuilder r))) = Some c')
   <-> (1 <= r <= 20)%Z) /\
  ((exists c', fst (fst (Build h (WithBurst NewBuilder b))) = Some c')
   <-> (10 <= b)%Z) /\
  ((exists c', fst (fst (Build h (WithBurst (WithRate NewBuilder r) b))) = Some c')
   <-> (0 < r <= b)%Z) /\
  Build h (WithRate (WithBurst NewBuilder b) r)
  = Build h (WithBurst (WithRate NewBuilder r) b).
Proof.
  assert (Hbuilt : forall bld,
            (exists c', fst (fst (Build h bld)) = Some c')
            <-> Validate (config bld) = None).
  { intros bld. unfold Build. destruct (Validate (config bld)) as [err|].
    - cbn. split; [intros [c' Hc']; discriminate|discriminate].
    - destruct (Clone h (config bld)) as [c' h']. cbn. split; eauto. }
  rewrite !Hbuilt, !Validate_nil.
  cbn [WithRate WithBurst NewBuilder config DefaultConfig Rate Burst Window].
  unfold Second. repeat split; try lia; reflexivity.
Qed.
End CloneFacts.

(** ** The further theorems at concrete inputs *)

Section BucketWitnesses.
Import GoTime Main.

Lemma zero_rate_never_refills_witness :
  fst (@AllowAll amd64 (NewRateLimiter 0 2 0) [0; 5; 7]) = [true; true; false] /\
  tokens (snd (@AllowAll amd64 (NewRateLimiter 0 2 0) [0; 5; 7])) = 0.
Proof.
  apply (@zero_rate_never_refills amd64 [0; 5; 7] (NewRateLimiter 0 2 0));
    vm_compute; intuition discriminate.
Defined.

Lemma Wait_zero_rate_panics_witness :
  @Wait amd64 {| rate := 0; burst := 2; tokens := 0; lastUpdate := 0 |} [3; 4]
  = (Panicked {| rate := 0; burst := 2; tokens := 0; lastUpdate := 3 |}, []).
Proof.
  apply (@Wait_zero_rate_panics amd64 3 [4]
           {| rate := 0; burst := 2; tokens := 0; lastUpdate := 0 |});
    vm_compute; intuition discriminate.
Defined.

Lemma Allow_after_one_second_witness :
  fst (@Allow arm64 {| rate := 1; burst := 1; tokens := 0; lastUpdate := 0 |}
         1000000000) = true.
Proof.
  apply (@Allow_after_one_second arm64
           {| rate := 1; burst := 1; tokens := 0; lastUpdate := 0 |} 1000000000);
    vm_compute; intuition discriminate.
Defined.

Lemma Wait_returns_after_one_second_witness :
  exists rl',
    fst (@Wait amd64 {| rate := 1; burst := 1; tokens := 0; lastUpdate := 0 |}
           ([500000000] ++ 1500000000 :: [1600000000])) = Acquired rl' /\
    le (length (snd (@Wait amd64 {| rate := 1; burst := 1; tokens := 0;
                                    lastUpdate := 0 |}
                       ([500000000] ++ 1500000000 :: [1600000000]))))
       (length [500000000]).
Proof.
  apply (@Wait_returns_after_one_second amd64 [500000000] 1500000000 [1600000000]
           {| rate := 1; burst := 1; tokens := 0; lastUpdate := 0 |});
    vm_compute; intuition discriminate.
Defined.

Lemma Wait_at_retry_delay_witness :
  (1000 mod 3 = 0 ->
   @Wait amd64 {| rate := 3; burst := 5; tokens := 0; lastUpdate := 0 |}
     (every (1000 / 3 * Millisecond) 0 3)
   = (Acquired {| rate := 3; burst := 5; tokens := 0;
                  lastUpdate := 0 + 1000 / 3 * Millisecond |}, [])) /\
  (1000 mod 3 <> 0 ->
   @Wait amd64 {| rate := 3; burst := 5; tokens := 0; lastUpdate := 0 |}
     (every (1000 / 3 * Millisecond) 0 2)
   = (Sleeping {| rate := 3; burst := 5; tokens := 0;
                  lastUpdate := 0 + Z.of_nat 2 * (1000 / 3 * Millisecond) |},
      repeat (1000 / 3 * Millisecond) 2)).
Proof.
  apply (@Wait_at_retry_delay amd64 2 3 5 0); vm_compute; intuition discriminate.
Defined.
End BucketWitnesses.

Section StatsWitnesses.
Import GoTime Stats Decorated.

Lemma decorator_counts_answers_witness :
  let r := NewRateLimiterWithStats
             {| allowReturn := true; allowCount := 0; waitCount := 0 |} 0 in
  fst (AllowEachWithStats r [(1, 2); (3, 4)]) = [true; true] /\
  AllowedRequests (stats (snd (AllowEachWithStats r [(1, 2); (3, 4)]))) = 2 /\
  DeniedRequests (stats (snd (AllowEachWithStats r [(1, 2); (3, 4)]))) = 0 /\
  TotalRequests (stats (snd (AllowEachWithStats r [(1, 2); (3, 4)]))) = 2.
Proof.
  cbv zeta.
  destruct (decorator_counts_answers [(1, 2); (3, 4)]
              (NewRateLimiterWithStats
                 {| allowReturn := true; allowCount := 0; waitCount := 0 |} 0))
    as (Hoks & _ & Ha & Hd & Ht).
  - vm_compute. intuition discriminate.
  - split; [exact Hoks|split; [exact Ha|split; [exact Hd|exact Ht]]].
Defined.

Lemma WaitWithStats_skips_denials_witness :
  let r := {| limiter := {| Main.rate := 1; Main.burst := 1; Main.tokens := 0;
                            Main.lastUpdate := 0 |};
              stats := NewStats 0 |} in
  exists r',
    @WaitWithStats _ (@bucket_RateLimiter amd64) r [500000000; 1500000000]
      1600000000 = Some r' /\
    AllowedRequests (stats r') = 1 /\ DeniedRequests (stats r') = 0.
Proof.
  cbv zeta.
  destruct (@WaitWithStats_skips_denials amd64
              {| limiter := {| Main.rate := 1; Main.burst := 1; Main.tokens := 0;
                               Main.lastUpdate := 0 |};
                 stats := NewStats 0 |}
              [500000000; 1500000000] 1600000000
              {| Main.rate := 1; Main.burst := 1; Main.tokens := 0;
                 Main.lastUpdate := 1500000000 |})
    as (r' & Hw & _ & _ & _ & Ha & _ & Hd & _).
  - vm_compute. reflexivity.
  - vm_compute. intuition discriminate.
  - exists r'. split; [exact Hw|split; [exact Ha|exact Hd]].
Defined.
End StatsWitnesses.

Section SingleWitnesses.
Import GoTime Middleware HTTPMiddleware KeyFuncs.


Lemma Combination_collides_witness :
  Combination [RemoteAddr; Path]
    {| Header := ∅; RemoteAddr := "a b"; Path := "c" |}
  = Combination [RemoteAddr; Path]
      {| Header := ∅; RemoteAddr := "a"; Path := "b c" |}.
Proof.
  apply (Combination_collides RemoteAddr Path _ _ "a" "b" "c"); reflexivity.
Defined.

End SingleWitnesses.

Section PerKeyWitnesses.
Import GoTime Middleware PerKeyView.

Lemma Middleware_checks_own_key_witness :
  let factory : LimiterFactory mockRateLimiter nat :=
    fun n => ({| allowReturn := true; callCount := 0 |}, S n) in
  let next : Handler := fun _ => {| Code := 200; Body := "ok" |} in
  let r := {| Header := ∅; RemoteAddr := "10.0.0.1:4000"; Path := "/a" |} in
  exists w',
    Middleware next (NewWorld factory None 0%nat) r 0
    = Some ({| Code := 200; Body := "ok" |}, w') /\
    limiterOf w' "10.0.0.1:4000" = Some {| allowReturn := true; callCount := 1 |}.
Proof.
  cbv zeta.
  destruct (Middleware_checks_own_key
              (fun _ => {| Code := 200; Body := "ok" |})
              (NewWorld (fun n => ({| allowReturn := true; callCount := 0 |}, S n))
                 None 0%nat)
              {| Header := ∅; RemoteAddr := "10.0.0.1:4000"; Path := "/a" |} 0)
    as (w' & Hrun & Hkey & _).
  - apply NewWorld_wf.
  - apply NewWorld_separate.
  - exists w'. split; [exact Hrun|exact Hkey].
Defined.

Lemma per_key_isolation_witness :
  let factory : LimiterFactory mockRateLimiter nat :=
    fun n => ({| allowReturn := true; callCount := 0 |}, S n) in
  let next : Handler := fun _ => {| Code := 200; Body := "ok" |} in
  let q (addr : string) := {| Header := ∅; RemoteAddr := addr; Path := "/a" |} in
  let rs := [(q "10.0.0.1", 0); (q "10.0.0.2", 1); (q "10.0.0.1", 2)] in
  let w0 := NewWorld factory None 0%nat in
  exists resps w' resps_k wk',
    ServeAll next w0 rs = Some (resps, w') /\
    ServeAll next w0 (filter (fun x => keyFunc (self w0) x.1 = "10.0.0.1") rs)
    = Some (resps_k, wk') /\
    resps_k = (filter (fun x : Request * Time * Response =>
                         keyFunc (self w0) x.1.1 = "10.0.0.1") (zip rs resps)).*2 /\
    limiterOf wk' "10.0.0.1" = limiterOf w' "10.0.0.1".
Proof.
  cbv zeta.
  apply (per_key_isolation (fun _ => {| Code := 200; Body := "ok" |})
           (fun n => ({| allowReturn := true; callCount := 0 |}, S n))).
  intros e e'. reflexivity.
Defined.

Lemma forwarded_for_selects_the_limiter_witness :
  let factory : LimiterFactory mockRateLimiter nat :=
    fun n => ({| allowReturn := true; callCount := 0 |}, S n) in
  let next : Handler := fun _ => {| Code := 200; Body := "ok" |} in
  let q (ip : string) :=
    {| Header := {[ "X-Forwarded-For"%string := ip ]};
       RemoteAddr := "10.0.0.1:4000"; Path := "/a" |} in
  let rs := [(q "1.1.1.1", 0); (q "2.2.2.2", 0)] in
  exists w',
    ServeAll next (NewWorld factory None 0%nat) rs = Some (next <$> rs.*1, w').
Proof.
  cbv zeta.
  apply (forwarded_for_selects_the_limiter
           (fun _ => {| Code := 200; Body := "ok" |})
           (fun n => ({| allowReturn := true; callCount := 0 |}, S n))).
  - intros e now. reflexivity.
  - cbn [fmap list_fmap fst Header]. unfold Get. rewrite !lookup_singleton_eq.
    cbn [default from_option id].
    repeat constructor; [|apply not_elem_of_nil].
    intros Hin. apply list_elem_of_singleton in Hin. discriminate.
  - repeat constructor; cbn [fst Header]; unfold Get;
      rewrite lookup_singleton_eq; discriminate.
Defined.
End PerKeyWitnesses.

Section ConfigWitnesses.
Import GoTime Config.

Lemma Clone_is_deep_witness :
  let h := {| arrays := [["/health"; "/metrics"]%string];
              maps := [{[ "Retry-After"%string := "5"%string ]}] |} in
  let c := {| Rate := 10; Burst := 20; Window := 0; Name := "test";
              Enabled := true; PerKeyLimits := false;
              ErrorMessage := "Rate limited";
              ExcludedPaths := Some {| arr := 0; off := 0; len := 2 |};
              ExcludedIPs := None;
              CustomHeaders := Some 0%nat |} in
  readSlice (snd (Clone h c)) <$> ExcludedPaths (fst (Clone h c))
  = readSlice h <$> ExcludedPaths c /\
  forall s' i v h'',
    ExcludedPaths (fst (Clone h c)) = Some s' \/
    ExcludedIPs (fst (Clone h c)) = Some s' ->
    writeSlice (snd (Clone h c)) s' i v = Some h'' ->
    readSlice h'' <$> ExcludedPaths c = readSlice h <$> ExcludedPaths c /\
    readSlice h'' <$> ExcludedIPs c = readSlice h <$> ExcludedIPs c.
Proof.
  cbv zeta.
  match goal with
  | |- context [Clone ?h ?c] =>
      destruct (Clone_is_deep h c) as (_ & (Hp & _) & _ & Hw & _)
  end.
  - split; [|split].
    + intros s [= <-]. exists ["/health"; "/metrics"]%string.
      split; [reflexivity|cbn; lia].
    + intros s [=].
    + intros a [= <-]. cbn. lia.
  - split; [exact Hp|exact Hw].
Defined.

Lemma Build_validates_and_clones_witness :
  exists c' h',
    Build {| arrays := []; maps := [] |} NewBuilder = (Some c', None, h') /\
    Validate c' = None.
Proof.
  destruct (Build_validates_and_clones {| arrays := []; maps := [] |} NewBuilder)
    as [Hok _].
  - split; [|split]; intros ? [=].
  - destruct Hok as (c' & h' & Hb & _ & Hv & _).
    + unfold NewBuilder, DefaultConfig, Second. cbn. lia.
    + exists c', h'. split; [exact Hb|exact Hv].
Defined.
End ConfigWitnesses.
